(** * LangPatrol dataset generators: a shallow embedding and its properties

    The development follows the two generator scripts of the repository:

    - [generate_missing_reference_dataset.py]: the reference patterns, the
      span detector, the annotator, the length enforcer, the per-case
      synthesis and the sector x pattern quota loop (module [MissingRef]);
    - [generate_dataset.py]: the message-history extraction and the on-disk
      store with its index (module [Dataset]).

    Python strings are modelled as lists of 8-bit characters ([list ascii]);
    the classification of characters (word characters, white space, lower
    case) is the one Python applies to code points below 128.  Python
    integers are [Z].  Calls to the generation service are inputs of the
    model: the text the service returned, or [None] when the call raised. *)

From Stdlib Require Import ZArith List Ascii String DecimalString Bool Lia.
From Stdlib Require DecimalPos.
From stdpp Require Import base decidable option list sorting gmap strings.
Import ListNotations.

Local Open Scope Z_scope.

(** ** Python string operations *)

Module Text.

Abbreviation text := (list ascii).

Definition txt (s : string) : text := list_ascii_of_string s.

Definition len {A} (t : list A) : Z := Z.of_nat (length t).

(** Index normalisation of a slice bound: a negative bound counts from the
    end, and every bound is clamped to [0, len]. *)
Definition norm_index (n : Z) (i : Z) : nat :=
  Z.to_nat (if i <? 0 then Z.max 0 (i + n) else Z.min i n).

(** [t[:i]] *)
Definition slice_to {A} (t : list A) (i : Z) : list A :=
  firstn (norm_index (len t) i) t.

(** [t[i:]] *)
Definition slice_from {A} (t : list A) (i : Z) : list A :=
  skipn (norm_index (len t) i) t.

(** [t[i:j]] *)
Definition slice {A} (t : list A) (i j : Z) : list A :=
  let a := norm_index (len t) i in
  let b := norm_index (len t) j in
  firstn (b - a) (skipn a t).

Definition ascii_eqb (a b : ascii) : bool := Ascii.eqb a b.

Fixpoint text_eqb (s t : text) : bool :=
  match s, t with
  | [], [] => true
  | a :: s', b :: t' => ascii_eqb a b && text_eqb s' t'
  | _, _ => false
  end.

(** [t.startswith(p)] *)
Fixpoint startswith (p t : text) : bool :=
  match p, t with
  | [], _ => true
  | a :: p', b :: t' => ascii_eqb a b && startswith p' t'
  | _ :: _, [] => false
  end.

(** [t.endswith(p)] *)
Definition endswith (p t : text) : bool :=
  startswith (rev p) (rev t).

(** Index of the first occurrence of [sub] in [t] at or after position [i],
    the position of [t] itself. *)
Fixpoint find_from (sub t : text) (i : Z) : Z :=
  if startswith sub t then i
  else match t with
       | [] => -1
       | _ :: t' => find_from sub t' (i + 1)
       end.

(** [t.find(sub)] *)
Definition find (sub t : text) : Z := find_from sub t 0.

(** [sub in t] *)
Definition contains (sub t : text) : bool := 0 <=? find sub t.

(** Index of the last occurrence, [-1] if there is none. *)
Fixpoint rfind_from (sub t : text) (i : Z) : Z :=
  match t with
  | [] => if startswith sub [] then i else -1
  | _ :: t' =>
      let r := rfind_from sub t' (i + 1) in
      if 0 <=? r then r else if startswith sub t then i else -1
  end.

(** [t.rfind(sub)] *)
Definition rfind (sub t : text) : Z := rfind_from sub t 0.

Definition is_upper (a : ascii) : bool :=
  let n := nat_of_ascii a in (65 <=? n)%nat && (n <=? 90)%nat.

(** [c.lower()] on the ASCII range. *)
Definition lower_char (a : ascii) : ascii :=
  if is_upper a then ascii_of_nat (nat_of_ascii a + 32) else a.

(** [t.lower()] *)
Definition lower (t : text) : text := map lower_char t.

(** White space as [str.isspace] and the regular-expression class [\s] see
    it below code point 128: 9..13, 28..31 and 32. *)
Definition is_space (a : ascii) : bool :=
  let n := nat_of_ascii a in
  ((9 <=? n)%nat && (n <=? 13)%nat) || ((28 <=? n)%nat && (n <=? 32)%nat).

Fixpoint lstrip (t : text) : text :=
  match t with
  | a :: t' => if is_space a then lstrip t' else t
  | [] => []
  end.

(** [t.strip()] *)
Definition strip (t : text) : text := rev (lstrip (rev (lstrip t))).

(** [t.split(sep)] for a one-character separator. *)
Fixpoint split_on (sep : ascii) (t : text) : list text :=
  match t with
  | [] => [[]]
  | a :: t' =>
      if ascii_eqb a sep then [] :: split_on sep t'
      else match split_on sep t' with
           | [] => [[a]]
           | l :: ls => (a :: l) :: ls
           end
  end.

(** [sep.join(parts)] *)
Fixpoint join (sep : text) (parts : list text) : text :=
  match parts with
  | [] => []
  | [p] => p
  | p :: ps => p ++ sep ++ join sep ps
  end.

(** Number of non-overlapping occurrences of a non-empty [sub], scanning
    from the left as [t.count(sub)] does.  The fuel is the length of the
    text still to scan. *)
Fixpoint count_fuel (fuel : nat) (sub t : text) : nat :=
  match fuel with
  | O => O
  | S fuel' =>
      if startswith sub t then S (count_fuel fuel' sub (skipn (length sub) t))
      else match t with
           | [] => O
           | _ :: t' => count_fuel fuel' sub t'
           end
  end.

Definition count (sub t : text) : nat := count_fuel (S (length t)) sub t.

(** [t.replace(sub, "")] for a non-empty [sub]. *)
Fixpoint remove_fuel (fuel : nat) (sub t : text) : text :=
  match fuel with
  | O => t
  | S fuel' =>
      if startswith sub t then remove_fuel fuel' sub (skipn (length sub) t)
      else match t with
           | [] => []
           | a :: t' => a :: remove_fuel fuel' sub t'
           end
  end.

Definition remove_all (sub t : text) : text := remove_fuel (S (length t)) sub t.

End Text.

Import Text.

(** ** JSON values and [json.loads]

    Objects are association lists in insertion order, as Python dictionaries
    are; a repeated key keeps its first position and its last value.  A
    number without fraction and exponent is an integer; any other number is
    kept as its lexeme.  An escape [\uXXXX] above code point 255 is outside
    the modelled alphabet and is rejected. *)

Module Json.

#[local] Set Warnings "-register-all".

Inductive json :=
| JNull
| JBool (b : bool)
| JInt (z : Z)
| JFloat (lexeme : text)
| JStr (s : text)
| JArr (items : list json)
| JObj (members : list (text * json)).

(** [d.get(k)] / [k in d] *)
Fixpoint dict_get {V} (k : text) (d : list (text * V)) : option V :=
  match d with
  | [] => None
  | (k', v) :: d' => if text_eqb k k' then Some v else dict_get k d'
  end.

(** [d[k] = v] *)
Fixpoint dict_set {V} (k : text) (v : V) (d : list (text * V)) : list (text * V) :=
  match d with
  | [] => [(k, v)]
  | (k', v') :: d' =>
      if text_eqb k k' then (k, v) :: d' else (k', v') :: dict_set k v d'
  end.

Definition is_json_ws (a : ascii) : bool :=
  let n := nat_of_ascii a in
  (n =? 32)%nat || (n =? 9)%nat || (n =? 10)%nat || (n =? 13)%nat.

Fixpoint skip_ws (t : text) : text :=
  match t with
  | a :: t' => if is_json_ws a then skip_ws t' else t
  | [] => []
  end.

Definition is_digit (a : ascii) : bool :=
  let n := nat_of_ascii a in (48 <=? n)%nat && (n <=? 57)%nat.

Definition hex_value (a : ascii) : option nat :=
  let n := nat_of_ascii a in
  if (48 <=? n)%nat && (n <=? 57)%nat then Some (n - 48)%nat
  else if (65 <=? n)%nat && (n <=? 70)%nat then Some (n - 55)%nat
  else if (97 <=? n)%nat && (n <=? 102)%nat then Some (n - 87)%nat
  else None.

Definition quote : ascii := ascii_of_nat 34.
Definition backslash : ascii := ascii_of_nat 92.

(** The characters of a string literal after its opening quote. *)
Fixpoint parse_string (t : text) : option (text * text) :=
  match t with
  | [] => None
  | a :: t' =>
      if ascii_eqb a quote then Some ([], t')
      else if ascii_eqb a backslash then
        match t' with
        | e :: t'' =>
            let simple (c : ascii) :=
              match parse_string t'' with
              | Some (s, r) => Some (c :: s, r)
              | None => None
              end in
            if ascii_eqb e quote then simple quote
            else if ascii_eqb e backslash then simple backslash
            else if ascii_eqb e "/" then simple "/"%char
            else if ascii_eqb e "b" then simple (ascii_of_nat 8)
            else if ascii_eqb e "f" then simple (ascii_of_nat 12)
            else if ascii_eqb e "n" then simple (ascii_of_nat 10)
            else if ascii_eqb e "r" then simple (ascii_of_nat 13)
            else if ascii_eqb e "t" then simple (ascii_of_nat 9)
            else if ascii_eqb e "u" then
              match t'' with
              | h1 :: h2 :: h3 :: h4 :: t3 =>
                  match hex_value h1, hex_value h2, hex_value h3, hex_value h4 with
                  | Some 0%nat, Some 0%nat, Some c, Some d =>
                      match parse_string t3 with
                      | Some (s, r) => Some (ascii_of_nat (16 * c + d) :: s, r)
                      | None => None
                      end
                  | _, _, _, _ => None
                  end
              | _ => None
              end
            else None
        | [] => None
        end
      else if (nat_of_ascii a <? 32)%nat then None
      else match parse_string t' with
           | Some (s, r) => Some (a :: s, r)
           | None => None
           end
  end.

Fixpoint span_digits (t : text) : text * text :=
  match t with
  | a :: t' =>
      if is_digit a then let '(d, r) := span_digits t' in (a :: d, r)
      else ([], t)
  | [] => ([], [])
  end.

Definition digits_value (d : text) : Z :=
  fold_left (fun acc a => 10 * acc + Z.of_nat (nat_of_ascii a - 48)) d 0.

(** A number: an optional minus sign, an integer part without a leading
    zero, then an optional fraction and an optional exponent. *)
Definition parse_number (t : text) : option (json * text) :=
  let '(neg, t1) :=
    match t with
    | a :: t' => if ascii_eqb a "-" then (true, t') else (false, t)
    | [] => (false, t)
    end in
  let '(int_part, t2) := span_digits t1 in
  let int_part :=
    match int_part with
    | a :: _ :: _ => if ascii_eqb a "0" then [a] else int_part
    | _ => int_part
    end in
  let t2 := skipn (length int_part) t1 in
  match int_part with
  | [] => None
  | _ =>
      let '(frac, t3) :=
        match t2 with
        | a :: t' =>
            if ascii_eqb a "." then
              let '(d, r) := span_digits t' in
              match d with [] => ([], t2) | _ => (a :: d, r) end
            else ([], t2)
        | [] => ([], t2)
        end in
      let '(expo, t4) :=
        match t3 with
        | a :: t' =>
            if ascii_eqb a "e" || ascii_eqb a "E" then
              let '(sign, t'') :=
                match t' with
                | b :: u => if ascii_eqb b "-" || ascii_eqb b "+" then ([b], u) else ([], t')
                | [] => ([], t')
                end in
              let '(d, r) := span_digits t'' in
              match d with [] => ([], t3) | _ => (a :: sign ++ d, r) end
            else ([], t3)
        | [] => ([], t3)
        end in
      match frac, expo with
      | [], [] =>
          Some (JInt (if neg then - digits_value int_part else digits_value int_part), t4)
      | _, _ =>
          Some (JFloat ((if neg then ["-"%char] else []) ++ int_part ++ frac ++ expo), t4)
      end
  end.

Definition expect (kw : string) (v : json) (t : text) : option (json * text) :=
  if startswith (txt kw) t then Some (v, skipn (String.length kw) t) else None.

(** The recursive descent; [fuel] bounds the recursion and is chosen larger
    than any text needs (see [loads]). *)
Fixpoint parse_value (fuel : nat) (t : text) : option (json * text) :=
  match fuel with
  | O => None
  | S fuel' =>
      match t with
      | [] => None
      | a :: t' =>
          if ascii_eqb a quote then
            match parse_string t' with
            | Some (s, r) => Some (JStr s, r)
            | None => None
            end
          else if ascii_eqb a "[" then
            match skip_ws t' with
            | b :: r =>
                if ascii_eqb b "]" then Some (JArr [], r)
                else match parse_items fuel' (b :: r) with
                     | Some (l, r') => Some (JArr l, r')
                     | None => None
                     end
            | [] => None
            end
          else if ascii_eqb a "{" then
            match skip_ws t' with
            | b :: r =>
                if ascii_eqb b "}" then Some (JObj [], r)
                else match parse_members fuel' [] (b :: r) with
                     | Some (d, r') => Some (JObj d, r')
                     | None => None
                     end
            | [] => None
            end
          else if ascii_eqb a "n" then expect "null" JNull t
          else if ascii_eqb a "t" then expect "true" (JBool true) t
          else if ascii_eqb a "f" then expect "false" (JBool false) t
          else if ascii_eqb a "N" then expect "NaN" (JFloat (txt "NaN")) t
          else if ascii_eqb a "I" then expect "Infinity" (JFloat (txt "Infinity")) t
          else if startswith (txt "-Infinity") t then
            expect "-Infinity" (JFloat (txt "-Infinity")) t
          else parse_number t
      end
  end

with parse_items (fuel : nat) (t : text) : option (list json * text) :=
  match fuel with
  | O => None
  | S fuel' =>
      match parse_value fuel' t with
      | Some (v, r) =>
          match skip_ws r with
          | c :: r' =>
              if ascii_eqb c "," then
                match parse_items fuel' (skip_ws r') with
                | Some (l, r'') => Some (v :: l, r'')
                | None => None
                end
              else if ascii_eqb c "]" then Some ([v], r')
              else None
          | [] => None
          end
      | None => None
      end
  end

with parse_members (fuel : nat) (acc : list (text * json)) (t : text)
    : option (list (text * json) * text) :=
  match fuel with
  | O => None
  | S fuel' =>
      match t with
      | q :: t' =>
          if ascii_eqb q quote then
            match parse_string t' with
            | Some (k, r) =>
                match skip_ws r with
                | c :: r1 =>
                    if ascii_eqb c ":" then
                      match parse_value fuel' (skip_ws r1) with
                      | Some (v, r2) =>
                          let acc' := dict_set k v acc in
                          match skip_ws r2 with
                          | d :: r3 =>
                              if ascii_eqb d "," then parse_members fuel' acc' (skip_ws r3)
                              else if ascii_eqb d "}" then Some (acc', r3)
                              else None
                          | [] => None
                          end
                      | None => None
                      end
                    else None
                | [] => None
                end
            | None => None
            end
          else None
      | [] => None
      end
  end.

(** [json.loads(s)]; [None] stands for [JSONDecodeError]. *)
Definition loads (s : text) : option json :=
  match parse_value (2 * length s + 2) (skip_ws s) with
  | Some (v, r) =>
      match skip_ws r with
      | [] => Some v
      | _ :: _ => None
      end
  | None => None
  end.

End Json.

Import Json.

(** ** The fragment of Python's [re] the reference patterns use

    A backtracking matcher with ordered alternation and greedy repetition,
    under [re.IGNORECASE]: a literal and a character set are tested against
    the lower-cased input character; [\s] and [\b] do not depend on case.
    Groups only delimit alternatives (the script reads [group(0)] alone), so
    they are not represented. *)

Module Regex.

(** [\w] below code point 128: letters, digits and the underscore. *)
Definition is_word (a : ascii) : bool :=
  let n := nat_of_ascii a in
  ((48 <=? n)%nat && (n <=? 57)%nat) || ((65 <=? n)%nat && (n <=? 90)%nat)
  || ((97 <=? n)%nat && (n <=? 122)%nat) || (n =? 95)%nat.

(** One-character items: a literal, [\s], or a set of ranges [[a-z0-9_-]]. *)
Inductive item :=
| ILit (c : ascii)
| ISpace
| ISet (ranges : list (ascii * ascii)).

Inductive regex :=
| Eps
| Item (i : item)
| Rep (i : item) (min : nat)      (* greedy [i{min,}]; [i+] is [Rep i 1] *)
| WordB                           (* [\b] *)
| Seq (r1 r2 : regex)
| Alt (r1 r2 : regex).            (* [r1|r2], [r1] tried first *)

Definition in_range (a : ascii) (rg : ascii * ascii) : bool :=
  let n := nat_of_ascii a in
  (nat_of_ascii (fst rg) <=? n)%nat && (n <=? nat_of_ascii (snd rg))%nat.

Definition item_match (i : item) (a : ascii) : bool :=
  match i with
  | ILit c => ascii_eqb (lower_char a) (lower_char c)
  | ISpace => is_space a
  | ISet ranges => existsb (in_range (lower_char a)) ranges
  end.

Definition next_is_word (rest : text) : bool :=
  match rest with
  | a :: _ => is_word a
  | [] => false
  end.

(** The matcher runs at offset [pos] of the subject, [rest] being the text
    from [pos] on and [pw] telling whether the character before [pos] is a
    word character; the continuation [k] receives the same three for the
    rest of the pattern and finally yields the end offset of the match. *)
Definition cont := bool -> nat -> text -> option nat.

Fixpoint rep (i : item) (min : nat) (pw : bool) (pos : nat) (rest : text)
    (k : cont) : option nat :=
  let stop := if (min =? 0)%nat then k pw pos rest else None in
  match rest with
  | a :: rest' =>
      if item_match i a then
        match rep i (pred min) (is_word a) (S pos) rest' k with
        | Some e => Some e
        | None => stop
        end
      else stop
  | [] => stop
  end.

Fixpoint rmatch (r : regex) (pw : bool) (pos : nat) (rest : text)
    (k : cont) : option nat :=
  match r with
  | Eps => k pw pos rest
  | Item i =>
      match rest with
      | a :: rest' => if item_match i a then k (is_word a) (S pos) rest' else None
      | [] => None
      end
  | Rep i min => rep i min pw pos rest k
  | WordB => if xorb pw (next_is_word rest) then k pw pos rest else None
  | Seq r1 r2 => rmatch r1 pw pos rest (fun pw' pos' rest' => rmatch r2 pw' pos' rest' k)
  | Alt r1 r2 =>
      match rmatch r1 pw pos rest k with
      | Some e => Some e
      | None => rmatch r2 pw pos rest k
      end
  end.

(** [pattern.match(subject, pos)]: the end offset of the match at [pos]. *)
Definition match_at (r : regex) (pw : bool) (pos : nat) (rest : text) : option nat :=
  rmatch r pw pos rest (fun _ e _ => Some e).

(** [re.finditer]: the matches from left to right.  After a match the scan
    resumes at its end: [skip] counts the positions that remain inside the
    last match and are not tried. *)
Fixpoint finditer_from (r : regex) (pos skip : nat) (pw : bool) (rest : text)
    : list (nat * nat) :=
  match skip with
  | S skip' =>
      match rest with
      | a :: rest' => finditer_from r (S pos) skip' (is_word a) rest'
      | [] => []
      end
  | O =>
      match match_at r pw pos rest with
      | Some e =>
          (pos, e) ::
          match rest with
          | a :: rest' => finditer_from r (S pos) (pred (e - pos)) (is_word a) rest'
          | [] => []
          end
      | None =>
          match rest with
          | a :: rest' => finditer_from r (S pos) 0 (is_word a) rest'
          | [] => []
          end
      end
  end.

Definition finditer (r : regex) (subject : text) : list (nat * nat) :=
  finditer_from r 0 0 false subject.

(** Pattern syntax helpers. *)
Definition lit (s : string) : regex :=
  fold_right (fun c r => Seq (Item (ILit c)) r) Eps (txt s).

Definition seqs (rs : list regex) : regex := fold_right Seq Eps rs.

Fixpoint alts (rs : list regex) : regex :=
  match rs with
  | [] => Eps
  | [r] => r
  | r :: rs' => Alt r (alts rs')
  end.

Definition words (ws : list string) : regex := alts (map lit ws).

(** The least number of characters a match consumes. *)
Fixpoint minlen (r : regex) : nat :=
  match r with
  | Eps | WordB => 0
  | Item _ => 1
  | Rep _ min => min
  | Seq r1 r2 => minlen r1 + minlen r2
  | Alt r1 r2 => Nat.min (minlen r1) (minlen r2)
  end.

(** *** Vocabulary of the statements about the matcher *)

(** Whatever a pattern matches, the continuation ran on a suffix of the
    text, at least [minlen] characters further on. *)
Definition reaches (k : cont) (pos : nat) (rest : text) (n : nat) (e : nat) : Prop :=
  exists pw' pos' rest',
    k pw' pos' rest' = Some e
    /\ (pos + n <= pos')%nat
    /\ (pos' + length rest' = pos + length rest)%nat.

(** Two continuations that agree up to the case of the text. *)
Definition same_up_to_case (k' k : cont) : Prop :=
  forall pw pos rest, k' pw pos (lower rest) = k pw pos rest.

End Regex.

Import Regex.

(** ** generate_missing_reference_dataset.py *)

Module MissingRef.

Definition MIN_PROMPT_LENGTH : Z := 2000.

Definition MARKER : text := txt "[MISSING_REFERENCE]".

(** A reference span as the script handles it: a dictionary whose keys
    ['text'], ['start'], ['end'] and ['type'] may each be absent. *)
Record ref := mk_ref {
  r_text : option text;
  r_start : option Z;
  r_end : option Z;
  r_type : option text
}.

(** [sorted(l, key=key)] and [sorted(l, key=key, reverse=True)]: a stable
    sort; with [reverse] the keys descend and equal keys keep their
    original order. *)
Section Sorted.
Context {A : Type} (key : A -> Z).

Definition before (reverse : bool) (x y : A) : bool :=
  if reverse then key y <=? key x else key x <=? key y.

Fixpoint insert_sorted (reverse : bool) (x : A) (l : list A) : list A :=
  match l with
  | [] => [x]
  | y :: l' =>
      if before reverse x y then x :: l
      else y :: insert_sorted reverse x l'
  end.

Definition sorted (reverse : bool) (l : list A) : list A :=
  fold_right (insert_sorted reverse) [] l.
End Sorted.

(** [x.get('start', 0)] *)
Definition get_start (r : ref) : Z := default 0 (r_start r).

(** [ref.get('text', '')] *)
Definition get_text (r : ref) : text := default [] (r_text r).

(** [ref.get('end', start + len(ref.get('text', '')))] *)
Definition get_end (r : ref) : Z :=
  default (get_start r + len (get_text r)) (r_end r).

(** One iteration of the loop of [annotate_prompt]; the state is the pair
    of [annotated] and [offset]. *)
Definition annotate_step (prompt : text) (st : text * Z) (r : ref) : text * Z :=
  let '(annotated, offset) := st in
  let start := get_start r in
  let end_ := get_end r in
  if (0 <=? start) && (end_ <=? len prompt) then
    (slice_to annotated (end_ + offset) ++ MARKER
       ++ slice_from annotated (end_ + offset),
     offset + len MARKER)
  else (annotated, offset).

Definition annotate_prompt (prompt : text) (missing_references : list ref) : text :=
  let sorted_refs := sorted get_start true missing_references in
  fst (fold_left (annotate_step prompt) sorted_refs (prompt, 0)).

(** The annotation as the contract words it: one marker immediately after
    the original end offset of every span, the text itself unchanged.
    [ends] are the end offsets, [i] the offset of [rest] in the prompt. *)
Fixpoint annotate_spec_from (ends : list Z) (i : Z) (rest : text) : text :=
  concat (map (fun _ => MARKER) (filter (Z.eqb i) ends))
    ++ match rest with
       | [] => []
       | c :: rest' => c :: annotate_spec_from ends (i + 1) rest'
       end.

Definition annotate_spec (prompt : text) (spans : list ref) : text :=
  annotate_spec_from (map get_end spans) 0 prompt.

Definition span (t : text) (s e : Z) : ref :=
  mk_ref (Some (slice t s e)) (Some s) (Some e) None.


(** [\s+] *)
Definition sp : regex := Rep ISpace 1.

(** [([a-z][a-z0-9_-]{2,})] *)
Definition noun : regex :=
  Seq (Item (ISet [("a", "z")]%char))
      (Rep (ISet [("a", "z"); ("0", "9"); ("_", "_"); ("-", "-")]%char) 2).

Definition REFERENCE_PATTERNS : list (regex * text) :=
  [ (seqs [WordB; words ["the"; "this"; "that"; "these"; "those"]; sp; noun; WordB],
     txt "definite_noun");
    (seqs [WordB; lit "as"; sp;
           words ["discussed"; "mentioned"; "stated"; "noted"]; sp;
           words ["earlier"; "above"; "previously"; "before"]; WordB],
     txt "deictic");
    (seqs [WordB; words ["the"; "this"; "that"]; sp;
           words ["previous"; "earlier"; "prior"; "aforementioned"; "above"; "below"];
           sp; noun; WordB],
     txt "deictic_noun");
    (seqs [WordB; lit "continue"; sp; lit "the"; sp; noun; WordB],
     txt "continue_reference");
    (seqs [WordB; lit "the"; sp; noun; sp;
           alts [lit "above"; lit "below"; lit "mentioned"; lit "discussed";
                 seqs [lit "we"; sp; lit "discussed"]];
           WordB],
     txt "positional_reference");
    (seqs [WordB; lit "the"; sp; lit "following"; sp; noun; WordB],
     txt "forward_reference");
    (seqs [WordB; lit "as"; sp; lit "shown"; sp; lit "below"; WordB],
     txt "forward_reference");
    (seqs [WordB; lit "the"; sp; noun; sp; lit "below"; WordB],
     txt "forward_reference");
    (seqs [WordB; lit "these"; sp; noun; WordB], txt "plural_reference");
    (seqs [WordB; lit "those"; sp; noun; WordB], txt "plural_reference") ].

(** The dictionary built for one match. *)
Definition match_ref (prompt : text) (ref_type : text) (m : nat * nat) : ref :=
  let s := Z.of_nat (fst m) in
  let e := Z.of_nat (snd m) in
  mk_ref (Some (slice prompt s e)) (Some s) (Some e) (Some ref_type).

(** The list [references] after the two nested loops. *)
Definition references (prompt : text) : list ref :=
  flat_map (fun pt => map (match_ref prompt (snd pt)) (finditer (fst pt) prompt))
           REFERENCE_PATTERNS.

Definition ref_key (r : ref) : Z * Z := (get_start r, get_end r).

(** The de-duplication loop; [seen] is the set of [(start, end)] pairs. *)
Fixpoint unique_from (seen : gset (Z * Z)) (l : list ref) : list ref :=
  match l with
  | [] => []
  | r :: l' =>
      if decide (ref_key r ∈ seen) then unique_from seen l'
      else r :: unique_from ({[ref_key r]} ∪ seen) l'
  end.

Definition detect_references_in_prompt (prompt : text) : list ref :=
  unique_from ∅ (sorted get_start false (references prompt)).

(** *** Length enforcement *)

Definition nl : ascii := ascii_of_nat 10.

(** The fixed filler paragraph, parameterised by the sector name. *)
Definition fallback_extension (sector : text) : text :=
  [nl; nl] ++ txt "Additional context: This request is part of a "
       ++ lower sector
       ++ txt " workflow that requires comprehensive analysis and detailed "
       ++ txt "processing. Please ensure all relevant information is "
       ++ txt "considered, including historical data, current state, and "
       ++ txt "future requirements. The task involves multiple steps and "
       ++ txt "may require coordination with other systems or "
       ++ txt "stakeholders. Please provide a thorough response that "
       ++ txt "addresses all aspects of this request, including any "
       ++ txt "potential edge cases or special considerations that might "
       ++ txt "apply to this specific "
       ++ lower sector
       ++ txt " scenario.".

(** The clean-up of a service extension: surrounding white space, one pair
    of surrounding double quotes, one pair of surrounding code fences. *)
Definition clean_extension (extended : text) : text :=
  let extended := strip extended in
  let extended :=
    if startswith [Json.quote] extended && endswith [Json.quote] extended
    then slice extended 1 (-1) else extended in
  let fence := txt "```" in
  if startswith fence extended && endswith fence extended
  then join [nl] (slice (split_on nl extended) 1 (-1))
  else extended.

(** [extend_prompt_if_needed].  [reply] is what [call_ollama] gave for the
    extension request: [Some] text (empty after a transport error), or
    [None] when the call raised; it is consulted only when the prompt is too
    short. *)
Definition extend_prompt_if_needed (reply : option text)
    (prompt sector pattern_type : text) : text :=
  if MIN_PROMPT_LENGTH <=? len prompt then prompt
  else
    match reply with
    | Some ((_ :: _) as extended) =>
        if len prompt <? len extended then clean_extension extended
        else prompt ++ fallback_extension sector
    | _ => prompt ++ fallback_extension sector
    end.

(** *** Synthesis of one test case *)

(** The dictionary parsed from the service response, at the types the
    generator relies on; the optional keys may be absent. *)
Record raw_case := mk_raw {
  raw_messages : json;
  raw_prompt : text;
  raw_missing_references : option (list ref);
  raw_expected_issue_codes : option json;
  raw_notes : option json
}.

(** The dictionary [generate_test_case_with_llm] returns. *)
Record test_case := mk_case {
  tc_messages : json;
  tc_prompt : text;
  tc_missing_references : list ref;
  tc_expected_issue_codes : json;
  tc_notes : json
}.

Definition is_resolved (pattern_type : text) : bool :=
  text_eqb pattern_type (txt "resolved").

Definition default_issue_codes (pattern_type : text) : json :=
  if negb (is_resolved pattern_type) then JArr [JStr (txt "MISSING_REFERENCE")]
  else JArr [].

(** The body of the loop that fixes the positions of one reference. *)
Definition fix_position (prompt_text : text) (r : ref) : ref :=
  let ref_text := get_text r in
  if contains ref_text prompt_text then
    let actual_start := find ref_text prompt_text in
    if negb (actual_start =? -1) then
      {| r_text := r_text r;
         r_start := Some actual_start;
         r_end := Some (actual_start + len ref_text);
         r_type := r_type r |}
    else r
  else r.

(** The references and the prompt after the first length check. *)
Definition extended_stage (raw : raw_case) (ext1 : option text)
    (sector pattern_type : text) : list ref * text :=
  let refs :=
    match raw_missing_references raw with
    | Some ((_ :: _) as l) => l
    | _ =>
        if negb (is_resolved pattern_type)
        then detect_references_in_prompt (raw_prompt raw)
        else []
    end in
  let prompt_text := raw_prompt raw in
  if len prompt_text <? MIN_PROMPT_LENGTH then
    let extended_prompt :=
      extend_prompt_if_needed ext1 prompt_text sector pattern_type in
    let refs :=
      if (len prompt_text <? len extended_prompt) && negb (is_resolved pattern_type)
      then detect_references_in_prompt extended_prompt
      else refs in
    (refs, extended_prompt)
  else (refs, prompt_text).

(** The part of [generate_test_case_with_llm] after the structure check.
    [ext1] and [ext2] are the service replies to the first and to the final
    extension request. *)
Definition complete_test_case (raw : raw_case) (ext1 ext2 : option text)
    (sector pattern_type : text) : test_case :=
  let codes :=
    default (default_issue_codes pattern_type) (raw_expected_issue_codes raw) in
  let '(refs, prompt_text) := extended_stage raw ext1 sector pattern_type in
  let refs := map (fix_position prompt_text) refs in
  let notes :=
    default (JStr (pattern_type ++ txt " pattern in " ++ sector)) (raw_notes raw) in
  let final_prompt :=
    if len prompt_text <? MIN_PROMPT_LENGTH
    then extend_prompt_if_needed ext2 prompt_text sector pattern_type
    else prompt_text in
  {| tc_messages := raw_messages raw;
     tc_prompt := final_prompt;
     tc_missing_references := refs;
     tc_expected_issue_codes := codes;
     tc_notes := notes |}.

(** What a call produces: a value, [None], or nothing the embedding covers
    (a field of the response has a JSON type the typed view excludes). *)
Inductive outcome (A : Type) :=
| Done (a : A)
| Nothing
| Untyped.
Arguments Done {A} a.
Arguments Nothing {A}.
Arguments Untyped {A}.

(** A float lexeme denotes zero when its mantissa has only zero digits. *)
Fixpoint mantissa (lx : text) : text :=
  match lx with
  | a :: lx' => if ascii_eqb a "e" || ascii_eqb a "E" then [] else a :: mantissa lx'
  | [] => []
  end.

Definition float_is_zero (lx : text) : bool :=
  let digits := filter (fun a => is_digit a = true) (mantissa lx) in
  match digits with
  | [] => false
  | _ => forallb (ascii_eqb "0") digits
  end.

(** Truth value of a JSON value ([not v] is its negation). *)
Definition truthy (v : json) : bool :=
  match v with
  | JNull => false
  | JBool b => b
  | JInt z => negb (z =? 0)
  | JFloat lx => negb (float_is_zero lx)
  | JStr s => match s with [] => false | _ => true end
  | JArr l => match l with [] => false | _ => true end
  | JObj d => match d with [] => false | _ => true end
  end.

Definition decode_int (v : option json) : option (option Z) :=
  match v with
  | None => Some None
  | Some (JInt z) => Some (Some z)
  | Some _ => None
  end.

Definition decode_text (v : option json) : option (option text) :=
  match v with
  | None => Some None
  | Some (JStr s) => Some (Some s)
  | Some _ => None
  end.

(** One element of [missing_references] read as a reference dictionary. *)
Definition decode_ref (v : json) : option ref :=
  match v with
  | JObj d =>
      match decode_text (dict_get (txt "text") d),
            decode_int (dict_get (txt "start") d),
            decode_int (dict_get (txt "end") d),
            decode_text (dict_get (txt "type") d) with
      | Some t, Some s, Some e, Some ty => Some (mk_ref t s e ty)
      | _, _, _, _ => None
      end
  | _ => None
  end.

Fixpoint decode_refs (l : list json) : option (list ref) :=
  match l with
  | [] => Some []
  | v :: l' =>
      match decode_ref v, decode_refs l' with
      | Some r, Some rs => Some (r :: rs)
      | _, _ => None
      end
  end.

(** The typed view of the parsed dictionary, after the check that the keys
    ["messages"] and ["prompt"] are present. *)
Definition decode_case (v : json) : outcome raw_case :=
  match v with
  | JObj d =>
      match dict_get (txt "messages") d, dict_get (txt "prompt") d with
      | Some msgs, Some (JStr p) =>
          let with_refs (refs : option (list ref)) :=
            Done (mk_raw msgs p refs
                         (dict_get (txt "expected_issue_codes") d)
                         (dict_get (txt "notes") d)) in
          match dict_get (txt "missing_references") d with
          | None => with_refs None
          | Some (JArr l) =>
              match decode_refs l with
              | Some refs => with_refs (Some refs)
              | None => Untyped
              end
          | Some v' => if truthy v' then Untyped else with_refs (Some [])
          end
      | Some _, Some _ => Untyped
      | _, _ => Nothing
      end
  | _ => Untyped
  end.

(** [generate_test_case_with_llm]: [response] is the reply of the service
    to the generation request (empty after a transport error). *)
Definition generate_test_case_with_llm (response : text) (ext1 ext2 : option text)
    (sector pattern_type : text) : outcome test_case :=
  match response with
  | [] => Nothing
  | _ :: _ =>
      let json_start := find (txt "{") response in
      let json_end := rfind (txt "}") response + 1 in
      if (json_start =? -1) || (json_end =? 0) then Nothing
      else
        match loads (slice response json_start json_end) with
        | None => Nothing
        | Some v =>
            match decode_case v with
            | Done raw => Done (complete_test_case raw ext1 ext2 sector pattern_type)
            | Nothing => Nothing
            | Untyped => Untyped
            end
        end
  end.

(** *** The quota loop of [generate_dataset] *)

Definition SECTORS : list text :=
  map txt ["Customer Support"; "Pharma/Tech"; "Booking Agent"; "E-commerce";
           "Healthcare"; "Legal"; "Education"; "Finance"]%string.

Definition PATTERN_TYPES : list text :=
  map txt ["missing_definite"; "missing_deictic"; "missing_forward";
           "resolved"; "mixed"]%string.

(** [enumerate(l)] *)
Definition enumerate {A} (l : list A) : list (Z * A) :=
  imap (fun i x => (Z.of_nat i, x)) l.

(** [range(n)] *)
Definition range (n : Z) : list Z := map Z.of_nat (seq 0 (Z.to_nat n)).

Section Quota.
Variables sectors patterns : list text.

(** The inner [for pattern_idx, pattern_type] loop: every pattern type
    with its [pattern_count]. *)
Definition pattern_counts (sector_count : Z) : list (text * Z) :=
  let cases_per_pattern := sector_count / len patterns in
  let pattern_remainder := sector_count mod len patterns in
  map (fun ip : Z * text =>
         let '(pattern_idx, pattern_type) := ip in
         (pattern_type,
          cases_per_pattern + (if pattern_idx <? pattern_remainder then 1 else 0)))
      (enumerate patterns).

(** The outer [for sector_idx, sector] loop: every sector with its
    [sector_count] and the counts of its pattern types. *)
Definition quota_plan (total_cases : Z) : list (text * Z * list (text * Z)) :=
  let cases_per_sector := total_cases / len sectors in
  let remainder := total_cases mod len sectors in
  map (fun is_ : Z * text =>
         let '(sector_idx, sector) := is_ in
         let sector_count :=
           cases_per_sector + (if sector_idx <? remainder then 1 else 0) in
         (sector, sector_count, pattern_counts sector_count))
      (enumerate sectors).

(** The calls the three nested loops make, in order: one
    [(sector, pattern_type, case_num + 1)] for every iteration of the
    innermost [for case_num in range(pattern_count)]. *)
Definition attempts (total_cases : Z) : list (text * text * Z) :=
  flat_map (fun sp : text * Z * list (text * Z) =>
              let '(sector, _, counts) := sp in
              flat_map (fun pc : text * Z =>
                          map (fun case_num => (sector, fst pc, case_num + 1))
                              (range (snd pc)))
                       counts)
           (quota_plan total_cases).
End Quota.

Definition generate_dataset_plan : Z -> list (text * Z * list (text * Z)) :=
  quota_plan SECTORS PATTERN_TYPES.

Definition generate_dataset_attempts : Z -> list (text * text * Z) :=
  attempts SECTORS PATTERN_TYPES.

(** *** Vocabulary of the statements *)

(** The order of the keys. *)
Definition key_le {A} (key : A -> Z) (a b : A) : Prop := key a <= key b.

(** What the detector keeps of a span when its text is set aside. *)
Definition erase (r : ref) : Z * Z * option text :=
  (get_start r, get_end r, r_type r).

Definition zsum (l : list Z) : Z := fold_right Z.add 0 l.

(** The JSON text written with single quotes for the double ones. *)
Definition json_text (s : string) : text :=
  map (fun c => if ascii_eqb c "'" then Json.quote else c) (txt s).

(** The prompt the position-fixing loop searches, and the references it
    runs over. *)
Definition fixing_prompt (raw : raw_case) (ext1 : option text)
    (sector pattern_type : text) : text :=
  snd (extended_stage raw ext1 sector pattern_type).

Definition refs_to_fix (raw : raw_case) (ext1 : option text)
    (sector pattern_type : text) : list ref :=
  fst (extended_stage raw ext1 sector pattern_type).

(** The prompt the detector last ran on when the response supplied no
    references: the extended prompt if the extension made it longer, the
    prompt of the response otherwise. *)
Definition detection_prompt (raw : raw_case) (ext1 : option text)
    (sector pattern_type : text) : text :=
  let p := fixing_prompt raw ext1 sector pattern_type in
  if len (raw_prompt raw) <? len p then p else raw_prompt raw.

(** *** Further vocabulary *)

(** The guard of the annotation loop: the span lies inside the prompt. *)
Definition span_in_range (prompt : text) (r : ref) : bool :=
  (0 <=? get_start r) && (get_end r <=? len prompt).

(** Two elements stand in the order of the sort. *)
Definition in_order {A} (key : A -> Z) (reverse : bool) (a b : A) : Prop :=
  before key reverse a b = true.

(** [s] is a contiguous part of [t]. *)
Definition part_of (s t : text) : Prop := exists pre post, t = pre ++ s ++ post.

End MissingRef.

(** ** generate_dataset.py *)

Module Dataset.

(** *** Message history *)

Record message := mk_message { role : text; content : text }.

Definition _default_messages : list message :=
  [ {| role := txt "system"; content := txt "You are a helpful AI assistant." |};
    {| role := txt "user"; content := txt "I need help with a task." |} ].

Definition valid_roles : list text := [txt "system"; txt "user"; txt "assistant"].

(** What [for msg in messages] ranges over: the items of a list, the keys
    of a dictionary, the characters of a string; any other value is not
    iterable and the loop raises [TypeError]. *)
Definition iterate (v : json) : option (list json) :=
  match v with
  | JArr l => Some l
  | JObj d => Some (map (fun kv => JStr (fst kv)) d)
  | JStr s => Some (map (fun c => JStr [c]) s)
  | _ => None
  end.

Section History.
(** [str(v)] for a value [v] that is not a string. *)
Variable py_str : json -> text.

Definition str_of (v : json) : text :=
  match v with
  | JStr s => s
  | _ => py_str v
  end.

(** The two nested tests of the validation loop and the dictionary it
    appends. *)
Definition valid_message (msg : json) : option message :=
  match msg with
  | JObj d =>
      match dict_get (txt "role") d, dict_get (txt "content") d with
      | Some (JStr r), Some c =>
          if existsb (text_eqb r) valid_roles
          then Some {| role := r; content := str_of c |}
          else None
      | _, _ => None
      end
  | _ => None
  end.

(** [generate_message_history] from the response of the service on;
    [None] is an exception that leaves the function. *)
Definition generate_message_history (response : text) : option (list message) :=
  let start := find (txt "[") response in
  let end_ := rfind (txt "]") response + 1 in
  if (0 <=? start) && (start <? end_) then
    match loads (slice response start end_) with
    | Some messages =>
        match iterate messages with
        | Some items =>
            let valid_messages := omap valid_message items in
            Some (match valid_messages with
                  | [] => _default_messages
                  | _ :: _ => valid_messages
                  end)
        | None => None
        end
    | None => Some _default_messages
    end
  else Some _default_messages.
End History.

(** *** Test cases *)

(** A test case dictionary: its ['id'], a string, and the other keys. *)
Record test_case := mk_case {
  tc_id : text;
  tc_fields : list (text * json)
}.

Definition tc_dict (tc : test_case) : list (text * json) :=
  (txt "id", JStr (tc_id tc)) :: tc_fields tc.

Definition decimal (n : Z) : text :=
  list_ascii_of_string (NilZero.string_of_int (Z.to_int n)).

(** [f"{n:04d}"]: padded with zeros to four characters, sign included. *)
Definition format_04d (n : Z) : text :=
  let digits := decimal (Z.abs n) in
  let sign := if n <? 0 then ["-"%char] else [] in
  sign ++ repeat "0"%char (4 - length sign - length digits) ++ digits.

Definition message_json (m : message) : json :=
  JObj [(txt "role", JStr (role m)); (txt "content", JStr (content m))].

(** The dictionary [generate_test_case] returns for the generated [prompt]
    and [messages]. *)
Definition generate_test_case (model : text) (case_id target_tokens : Z)
    (prompt : text) (messages : option (list message)) : test_case :=
  {| tc_id := txt "ollama-gen-" ++ format_04d case_id;
     tc_fields :=
       [ (txt "category", JStr (txt "ollama-generated"));
         (txt "prompt", JStr prompt);
         (txt "messages",
          match messages with
          | Some ms => JArr (map message_json ms)
          | None => JNull
          end);
         (txt "schema", JNull);
         (txt "expectedIssueCodes", JArr []);
         (txt "notes",
          JStr (txt "Generated with Ollama model " ++ model
                  ++ txt ", target tokens: " ++ decimal target_tokens)) ] |}.

(** *** The store *)

(** A file of the dataset directory holds JSON, or something [json.load]
    rejects. *)
Inductive file :=
| FJson (v : json)
| FOther (raw : text).

Inductive event :=
| EMkdir
| EWrite (path : text) (f : file).

(** The dataset directory, by file name, and the file-system operations
    performed so far, oldest first. *)
Record world := mk_world {
  disk : gmap text file;
  trace : list event
}.

Inductive result := Returned | Raised.

Definition case_path (id : text) : text := id ++ txt ".json".
Definition index_path : text := txt "index.json".

Definition mkdir (w : world) : world :=
  {| disk := disk w; trace := trace w ++ [EMkdir] |}.

Definition write_file (path : text) (f : file) (w : world) : world :=
  {| disk := <[path := f]> (disk w); trace := trace w ++ [EWrite path f] |}.

Definition fresh_index : json :=
  JObj [(txt "testCases", JArr []); (txt "metadata", JObj [])].

(** The index as loaded: the parsed file, or a fresh index when the file is
    missing or does not parse. *)
Definition load_index (d : gmap text file) : json :=
  match d !! index_path with
  | Some (FJson v) => v
  | Some (FOther _) => fresh_index
  | None => fresh_index
  end.

Definition is_id (id : text) (v : json) : bool :=
  match v with
  | JStr s => text_eqb id s
  | _ => false
  end.

(** [id in x]; [None] when the test raises [TypeError]. *)
Definition member (id : text) (x : json) : option bool :=
  match x with
  | JArr l => Some (existsb (is_id id) l)
  | JStr s => Some (contains id s)
  | JObj d => Some (match dict_get id d with Some _ => true | None => false end)
  | _ => None
  end.

(** [x.append(id)]; [None] when [x] has no [append]. *)
Definition append (id : text) (x : json) : option json :=
  match x with
  | JArr l => Some (JArr (l ++ [JStr id]))
  | _ => None
  end.

(** [len(x)] for the values that passed [member]. *)
Definition json_len (x : json) : Z :=
  match x with
  | JArr l => len l
  | JStr s => len s
  | JObj d => len d
  | _ => 0
  end.

Definition metadata (x : json) (tc : test_case) : json :=
  JObj [ (txt "totalTestCases", JInt (json_len x));
         (txt "lastUpdated", default (JStr []) (dict_get (txt "notes") (tc_dict tc)));
         (txt "format", JStr (txt "json")) ].

(** The update of [index_data] between loading and saving; [None] when a
    step raises ([KeyError], [TypeError] or [AttributeError]). *)
Definition update_index (tc : test_case) (index_data : json) : option json :=
  match index_data with
  | JObj d =>
      match dict_get (txt "testCases") d with
      | Some x =>
          match member (tc_id tc) x with
          | Some true =>
              Some (JObj (dict_set (txt "metadata") (metadata x tc) d))
          | Some false =>
              match append (tc_id tc) x with
              | Some x' =>
                  Some (JObj (dict_set (txt "metadata") (metadata x' tc)
                                       (dict_set (txt "testCases") x' d)))
              | None => None
              end
          | None => None
          end
      | None => None
      end
  | _ => None
  end.

Definition save_test_case (tc : test_case) (w : world) : result * world :=
  let w := mkdir w in
  let w := write_file (case_path (tc_id tc)) (FJson (JObj (tc_dict tc))) w in
  match update_index tc (load_index (disk w)) with
  | Some index_data => (Returned, write_file index_path (FJson index_data) w)
  | None => (Raised, w)
  end.

(** The ids the index lists, as [load_existing_dataset] reads them:
    [index_data.get("testCases", [])] of a parsed index, nothing otherwise. *)
Definition index_ids (d : gmap text file) : list json :=
  match d !! index_path with
  | Some (FJson (JObj o)) =>
      match dict_get (txt "testCases") o with
      | Some (JArr l) => l
      | _ => []
      end
  | _ => []
  end.

(** *** Vocabulary of the statements about the store *)

(** The index file lists its ids: it is missing, or does not parse, or is a
    dictionary whose [testCases] is a list. *)
Definition index_is_listing (d : gmap text file) : bool :=
  match d !! index_path with
  | Some (FJson (JObj o)) =>
      match dict_get (txt "testCases") o with
      | Some (JArr _) => true
      | _ => false
      end
  | Some (FJson _) => false
  | Some (FOther _) | None => true
  end.

(** The ids a loaded index lists, and whether it lists any. *)
Definition ids_of (v : json) : list json :=
  match v with
  | JObj o =>
      match dict_get (txt "testCases") o with
      | Some (JArr l) => l
      | _ => []
      end
  | _ => []
  end.

Definition listing (v : json) : bool :=
  match v with
  | JObj o =>
      match dict_get (txt "testCases") o with
      | Some (JArr _) => true
      | _ => false
      end
  | _ => false
  end.

(** *** The client *)

(** [t.rstrip(c)] for a single character [c]. *)
Fixpoint lstrip_char (c : ascii) (t : text) : text :=
  match t with
  | a :: t' => if ascii_eqb a c then lstrip_char c t' else t
  | [] => []
  end.

Definition rstrip_char (c : ascii) (t : text) : text :=
  rev (lstrip_char c (rev t)).

(** [x or y] for an optional string [x]: [None] and the empty string are
    false. *)
Definition py_or (x : option text) (y : text) : text :=
  match x with
  | Some ((_ :: _) as s) => s
  | _ => y
  end.

Record client := mk_client { base_url : text; model : text }.

(** [OllamaClient.__init__]; [env_base_url] and [env_model] are the values
    of the environment variables [OLLAMA_BASE_URL] and [OLLAMA_MODEL], if
    they are set. *)
Definition OllamaClient_init (base_url_arg model_arg : option text)
    (env_base_url env_model : option text) : client :=
  let base_url := py_or base_url_arg
                    (default (txt "http://localhost:11434") env_base_url) in
  let model := py_or model_arg (default (txt "llama3.2") env_model) in
  {| base_url := rstrip_char "/" base_url; model := model |}.

(** The address [generate] posts to. *)
Definition generate_url (c : client) : text := base_url c ++ txt "/api/generate".

(** *** Loading the dataset *)

Section Load.
(** [str(v)] for a value [v] that is not a string, as an f-string
    formats it. *)
Variable py_str : json -> text.

(** The body of the loop over the listed ids: the parsed case file, or
    nothing when the file is missing or does not parse. *)
Definition load_case (d : gmap text file) (test_id : json) : option json :=
  match d !! case_path (str_of py_str test_id) with
  | Some (FJson test_case) => Some test_case
  | Some (FOther _) => None
  | None => None
  end.

(** [load_existing_dataset]; [None] when an exception leaves the function:
    [AttributeError] for an index that is no dictionary, [TypeError] for a
    [testCases] entry that cannot be iterated. *)
Definition load_existing_dataset (d : gmap text file) : option (list json) :=
  match d !! index_path with
  | Some (FJson index_data) =>
      match index_data with
      | JObj o =>
          let test_case_ids := default (JArr []) (dict_get (txt "testCases") o) in
          match iterate test_case_ids with
          | Some ids => Some (omap (load_case d) ids)
          | None => None
          end
      | _ => None
      end
  | Some (FOther _) => Some []
  | None => Some []
  end.
End Load.

(** *** The generation loop of [main] *)

(** What the service calls of one [generate_test_case] amount to: the
    prompt and the message history ([None] when it is not asked for or its
    generation failed), an exception out of the prompt generation, or a
    keyboard interrupt. *)
Inductive generated :=
| Generated (prompt : text) (messages : option (list message))
| Failed
| Interrupted.

(** [tc["id"]] in the set comprehension over the loaded cases; [None]
    when it raises: [KeyError] for a missing key, [TypeError] for a case
    that is no dictionary or an id that cannot be hashed. *)
Definition loaded_id (tc : json) : option json :=
  match tc with
  | JObj d =>
      match dict_get (txt "id") d with
      | Some (JArr _) => None
      | Some (JObj _) => None
      | Some v => Some v
      | None => None
      end
  | _ => None
  end.

(** The variables of the loop. *)
Record run := mk_run {
  run_world : world;
  new_test_cases : list test_case;
  existing_ids : list json
}.

Section Main.
Variable py_str : json -> text.
(** The outcome of the service calls for each case number. *)
Variable gen : Z -> generated.
Variables (model : text) (tokens : Z).

(** One iteration of the loop; the flag tells whether the loop goes on. *)
Definition main_step (i : Z) (st : run) : bool * run :=
  match gen i with
  | Interrupted => (false, st)
  | Failed => (true, st)
  | Generated prompt messages =>
      let test_case := generate_test_case model i tokens prompt messages in
      if existsb (is_id (tc_id test_case)) (existing_ids st) then (true, st)
      else
        match save_test_case test_case (run_world st) with
        | (Returned, w) =>
            (true, {| run_world := w;
                      new_test_cases := new_test_cases st ++ [test_case];
                      existing_ids := existing_ids st ++ [JStr (tc_id test_case)] |})
        | (Raised, w) =>
            (true, {| run_world := w;
                      new_test_cases := new_test_cases st;
                      existing_ids := existing_ids st |})
        end
  end.

Fixpoint main_loop (ids : list Z) (st : run) : run :=
  match ids with
  | [] => st
  | i :: ids' =>
      let '(go_on, st') := main_step i st in
      if go_on then main_loop ids' st' else st'
  end.

(** [range(start_id, start_id + count)] *)
Definition case_numbers (start_id count : Z) : list Z :=
  map (fun k => start_id + k) (MissingRef.range count).

(** [main] from the loading of the existing cases to the end of the
    generation loop, for [count] cases; [connected] tells whether the
    connection test succeeded (the program exits otherwise).  [None] when
    an exception leaves [main] before the loop.  The summary printed
    afterwards is not part of the model. *)
Definition main (connected : bool) (count : Z) (w : world) : option run :=
  match load_existing_dataset py_str (disk w) with
  | Some existing_cases =>
      match mapM loaded_id existing_cases with
      | Some ids =>
          let st := {| run_world := w; new_test_cases := []; existing_ids := ids |} in
          if connected then
            let start_id := len existing_cases + 1 in
            Some (main_loop (case_numbers start_id count) st)
          else Some st
      | None => None
      end
  | None => None
  end.
End Main.

(** *** Further vocabulary *)

(** The number a text of decimal digits denotes, leading zeros allowed,
    with an optional minus sign in front. *)
Definition unsigned_value (t : text) : Z :=
  match NilEmpty.uint_of_string (string_of_list_ascii t) with
  | Some d => Z.of_uint d
  | None => 0
  end.

Definition signed_value (t : text) : Z :=
  match t with
  | a :: t' => if ascii_eqb a "-" then - unsigned_value t' else unsigned_value t
  | [] => 0
  end.

(** A listed id names neither the index file nor the file of the case
    [id]. *)
Definition names_other_file (py_str : json -> text) (id : text) (v : json) : Prop :=
  str_of py_str v <> id /\ str_of py_str v <> txt "index".

(** A listed id with its case file: the id is a string other than
    [index], and its file holds a dictionary with that ['id']. *)
Definition stored_case (d : gmap text file) (v : json) : Prop :=
  exists id fields,
    v = JStr id /\ id <> txt "index"
    /\ d !! case_path id = Some (FJson (JObj fields))
    /\ dict_get (txt "id") fields = Some (JStr id).

(** The directory is as calls of [save_test_case] leave it. *)
Definition consistent (d : gmap text file) : Prop :=
  index_is_listing d = true /\ Forall (stored_case d) (index_ids d).

(** What holds of the variables of the loop after every iteration, for a
    run that started in the world [w0] with the cases [cases0] loaded. *)
Definition loop_invariant (py_str : json -> text) (w0 : world) (cases0 : list json)
    (st : run) : Prop :=
  consistent (disk (run_world st))
  /\ existing_ids st = index_ids (disk (run_world st))
  /\ index_ids (disk (run_world st))
     = index_ids (disk w0) ++ map (fun tc => JStr (tc_id tc)) (new_test_cases st)
  /\ load_existing_dataset py_str (disk (run_world st))
     = Some (cases0 ++ map (fun tc => JObj (tc_dict tc)) (new_test_cases st)).

(** The file-system operations open to the loop: creating the directory,
    writing the index, and writing the file of a generated case whose id
    is not among [ids0]. *)
Definition loop_event (gen : Z -> generated) (model : text) (tokens : Z)
    (ids0 : list json) (e : event) : Prop :=
  match e with
  | EMkdir => True
  | EWrite path f =>
      path = index_path
      \/ exists i prompt messages,
           gen i = Generated prompt messages
           /\ path = case_path (tc_id (generate_test_case model i tokens prompt messages))
           /\ f = FJson (JObj (tc_dict (generate_test_case model i tokens prompt messages)))
           /\ existsb (is_id (tc_id (generate_test_case model i tokens prompt messages)))
                ids0 = false
  end.

(** The case the loop builds for the case number [i], if its generation
    succeeds, and the id of that case. *)
Definition generated_case (gen : Z -> generated) (model : text) (tokens : Z)
    (i : Z) : option test_case :=
  match gen i with
  | Generated prompt messages =>
      Some (generate_test_case model i tokens prompt messages)
  | Failed => None
  | Interrupted => None
  end.

Definition generated_id (i : Z) : text := txt "ollama-gen-" ++ format_04d i.

(** What the loop has done to the directory of the world [w] in which it
    started with the ids [ids0] of the loaded cases: its operations are
    those open to it, and the files of the loaded cases are as they
    were. *)
Definition loop_frame (gen : Z -> generated) (model : text) (tokens : Z)
    (ids0 : list json) (w : world) (st : run) : Prop :=
  (exists added, existing_ids st = ids0 ++ added)
  /\ (exists events,
        trace (run_world st) = trace w ++ events
        /\ Forall (loop_event gen model tokens ids0) events)
  /\ (forall id, JStr id ∈ ids0 -> id <> txt "index" ->
        disk (run_world st) !! case_path id = disk w !! case_path id).

End Dataset.

(** ** generate_missing_reference_dataset.py: the files and the batch *)

Module Batch.
Import MissingRef.

(** [os.path.join(a, b)] on a POSIX system. *)
Definition path_join (a b : text) : text :=
  if startswith (txt "/") b then b
  else if match a with [] => true | _ :: _ => false end || endswith (txt "/") a
       then a ++ b
       else a ++ txt "/" ++ b.

(** [sector.replace('/', '_')] *)
Definition replace_slash (s : text) : text :=
  map (fun c => if ascii_eqb c "/" then "_"%char else c) s.

(** What is written to a file: a text, a JSON value, or the dictionary
    [expected_output] with its three entries. *)
Inductive content :=
| CText (t : text)
| CJson (v : json)
| CExpected (expected_issue_codes : json) (missing_references : list ref) (notes : json).

Inductive fs_event :=
| Makedirs (path : text)
| Write (path : text) (c : content).

(** The files by path, and the operations performed so far, oldest
    first. *)
Record fs := mk_fs {
  files : gmap text content;
  log : list fs_event
}.

Definition makedirs (path : text) (s : fs) : fs :=
  {| files := files s; log := log s ++ [Makedirs path] |}.

Definition write (path : text) (c : content) (s : fs) : fs :=
  {| files := <[path := c]> (files s); log := log s ++ [Write path c] |}.

Definition test_dir_of (outdir sector : text) (test_number : Z) : text :=
  let sector_dir := path_join outdir (replace_slash sector) in
  path_join sector_dir (txt "test_" ++ Dataset.format_04d test_number).

(** [write_test_case_files]: the directory of the case and the file system
    after the four files have been written. *)
Definition write_test_case_files (tc : test_case) (sector : text) (test_number : Z)
    (outdir : text) (s : fs) : text * fs :=
  let test_dir := test_dir_of outdir sector test_number in
  let s := makedirs test_dir s in
  let s := write (path_join test_dir (txt "prompt.txt")) (CText (tc_prompt tc)) s in
  let s := write (path_join test_dir (txt "history.json")) (CJson (tc_messages tc)) s in
  let s := write (path_join test_dir (txt "expected_output.json"))
             (CExpected (tc_expected_issue_codes tc) (tc_missing_references tc)
                        (tc_notes tc)) s in
  let annotated_prompt := annotate_prompt (tc_prompt tc) (tc_missing_references tc) in
  let s := write (path_join test_dir (txt "prompt_annotated.txt"))
             (CText annotated_prompt) s in
  (test_dir, s).

(** An element of the list [generate_dataset] returns: the test case with
    its ["sector"], ["test_number"] and ["test_dir"]. *)
Record entry := mk_entry {
  e_case : test_case;
  e_sector : text;
  e_test_number : Z;
  e_test_dir : text
}.

(** The variables of [generate_dataset], with the number of calls of
    [generate_test_case_with_llm] made so far. *)
Record batch := mk_batch {
  calls : nat;
  sector_test_numbers : list (text * Z);
  test_cases : list entry;
  store : fs
}.

Section Generate.
(** The replies of the service during the [k]-th call of
    [generate_test_case_with_llm]: to the generation request and to the
    two extension requests. *)
Variable replies : nat -> text * option text * option text.
Variable outdir : text.

Definition call (k : nat) (sector pattern_type : text) : outcome test_case :=
  let '(response, ext1, ext2) := replies k in
  generate_test_case_with_llm response ext1 ext2 sector pattern_type.

(** The branch taken for a generated case, after [n] further calls: the
    files are written, the case is appended and the test number of the
    sector is incremented.  A missing key would raise [KeyError]. *)
Definition record_case (n : nat) (tc : test_case) (sector : text) (st : batch)
    : outcome batch :=
  match dict_get sector (sector_test_numbers st) with
  | Some test_number =>
      let '(test_dir, s) :=
        write_test_case_files tc sector test_number outdir (store st) in
      Done {| calls := n + calls st;
              sector_test_numbers :=
                dict_set sector (test_number + 1) (sector_test_numbers st);
              test_cases :=
                test_cases st ++ [mk_entry tc sector test_number test_dir];
              store := s |}
  | None => Untyped
  end.

(** The body of the innermost loop: one call, and one more when the first
    gave nothing. *)
Definition attempt (st : batch) (a : text * text * Z) : outcome batch :=
  let '(sector, pattern_type, _) := a in
  match call (calls st) sector pattern_type with
  | Done tc => record_case 1 tc sector st
  | Nothing =>
      match call (S (calls st)) sector pattern_type with
      | Done tc => record_case 2 tc sector st
      | Nothing =>
          Done {| calls := 2 + calls st;
                  sector_test_numbers := sector_test_numbers st;
                  test_cases := test_cases st;
                  store := store st |}
      | Untyped => Untyped
      end
  | Untyped => Untyped
  end.

Fixpoint run_attempts (l : list (text * text * Z)) (st : batch) : outcome batch :=
  match l with
  | [] => Done st
  | a :: l' =>
      match attempt st a with
      | Done st' => run_attempts l' st'
      | Nothing => Nothing
      | Untyped => Untyped
      end
  end.

(** [{sector: 1 for sector in SECTORS}] *)
Definition initial_numbers (sectors : list text) : list (text * Z) :=
  fold_left (fun d sector => dict_set sector 1 d) sectors [].

(** [generate_dataset], started on the file system [s]: the three nested
    loops run through [generate_dataset_attempts] in order. *)
Definition generate_dataset (total_cases : Z) (s : fs) : outcome batch :=
  run_attempts (generate_dataset_attempts total_cases)
    {| calls := 0;
       sector_test_numbers := initial_numbers SECTORS;
       test_cases := [];
       store := s |}.
End Generate.

(** *** Vocabulary of the statements about the batch *)

(** The entries of one sector. *)
Definition of_sector (sector : text) (l : list entry) : list entry :=
  filter (fun e => e_sector e = sector) l.

(** What [os.path.join] puts between [a] and a relative path. *)
Definition separator (a : text) : text :=
  if match a with [] => true | _ :: _ => false end || endswith (txt "/") a
  then [] else txt "/".

(** The files of an entry, with what they hold. *)
Definition entry_files (e : entry) : list (text * content) :=
  let tc := e_case e in
  [ (path_join (e_test_dir e) (txt "prompt.txt"), CText (tc_prompt tc));
    (path_join (e_test_dir e) (txt "history.json"), CJson (tc_messages tc));
    (path_join (e_test_dir e) (txt "expected_output.json"),
     CExpected (tc_expected_issue_codes tc) (tc_missing_references tc) (tc_notes tc));
    (path_join (e_test_dir e) (txt "prompt_annotated.txt"),
     CText (annotate_prompt (tc_prompt tc) (tc_missing_references tc))) ].

(** The file-system operations for an entry. *)
Definition entry_events (e : entry) : list fs_event :=
  Makedirs (e_test_dir e) :: map (fun pc => Write (fst pc) (snd pc)) (entry_files e).

(** The numbering of the returned entries: every entry belongs to a
    sector of the table, its test number is one more than the number of
    earlier entries of its sector, and its directory is the one of its
    sector and number. *)
Definition numbered (outdir : text) (cases : list entry) : Prop :=
  forall i e, cases !! i = Some e ->
    e_sector e ∈ SECTORS
    /\ e_test_number e = 1 + len (of_sector (e_sector e) (take i cases))
    /\ e_test_dir e = test_dir_of outdir (e_sector e) (e_test_number e).

(** What holds of the variables of [generate_dataset] after [done]
    attempts, for a run started on the file system [s0]. *)
Definition batch_invariant (outdir : text) (s0 : fs) (done : Z) (st : batch) : Prop :=
  (forall s, s ∈ SECTORS ->
     dict_get s (sector_test_numbers st)
     = Some (1 + len (of_sector s (test_cases st))))
  /\ numbered outdir (test_cases st)
  /\ log (store st) = log s0 ++ flat_map entry_events (test_cases st)
  /\ files (store st)
     = foldl (fun m pc => <[fst pc := snd pc]> m) (files s0)
         (flat_map entry_files (test_cases st))
  /\ len (test_cases st) <= done <= Z.of_nat (calls st)
  /\ Z.of_nat (calls st) <= 2 * done.

(** Replies of a service that answers every second call, with the same
    case. *)
Definition sample_replies (k : nat) : text * option text * option text :=
  if Nat.even k then ([], None, None)
  else (json_text "Sure: {'messages': [], 'prompt': 'Fix the report.'} done",
        None, None).

End Batch.

Import MissingRef.

(** * Properties *)

(** ** Characters and texts *)

Lemma ascii_eqb_eq (a b : ascii) : ascii_eqb a b = true <-> a = b.
Proof. apply Ascii.eqb_eq. Qed.

Lemma text_eqb_eq (s t : text) : text_eqb s t = true <-> s = t.
Proof.
  revert t; induction s as [|a s IH]; intros [|b t]; simpl; try (split; congruence).
  rewrite andb_true_iff, ascii_eqb_eq, IH. split.
  - intros [-> ->]; reflexivity.
  - intros [= -> ->]; auto.
Qed.

Lemma text_eqb_refl (s : text) : text_eqb s s = true.
Proof. apply text_eqb_eq; reflexivity. Qed.

Lemma text_eqb_neq (s t : text) : text_eqb s t = false <-> s <> t.
Proof.
  rewrite <- text_eqb_eq. destruct (text_eqb s t); split; congruence.
Qed.

Lemma startswith_app (p t : text) : startswith p (p ++ t) = true.
Proof.
  induction p as [|a p IH]; simpl; [reflexivity|].
  rewrite IH, andb_true_r. apply ascii_eqb_eq; reflexivity.
Qed.

Lemma startswith_prefix (p t : text) :
  startswith p t = true <-> exists r, t = p ++ r.
Proof.
  split.
  - revert t; induction p as [|a p IH]; intros t H; simpl in *.
    + exists t; reflexivity.
    + destruct t as [|b t]; [discriminate|].
      apply andb_true_iff in H as [Hab H].
      apply ascii_eqb_eq in Hab as ->.
      destruct (IH _ H) as [r ->]. exists r; reflexivity.
  - intros [r ->]. apply startswith_app.
Qed.

Lemma len_app {A} (s t : list A) : len (s ++ t) = len s + len t.
Proof. unfold len. rewrite length_app. lia. Qed.

Lemma len_nonneg {A} (s : list A) : 0 <= len s.
Proof. unfold len. lia. Qed.

Lemma len_cons {A} (a : A) (s : list A) : len (a :: s) = 1 + len s.
Proof. unfold len. simpl length. lia. Qed.

(** [find] returns [-1] or the offset of an occurrence, the leftmost one. *)
Lemma find_from_unfold (sub t : text) (i : Z) :
  find_from sub t i =
  if startswith sub t then i
  else match t with [] => -1 | _ :: t' => find_from sub t' (i + 1) end.
Proof. destruct t; reflexivity. Qed.

Lemma find_from_spec (sub t : text) (i : Z) :
  0 <= i ->
  (find_from sub t i = -1 /\ forall pre post, t <> pre ++ sub ++ post)
  \/ (exists pre post, t = pre ++ sub ++ post
        /\ find_from sub t i = i + len pre
        /\ forall pre' post', t = pre' ++ sub ++ post' -> len pre <= len pre').
Proof.
  revert i; induction t as [|a t IH]; intros i Hi;
    rewrite find_from_unfold; destruct (startswith sub _) eqn:Hs.
  - right. apply startswith_prefix in Hs as [r Hr].
    exists [], r. repeat split; auto.
    + rewrite Z.add_0_r; reflexivity.
    + intros; apply len_nonneg.
  - left. split; [reflexivity|]. intros pre post H.
    destruct pre; [|discriminate]. simpl in H.
    rewrite H, startswith_app in Hs. discriminate.
  - right. apply startswith_prefix in Hs as [r Hr].
    exists [], r. repeat split; auto.
    + rewrite Z.add_0_r; reflexivity.
    + intros; apply len_nonneg.
  - destruct (IH (i + 1) ltac:(lia)) as [[H Hno] | (pre & post & -> & Hf & Hmin)].
    + left. split; [exact H|]. intros pre post Heq.
      destruct pre as [|p pre].
      * simpl in Heq. rewrite Heq, startswith_app in Hs. discriminate.
      * injection Heq as -> ->. eapply Hno. reflexivity.
    + right. exists (a :: pre), post. repeat split.
      * rewrite Hf, len_cons. lia.
      * intros pre' post' Heq. destruct pre' as [|p pre'].
        -- simpl in Heq. rewrite Heq, startswith_app in Hs. discriminate.
        -- injection Heq as -> Heq. rewrite !len_cons.
           specialize (Hmin _ _ Heq). lia.
Qed.

Lemma find_occurrence (sub t : text) :
  find sub t <> -1 ->
  exists pre post, t = pre ++ sub ++ post /\ find sub t = len pre.
Proof.
  intros H. destruct (find_from_spec sub t 0 ltac:(lia))
    as [[H' _] | (pre & post & Ht & Hf & _)].
  - contradiction.
  - exists pre, post. split; auto.
Qed.

Lemma find_lower_bound (sub t : text) : -1 <= find sub t.
Proof.
  unfold find. destruct (find_from_spec sub t 0 ltac:(lia))
    as [[H' _] | (pre & post & Ht & Hf & _)]; [lia|].
  rewrite Hf. pose proof (len_nonneg pre). lia.
Qed.

Lemma contains_occurrence (sub t : text) :
  contains sub t = true <-> exists pre post, t = pre ++ sub ++ post.
Proof.
  unfold contains. split.
  - intros H. apply Z.leb_le in H.
    destruct (find_occurrence sub t) as (pre & post & Ht & _); [lia|eauto].
  - intros (pre & post & Ht). apply Z.leb_le. unfold find.
    destruct (find_from_spec sub t 0 ltac:(lia))
      as [[_ Hno] | (pre' & post' & _ & Hf & _)].
    + exfalso. eapply Hno; eauto.
    + rewrite Hf. pose proof (len_nonneg pre'). lia.
Qed.

(** Slices of a text cut at a known offset. *)
Lemma norm_index_in_range (n i : Z) : 0 <= i <= n -> norm_index n i = Z.to_nat i.
Proof.
  intros H. unfold norm_index.
  destruct (i <? 0) eqn:E; [apply Z.ltb_lt in E; lia|].
  f_equal. lia.
Qed.

Lemma slice_to_app {A} (s t : list A) : slice_to (s ++ t) (len s) = s.
Proof.
  unfold slice_to. rewrite norm_index_in_range.
  - unfold len. rewrite Nat2Z.id. apply take_app_length.
  - rewrite len_app. pose proof (len_nonneg s). pose proof (len_nonneg t). lia.
Qed.

Lemma slice_from_app {A} (s t : list A) : slice_from (s ++ t) (len s) = t.
Proof.
  unfold slice_from. rewrite norm_index_in_range.
  - unfold len. rewrite Nat2Z.id. apply drop_app_length.
  - rewrite len_app. pose proof (len_nonneg s). pose proof (len_nonneg t). lia.
Qed.

Lemma slice_middle {A} (pre s post : list A) :
  slice (pre ++ s ++ post) (len pre) (len pre + len s) = s.
Proof.
  unfold slice.
  pose proof (len_nonneg pre). pose proof (len_nonneg s). pose proof (len_nonneg post).
  rewrite !norm_index_in_range by (rewrite !len_app; lia).
  unfold len. rewrite <- Nat2Z.inj_add, !Nat2Z.id.
  rewrite drop_app_length.
  replace (length pre + length s - length pre)%nat with (length s) by lia.
  apply take_app_length.
Qed.

(** ** The stable sort *)

Section SortedFacts.
Context {A : Type} (key : A -> Z).

Lemma insert_sorted_perm (reverse : bool) (x : A) (l : list A) :
  Permutation (insert_sorted key reverse x l) (x :: l).
Proof.
  induction l as [|y l IH]; simpl; [reflexivity|].
  destruct (before key reverse x y); [reflexivity|].
  rewrite IH. apply perm_swap.
Qed.

Lemma sorted_perm (reverse : bool) (l : list A) :
  Permutation (sorted key reverse l) l.
Proof.
  induction l as [|x l IH]; simpl; [reflexivity|].
  rewrite insert_sorted_perm, IH. reflexivity.
Qed.

Lemma insert_sorted_ascending (x : A) (l : list A) :
  StronglySorted (key_le key) l ->
  StronglySorted (key_le key) (insert_sorted key false x l).
Proof.
  induction 1 as [|y l Hl IH Hy]; simpl.
  - repeat constructor.
  - unfold before. destruct (key x <=? key y) eqn:E.
    + apply Z.leb_le in E. constructor; [constructor; assumption|].
      constructor; [exact E|].
      eapply Forall_impl; [exact Hy|]. unfold key_le; intros; lia.
    + apply Z.leb_gt in E. constructor; [exact IH|].
      rewrite insert_sorted_perm. constructor; [unfold key_le; lia|exact Hy].
Qed.

Lemma sorted_ascending (l : list A) :
  StronglySorted (key_le key) (sorted key false l).
Proof.
  induction l as [|x l IH]; simpl; [constructor|].
  apply insert_sorted_ascending, IH.
Qed.

(** Stability: elements that share a key keep their relative order. *)
Lemma filter_insert_sorted (P : A -> Prop) `{!forall x, Decision (P x)}
    (k : Z) (x : A) (l : list A) :
  (forall y, P y -> key y = k) ->
  filter P (insert_sorted key false x l) = filter P (x :: l).
Proof.
  intros HP. induction l as [|y l IH]; simpl; [reflexivity|].
  unfold before. destruct (key x <=? key y) eqn:E; [reflexivity|].
  apply Z.leb_gt in E.
  rewrite (filter_cons P y), IH, !filter_cons.
  destruct (decide (P y)) as [Py|], (decide (P x)) as [Px|]; try reflexivity.
  apply HP in Py, Px. lia.
Qed.

Lemma filter_sorted (P : A -> Prop) `{!forall x, Decision (P x)}
    (k : Z) (l : list A) :
  (forall y, P y -> key y = k) ->
  filter P (sorted key false l) = filter P l.
Proof.
  intros HP. induction l as [|x l IH]; simpl; [reflexivity|].
  rewrite (filter_insert_sorted P k) by assumption.
  rewrite !filter_cons, IH. reflexivity.
Qed.

Lemma strongly_sorted_lookup (l : list A) (i j : nat) (a b : A) :
  StronglySorted (key_le key) l -> (i < j)%nat ->
  l !! i = Some a -> l !! j = Some b -> key a <= key b.
Proof.
  intros Hs. revert i j. induction Hs as [|x l Hl IH Hx]; intros i j Hij Ha Hb.
  - discriminate.
  - destruct j as [|j]; [lia|]. simpl in Hb.
    destruct i as [|i]; simpl in Ha.
    + injection Ha as ->. rewrite Forall_forall in Hx.
      apply Hx. apply list_elem_of_lookup; eauto.
    + apply (IH i j); auto. lia.
Qed.
End SortedFacts.

Lemma filter_head_split {A} (P : A -> Prop) `{!forall x, Decision (P x)}
    (l : list A) (r : A) (rest : list A) :
  filter P l = r :: rest ->
  exists l1 l2, l = l1 ++ r :: l2 /\ Forall (fun x => ~ P x) l1.
Proof.
  induction l as [|x l IH]; [discriminate|].
  rewrite filter_cons. destruct (decide (P x)) as [Px|Px].
  - intros [= -> _]. exists [], l. split; [reflexivity|constructor].
  - intros Hf. destruct (IH Hf) as (l1 & l2 & -> & Hl1).
    exists (x :: l1), l2. split; [reflexivity|constructor; assumption].
Qed.

Lemma filter_split_head {A} (P : A -> Prop) `{!forall x, Decision (P x)}
    (l1 l2 : list A) (r : A) :
  Forall (fun x => ~ P x) l1 -> P r ->
  filter P (l1 ++ r :: l2) = r :: filter P l2.
Proof.
  intros Hl1 Pr. induction Hl1 as [|x l1 Hx _ IH]; simpl.
  - rewrite filter_cons. destruct (decide (P r)); [reflexivity|contradiction].
  - rewrite filter_cons. destruct (decide (P x)); [contradiction|exact IH].
Qed.

(** ** The de-duplication loop *)


Lemma unique_from_sublist (seen : gset (Z * Z)) (l : list ref) :
  sublist (unique_from seen l) l.
Proof.
  revert seen; induction l as [|r l IH]; intros seen; simpl; [constructor|].
  destruct (decide _); [apply sublist_cons|apply sublist_skip]; apply IH.
Qed.

Lemma fresh_after_insert (k k' : Z * Z) (seen : gset (Z * Z)) :
  k ∉ {[k']} ∪ seen -> k <> k' /\ k ∉ seen.
Proof.
  intros H. apply not_elem_of_union in H as [H1 H2].
  apply not_elem_of_singleton in H1. auto.
Qed.

Lemma unique_from_keys (seen : gset (Z * Z)) (l : list ref) :
  NoDup (map ref_key (unique_from seen l))
  /\ forall r, r ∈ unique_from seen l -> ref_key r ∉ seen.
Proof.
  revert seen; induction l as [|x l IH]; intros seen; simpl.
  - split; [constructor|]. intros r Hr. inversion Hr.
  - destruct (decide _) as [Hin|Hnot]; [apply IH|].
    destruct (IH ({[ref_key x]} ∪ seen)) as [Hnd Hfresh]. split.
    + simpl. constructor; [|exact Hnd].
      intros Hx. apply list_elem_of_fmap in Hx as (r & Hk & Hr).
      apply Hfresh, fresh_after_insert in Hr as [Hne _]. congruence.
    + intros r Hr. apply elem_of_cons in Hr as [->|Hr]; [exact Hnot|].
      apply Hfresh, fresh_after_insert in Hr as [_ Hr]. exact Hr.
Qed.

Lemma unique_from_complete (seen : gset (Z * Z)) (l : list ref) (r : ref) :
  r ∈ l -> ref_key r ∉ seen ->
  exists r', r' ∈ unique_from seen l /\ ref_key r' = ref_key r.
Proof.
  revert seen; induction l as [|x l IH]; intros seen Hr Hk; [inversion Hr|].
  simpl. apply elem_of_cons in Hr as [->|Hr].
  - destruct (decide _); [contradiction|]. exists x. split; [left|reflexivity].
  - destruct (decide (ref_key x ∈ seen)) as [Hin|Hnot]; [apply IH; assumption|].
    destruct (decide (ref_key r = ref_key x)) as [E|E].
    + exists x. split; [left|congruence].
    + destruct (IH ({[ref_key x]} ∪ seen) Hr) as (r' & Hr' & Hk').
      * apply not_elem_of_union. split; [|exact Hk].
        apply not_elem_of_singleton. exact E.
      * exists r'. split; [right; exact Hr'|exact Hk'].
Qed.

Lemma unique_from_first (seen : gset (Z * Z)) (l : list ref) (r : ref) :
  r ∈ unique_from seen l ->
  exists l1 l2, l = l1 ++ r :: l2 /\ Forall (fun x => ref_key x <> ref_key r) l1.
Proof.
  revert seen; induction l as [|x l IH]; intros seen Hr; [inversion Hr|].
  simpl in Hr. destruct (decide (ref_key x ∈ seen)) as [Hin|Hnot].
  - pose proof (proj2 (unique_from_keys seen l) r Hr) as Hfresh.
    destruct (IH _ Hr) as (l1 & l2 & -> & Hl1).
    exists (x :: l1), l2. split; [reflexivity|].
    constructor; [|exact Hl1]. intros E. rewrite E in Hin. contradiction.
  - apply elem_of_cons in Hr as [->|Hr].
    + exists [], l. split; [reflexivity|constructor].
    + pose proof (proj2 (unique_from_keys _ l) r Hr) as Hfresh.
      apply fresh_after_insert in Hfresh as [Hne _].
      destruct (IH _ Hr) as (l1 & l2 & -> & Hl1).
      exists (x :: l1), l2. split; [reflexivity|].
      constructor; [congruence|exact Hl1].
Qed.

(** ** The matcher *)

Lemma rep_unfold (i : item) (min : nat) (pw : bool) (pos : nat) (rest : text)
    (k : cont) :
  rep i min pw pos rest k =
  match rest with
  | a :: rest' =>
      if item_match i a then
        match rep i (pred min) (is_word a) (S pos) rest' k with
        | Some e => Some e
        | None => if (min =? 0)%nat then k pw pos rest else None
        end
      else if (min =? 0)%nat then k pw pos rest else None
  | [] => if (min =? 0)%nat then k pw pos rest else None
  end.
Proof. destruct rest; reflexivity. Qed.

Lemma rep_bounds (i : item) (min : nat) (pw : bool) (pos : nat) (rest : text)
    (k : cont) (e : nat) :
  rep i min pw pos rest k = Some e -> reaches k pos rest min e.
Proof.
  revert min pw pos; induction rest as [|a rest IH]; intros min pw pos;
    rewrite rep_unfold.
  - destruct (min =? 0)%nat eqn:E; [|discriminate].
    apply Nat.eqb_eq in E as ->. intros H. exists pw, pos, []. repeat split; auto; lia.
  - assert (Hstop : (if (min =? 0)%nat then k pw pos (a :: rest) else None) = Some e ->
                    reaches k pos (a :: rest) min e).
    { destruct (min =? 0)%nat eqn:E; [|discriminate].
      apply Nat.eqb_eq in E as ->. intros H.
      exists pw, pos, (a :: rest). repeat split; auto; lia. }
    destruct (item_match i a); [|exact Hstop].
    destruct (rep i (pred min) (is_word a) (S pos) rest k) eqn:E; [|exact Hstop].
    intros [= ->]. apply IH in E as (pw' & pos' & rest' & Hk & Hp & Hl).
    exists pw', pos', rest'. repeat split; auto; simpl; lia.
Qed.

Lemma rmatch_bounds (r : regex) (pw : bool) (pos : nat) (rest : text)
    (k : cont) (e : nat) :
  rmatch r pw pos rest k = Some e -> reaches k pos rest (minlen r) e.
Proof.
  revert pw pos rest k; induction r as [| i | i min | | r1 IH1 r2 IH2 | r1 IH1 r2 IH2];
    intros pw pos rest k; simpl.
  - intros H. exists pw, pos, rest. repeat split; auto; lia.
  - destruct rest as [|a rest]; [discriminate|].
    destruct (item_match i a); [|discriminate].
    intros H. exists (is_word a), (S pos), rest. repeat split; auto; simpl; lia.
  - apply rep_bounds.
  - destruct (xorb _ _); [|discriminate].
    intros H. exists pw, pos, rest. repeat split; auto; lia.
  - intros H. apply IH1 in H as (pw1 & pos1 & rest1 & H & Hp1 & Hl1).
    apply IH2 in H as (pw2 & pos2 & rest2 & H & Hp2 & Hl2).
    exists pw2, pos2, rest2. repeat split; auto; lia.
  - destruct (rmatch r1 pw pos rest k) eqn:E.
    + intros [= ->]. apply IH1 in E as (pw' & pos' & rest' & H & Hp & Hl).
      exists pw', pos', rest'. repeat split; auto; lia.
    + intros H. apply IH2 in H as (pw' & pos' & rest' & H & Hp & Hl).
      exists pw', pos', rest'. repeat split; auto; lia.
Qed.

Lemma match_at_bounds (r : regex) (pw : bool) (pos : nat) (rest : text) (e : nat) :
  match_at r pw pos rest = Some e ->
  (pos + minlen r <= e /\ e <= pos + length rest)%nat.
Proof.
  intros H. apply rmatch_bounds in H as (pw' & pos' & rest' & [= ->] & Hp & Hl). lia.
Qed.

Lemma finditer_from_bounds (r : regex) (pos skip : nat) (pw : bool) (rest : text)
    (m : nat * nat) :
  m ∈ finditer_from r pos skip pw rest ->
  (pos <= fst m /\ fst m + minlen r <= snd m /\ snd m <= pos + length rest)%nat.
Proof.
  revert pos skip pw; induction rest as [|a rest IH]; intros pos skip pw.
  - destruct skip; simpl; [|intros H; inversion H].
    destruct (match_at r pw pos []) eqn:E; [|intros H; inversion H].
    intros H. apply list_elem_of_singleton in H as ->.
    apply match_at_bounds in E. simpl in *. lia.
  - destruct skip; simpl.
    + destruct (match_at r pw pos (a :: rest)) eqn:E.
      * intros H. apply elem_of_cons in H as [->|H].
        -- apply match_at_bounds in E. simpl in *. lia.
        -- apply IH in H. simpl. lia.
      * intros H. apply IH in H. simpl. lia.
    + intros H. apply IH in H. simpl. lia.
Qed.

Lemma finditer_bounds (r : regex) (subject : text) (m : nat * nat) :
  m ∈ finditer r subject ->
  (fst m + minlen r <= snd m /\ snd m <= length subject)%nat.
Proof.
  intros H. apply finditer_from_bounds in H. lia.
Qed.

(** *** Case *)

Lemma lower_char_idemp (a : ascii) : lower_char (lower_char a) = lower_char a.
Proof. destruct a as [[|] [|] [|] [|] [|] [|] [|] [|]]; reflexivity. Qed.

Lemma is_word_lower (a : ascii) : is_word (lower_char a) = is_word a.
Proof. destruct a as [[|] [|] [|] [|] [|] [|] [|] [|]]; reflexivity. Qed.

Lemma is_space_lower (a : ascii) : is_space (lower_char a) = is_space a.
Proof. destruct a as [[|] [|] [|] [|] [|] [|] [|] [|]]; reflexivity. Qed.

Lemma item_match_lower (i : item) (a : ascii) :
  item_match i (lower_char a) = item_match i a.
Proof.
  destruct i; simpl.
  - rewrite lower_char_idemp; reflexivity.
  - apply is_space_lower.
  - rewrite lower_char_idemp; reflexivity.
Qed.

Lemma next_is_word_lower (rest : text) :
  next_is_word (lower rest) = next_is_word rest.
Proof. destruct rest; simpl; [reflexivity|apply is_word_lower]. Qed.

Lemma rep_lower (i : item) (min : nat) (pw : bool) (pos : nat) (rest : text)
    (k' k : cont) :
  same_up_to_case k' k ->
  rep i min pw pos (lower rest) k' = rep i min pw pos rest k.
Proof.
  intros Hk. revert min pw pos; induction rest as [|a rest IH]; intros min pw pos.
  - pose proof (Hk pw pos []) as E. simpl in *. rewrite E. reflexivity.
  - pose proof (Hk pw pos (a :: rest)) as E.
    change (lower (a :: rest)) with (lower_char a :: lower rest) in *.
    cbn [rep]. rewrite item_match_lower, is_word_lower, IH, E. reflexivity.
Qed.

Lemma rmatch_lower (r : regex) (pw : bool) (pos : nat) (rest : text) (k' k : cont) :
  same_up_to_case k' k ->
  rmatch r pw pos (lower rest) k' = rmatch r pw pos rest k.
Proof.
  revert pw pos rest k' k;
    induction r as [| i | i min | | r1 IH1 r2 IH2 | r1 IH1 r2 IH2];
    intros pw pos rest k' k Hk; simpl.
  - apply Hk.
  - destruct rest as [|a rest]; simpl; [reflexivity|].
    rewrite item_match_lower, is_word_lower, Hk. reflexivity.
  - apply rep_lower, Hk.
  - rewrite next_is_word_lower, Hk. reflexivity.
  - apply IH1. intros pw' pos' rest'. apply IH2, Hk.
  - rewrite (IH1 _ _ _ _ _ Hk), (IH2 _ _ _ _ _ Hk). reflexivity.
Qed.

Lemma match_at_lower (r : regex) (pw : bool) (pos : nat) (rest : text) :
  match_at r pw pos (lower rest) = match_at r pw pos rest.
Proof. apply rmatch_lower. intros ? ? ?; reflexivity. Qed.

Lemma finditer_from_lower (r : regex) (pos skip : nat) (pw : bool) (rest : text) :
  finditer_from r pos skip pw (lower rest) = finditer_from r pos skip pw rest.
Proof.
  revert pos skip pw; induction rest as [|a rest IH]; intros pos skip pw.
  - reflexivity.
  - change (lower (a :: rest)) with (lower_char a :: lower rest).
    destruct skip; simpl.
    + change (lower_char a :: lower rest) with (lower (a :: rest)).
      rewrite match_at_lower, is_word_lower.
      destruct (match_at r pw pos (a :: rest)); rewrite IH; reflexivity.
    + rewrite is_word_lower, IH. reflexivity.
Qed.

Lemma finditer_lower (r : regex) (subject : text) :
  finditer r (lower subject) = finditer r subject.
Proof. apply finditer_from_lower. Qed.

(** ** The span detector *)

Lemma strongly_sorted_sublist {A} (R : A -> A -> Prop) (l1 l2 : list A) :
  sublist l1 l2 -> StronglySorted R l2 -> StronglySorted R l1.
Proof.
  induction 1 as [|x l1 l2 Hs IH|x l1 l2 Hs IH]; intros H2.
  - constructor.
  - apply StronglySorted_cons in H2 as [Hx H2].
    apply StronglySorted_cons. split; [|auto].
    rewrite Forall_forall in *. intros y Hy. apply Hx.
    eapply elem_of_sublist; eauto.
  - apply StronglySorted_cons in H2 as [_ H2]. auto.
Qed.

Lemma references_elem (prompt : text) (r : ref) :
  r ∈ references prompt <->
  exists p ty m, (p, ty) ∈ REFERENCE_PATTERNS /\ m ∈ finditer p prompt
                 /\ r = match_ref prompt ty m.
Proof.
  unfold references. rewrite list_elem_of_In, in_flat_map. split.
  - intros ([p ty] & Hp & Hr). simpl in Hr.
    apply list_elem_of_In, list_elem_of_fmap in Hr as (m & -> & Hm).
    exists p, ty, m. rewrite list_elem_of_In. auto.
  - intros (p & ty & m & Hp & Hm & ->). exists (p, ty).
    rewrite <- !list_elem_of_In. split; [exact Hp|].
    simpl. apply list_elem_of_fmap. eauto.
Qed.

(** Every pattern of the table consumes at least one character. *)
Lemma reference_patterns_nonempty :
  Forall (fun pt : regex * text => (1 <= minlen (fst pt))%nat) REFERENCE_PATTERNS.
Proof. repeat constructor; vm_compute; lia. Qed.

Lemma match_ref_span (prompt ty : text) (p : regex) (m : nat * nat) :
  (p, ty) ∈ REFERENCE_PATTERNS -> m ∈ finditer p prompt ->
  0 <= Z.of_nat (fst m) < Z.of_nat (snd m) /\ Z.of_nat (snd m) <= len prompt.
Proof.
  intros Hp Hm. apply finditer_bounds in Hm.
  pose proof reference_patterns_nonempty as Hne. rewrite Forall_forall in Hne.
  specialize (Hne _ Hp). simpl in Hne. unfold len. lia.
Qed.

Section Related.
(** Two runs of the sort and of the de-duplication on lists that agree up
    to a relation preserving the positions stay in step. *)
Variable R : ref -> ref -> Prop.
Hypothesis R_start : forall x y, R x y -> get_start x = get_start y.
Hypothesis R_key : forall x y, R x y -> ref_key x = ref_key y.

Lemma insert_sorted_related (rev : bool) (x y : ref) (l l' : list ref) :
  R x y -> Forall2 R l l' ->
  Forall2 R (insert_sorted get_start rev x l) (insert_sorted get_start rev y l').
Proof.
  intros Hxy. induction 1 as [|a b l l' Hab Hl IH]; simpl.
  - repeat constructor; assumption.
  - unfold before. rewrite (R_start _ _ Hxy), (R_start _ _ Hab).
    destruct (if rev then _ else _); repeat constructor; assumption.
Qed.

Lemma sorted_related (rev : bool) (l l' : list ref) :
  Forall2 R l l' ->
  Forall2 R (sorted get_start rev l) (sorted get_start rev l').
Proof.
  induction 1; simpl; [constructor|]. apply insert_sorted_related; assumption.
Qed.

Lemma unique_from_related (seen : gset (Z * Z)) (l l' : list ref) :
  Forall2 R l l' -> Forall2 R (unique_from seen l) (unique_from seen l').
Proof.
  intros H. revert seen. induction H as [|a b l l' Hab Hl IH]; intros seen; simpl.
  - constructor.
  - rewrite (R_key _ _ Hab). destruct (decide _); [apply IH|].
    constructor; [assumption|apply IH].
Qed.
End Related.

Lemma references_related (T T' : text) :
  lower T' = lower T ->
  Forall2 (fun x y => erase x = erase y) (references T') (references T).
Proof.
  intros HT. unfold references.
  induction REFERENCE_PATTERNS as [|[p ty] ps IH]; simpl; [constructor|].
  apply Forall2_app; [|exact IH].
  rewrite <- (finditer_lower p T'), HT, finditer_lower.
  apply Forall2_fmap, Forall_Forall2_diag, Forall_forall. reflexivity.
Qed.

Lemma detect_case_insensitive (T T' : text) :
  lower T' = lower T ->
  map erase (detect_references_in_prompt T') = map erase (detect_references_in_prompt T).
Proof.
  intros HT. apply list_eq_Forall2, Forall2_fmap.
  unfold detect_references_in_prompt.
  apply unique_from_related; [intros x y [= ? ? ?]; unfold ref_key; congruence|].
  apply sorted_related; [intros x y [= ? ? ?]; assumption|].
  apply references_related, HT.
Qed.

Lemma detect_sublist (T : text) :
  sublist (detect_references_in_prompt T) (sorted get_start false (references T)).
Proof. apply unique_from_sublist. Qed.

Lemma detect_elem_references (T : text) (r : ref) :
  r ∈ detect_references_in_prompt T -> r ∈ references T.
Proof.
  intros H. eapply elem_of_sublist in H; [|apply detect_sublist].
  rewrite sorted_perm in H. exact H.
Qed.

Lemma detect_first (T : text) (r : ref) :
  r ∈ detect_references_in_prompt T ->
  exists l1 l2, references T = l1 ++ r :: l2
                /\ Forall (fun x => ref_key x <> ref_key r) l1.
Proof.
  intros H. apply unique_from_first in H as (s1 & s2 & Hs & Hs1).
  set (P := fun x : ref => ref_key x = ref_key r).
  assert (HP : forall y, P y -> get_start y = get_start r).
  { intros y Hy. unfold P, ref_key in Hy. congruence. }
  pose proof (filter_sorted get_start P (get_start r) (references T) HP) as Hf.
  rewrite Hs, (filter_split_head P s1 s2 r Hs1 eq_refl) in Hf.
  symmetry in Hf. apply filter_head_split in Hf as (l1 & l2 & Hl & Hl1).
  exists l1, l2. split; assumption.
Qed.

(** C5.  For every text [T] the span detector is a function of the text
    (two runs on the same text give the same list), it matches without
    regard to case (texts that agree up to case give the same positions and
    pattern types), its spans are sorted by ascending start, no two of them
    have the same [(start, end)] pair, each one is the first match with its
    pair in the order the pattern table is run (so the first pattern type
    is kept), every match of every rule is represented by a span with its
    positions (overlapping matches of different rules are all retained), and
    every span has [0 <= start < end <= len(T)] and [text == T[start:end]]. *)
Theorem detect_references_in_prompt_properties (T : text) :
  let out := detect_references_in_prompt T in
  (forall T', T' = T -> detect_references_in_prompt T' = out)
  /\ (forall T', lower T' = lower T ->
        map erase (detect_references_in_prompt T') = map erase out)
  /\ (forall i j a b, (i < j)%nat -> out !! i = Some a -> out !! j = Some b ->
        get_start a <= get_start b)
  /\ NoDup (map ref_key out)
  /\ (forall r, r ∈ out ->
        exists l1 l2, references T = l1 ++ r :: l2
                      /\ Forall (fun x => ref_key x <> ref_key r) l1)
  /\ (forall p ty m, (p, ty) ∈ REFERENCE_PATTERNS -> m ∈ finditer p T ->
        exists r, r ∈ out /\ ref_key r = (Z.of_nat (fst m), Z.of_nat (snd m)))
  /\ (forall r, r ∈ out ->
        exists s e ty,
          r = mk_ref (Some (slice T s e)) (Some s) (Some e) (Some ty)
          /\ 0 <= s < e /\ e <= len T).
Proof.
  intros out. repeat split.
  - intros T' ->. reflexivity.
  - intros T' HT. apply detect_case_insensitive, HT.
  - intros i j a b Hij Ha Hb.
    apply (strongly_sorted_lookup get_start out i j a b); auto.
    eapply strongly_sorted_sublist; [apply detect_sublist|apply sorted_ascending].
  - apply unique_from_keys.
  - intros r Hr. apply detect_first, Hr.
  - intros p ty m Hp Hm.
    assert (Hin : match_ref T ty m ∈ sorted get_start false (references T)).
    { rewrite sorted_perm. apply references_elem. exists p, ty, m. auto. }
    destruct (unique_from_complete ∅ _ _ Hin) as (r & Hr & Hk).
    { apply not_elem_of_empty. }
    exists r. split; [exact Hr|]. rewrite Hk. reflexivity.
  - intros r Hr. apply detect_elem_references, references_elem in Hr
      as (p & ty & m & Hp & Hm & ->).
    exists (Z.of_nat (fst m)), (Z.of_nat (snd m)), ty.
    destruct (match_ref_span T ty p m Hp Hm) as [? ?]. auto.
Qed.

(** The end-to-end example of the specification: the spans of two rules
    overlap and are all kept, and the second match of the pair [(38, 56)]
    (pattern type [forward_reference]) is collapsed into the first. *)
Example detect_example :
  map erase (detect_references_in_prompt
               (txt "Please review the report and continue the analysis below."))
  = [ (14, 24, Some (txt "definite_noun"));
      (29, 50, Some (txt "continue_reference"));
      (38, 50, Some (txt "definite_noun"));
      (38, 56, Some (txt "positional_reference")) ].
Proof. vm_compute. reflexivity. Qed.

(** ** The quota loop *)

Lemma zsum_app (l1 l2 : list Z) : zsum (l1 ++ l2) = zsum l1 + zsum l2.
Proof. induction l1; simpl; lia. Qed.

(** A total of [q] for everybody and one more for the indices below [r]. *)
Lemma zsum_balanced {A} (q r : Z) (l : list A) (k : nat) :
  zsum (imap (fun i _ => q + (if Z.of_nat (k + i) <? r then 1 else 0)) l)
  = q * len l + Z.max 0 (Z.min r (Z.of_nat k + len l) - Z.of_nat k).
Proof.
  revert k; induction l as [|x l IH]; intros k.
  - change (len (@nil A)) with 0. change (zsum _) with 0. lia.
  - rewrite imap_cons, len_cons. cbn [zsum fold_right].
    fold (zsum (imap ((fun i (_ : A) => q + (if Z.of_nat (k + i) <? r then 1 else 0)) ∘ S) l)).
    rewrite (imap_ext _ (fun i _ => q + (if Z.of_nat (S k + i) <? r then 1 else 0)))
      by (intros i y _; unfold compose; rewrite Nat.add_succ_r; reflexivity).
    rewrite IH. rewrite Nat.add_0_r. pose proof (len_nonneg l).
    destruct (Z.of_nat k <? r) eqn:E; [apply Z.ltb_lt in E|apply Z.ltb_ge in E]; lia.
Qed.

Lemma zsum_balanced_total {A} (n : Z) (l : list A) :
  0 < len l ->
  zsum (imap (fun i _ => n / len l + (if Z.of_nat i <? n mod len l then 1 else 0)) l)
  = n.
Proof.
  intros Hl. pose proof (zsum_balanced (n / len l) (n mod len l) l 0) as H.
  simpl in H. rewrite H.
  pose proof (Z.mod_pos_bound n (len l) Hl).
  pose proof (Z.div_mod n (len l) ltac:(lia)). lia.
Qed.

Section QuotaFacts.
Variables sectors patterns : list text.

Lemma pattern_counts_lookup (A : Z) (j : nat) (p : text) (c : Z) :
  pattern_counts patterns A !! j = Some (p, c) <->
  patterns !! j = Some p
  /\ c = A / len patterns + (if Z.of_nat j <? A mod len patterns then 1 else 0).
Proof.
  unfold pattern_counts, enumerate.
  rewrite list_lookup_fmap, list_lookup_imap.
  destruct (patterns !! j); simpl; split;
    try (intros [= <- <-]; auto); try (intros [[= ->] ->]; reflexivity);
    try (intros [[=] _]); try discriminate.
Qed.

Lemma quota_plan_lookup (T : Z) (i : nat) (s : text) (A : Z) (cs : list (text * Z)) :
  quota_plan sectors patterns T !! i = Some (s, A, cs) <->
  sectors !! i = Some s
  /\ A = T / len sectors + (if Z.of_nat i <? T mod len sectors then 1 else 0)
  /\ cs = pattern_counts patterns A.
Proof.
  unfold quota_plan, enumerate.
  rewrite list_lookup_fmap, list_lookup_imap.
  destruct (sectors !! i); simpl; split;
    try (intros [= <- <- <-]; auto); try (intros ([= ->] & -> & ->); reflexivity);
    try (intros ([=] & _)); try discriminate.
Qed.

Lemma pattern_counts_names (A : Z) : map fst (pattern_counts patterns A) = patterns.
Proof.
  unfold pattern_counts, enumerate. rewrite map_map.
  apply list_eq. intros j. rewrite list_lookup_fmap, list_lookup_imap.
  destruct (patterns !! j); reflexivity.
Qed.

Lemma quota_plan_names (T : Z) :
  map (fun x : text * Z * list (text * Z) => fst (fst x)) (quota_plan sectors patterns T)
  = sectors.
Proof.
  unfold quota_plan, enumerate. rewrite map_map.
  apply list_eq. intros j. rewrite list_lookup_fmap, list_lookup_imap.
  destruct (sectors !! j); reflexivity.
Qed.

Lemma pattern_counts_sum (A : Z) :
  0 < len patterns -> zsum (map snd (pattern_counts patterns A)) = A.
Proof.
  intros H. unfold pattern_counts, enumerate. rewrite map_map.
  etransitivity; [|apply (zsum_balanced_total A patterns H)]. f_equal.
  apply list_eq. intros j. rewrite list_lookup_fmap, !list_lookup_imap.
  destruct (patterns !! j); reflexivity.
Qed.

Lemma quota_plan_sum (T : Z) :
  0 < len sectors ->
  zsum (map (fun x : text * Z * list (text * Z) => snd (fst x))
            (quota_plan sectors patterns T)) = T.
Proof.
  intros H. unfold quota_plan, enumerate. rewrite map_map.
  etransitivity; [|apply (zsum_balanced_total T sectors H)]. f_equal.
  apply list_eq. intros j. rewrite list_lookup_fmap, !list_lookup_imap.
  destruct (sectors !! j); reflexivity.
Qed.
End QuotaFacts.

Lemma len_flat_map {A B} (f : A -> list B) (l : list A) :
  len (flat_map f l) = zsum (map (fun x => len (f x)) l).
Proof.
  induction l as [|x l IH]; [reflexivity|].
  simpl flat_map. rewrite len_app, IH. reflexivity.
Qed.

Lemma len_range (n : Z) : len (range n) = Z.max 0 n.
Proof. unfold len, range. rewrite length_map, length_seq. lia. Qed.

Lemma zsum_ext {A} (f g : A -> Z) (l : list A) :
  Forall (fun x => f x = g x) l -> zsum (map f l) = zsum (map g l).
Proof. induction 1 as [|x l Hx _ IH]; simpl; [reflexivity|]. rewrite Hx, IH. reflexivity. Qed.

(** The two levels of the partition stay within one of each other. *)
Lemma share_range (n d : Z) (i : nat) :
  0 < d ->
  n / d <= n / d + (if Z.of_nat i <? n mod d then 1 else 0) <= n / d + 1.
Proof. intros Hd. destruct (_ <? _); lia. Qed.

Lemma pair_count_range (q d A : Z) (j : nat) :
  0 < d -> A = q \/ A = q + 1 ->
  q / d <= A / d + (if Z.of_nat j <? A mod d then 1 else 0) <= q / d + 1.
Proof.
  intros Hd HA.
  pose proof (Z.mod_pos_bound q d Hd). pose proof (Z.div_mod q d ltac:(lia)).
  pose proof (Z.mod_pos_bound (q + 1) d Hd).
  pose proof (Z.div_mod (q + 1) d ltac:(lia)).
  assert (Hcase : (q + 1) / d = q / d /\ 0 < (q + 1) mod d
                  \/ (q + 1) / d = q / d + 1 /\ (q + 1) mod d = 0) by nia.
  destruct HA as [-> | ->].
  - destruct (_ <? _); lia.
  - destruct Hcase as [[-> ?] | [-> ->]].
    + destruct (_ <? _); lia.
    + destruct (Z.of_nat j <? 0) eqn:E; [apply Z.ltb_lt in E|]; lia.
Qed.

Section QuotaTotals.
Variables sectors patterns : list text.
Hypothesis sectors_nonempty : 0 < len sectors.
Hypothesis patterns_nonempty : 0 < len patterns.

Lemma pattern_counts_nonneg (A : Z) :
  0 <= A -> Forall (fun pc : text * Z => 0 <= snd pc) (pattern_counts patterns A).
Proof.
  intros HA. apply Forall_lookup. intros j [p c] Hj.
  apply pattern_counts_lookup in Hj as [_ ->]. simpl.
  pose proof (Z.div_pos A (len patterns) HA patterns_nonempty).
  destruct (_ <? _); lia.
Qed.

Lemma quota_plan_nonneg (T : Z) :
  0 <= T ->
  Forall (fun sp : text * Z * list (text * Z) => 0 <= snd (fst sp))
         (quota_plan sectors patterns T).
Proof.
  intros HT. apply Forall_lookup. intros i [[s A] cs] Hi.
  apply quota_plan_lookup in Hi as (_ & -> & _). simpl.
  pose proof (Z.div_pos T (len sectors) HT sectors_nonempty).
  destruct (_ <? _); lia.
Qed.

Lemma attempts_length (T : Z) :
  0 <= T -> len (attempts sectors patterns T) = T.
Proof.
  intros HT. unfold attempts. rewrite len_flat_map.
  rewrite <- (quota_plan_sum sectors patterns T sectors_nonempty) at 2.
  apply zsum_ext, Forall_lookup. intros i [[s A] cs] Hi.
  pose proof (quota_plan_nonneg T HT) as Hpos.
  rewrite Forall_lookup in Hpos. specialize (Hpos _ _ Hi). simpl in Hpos.
  apply quota_plan_lookup in Hi as (_ & _ & ->). simpl.
  rewrite len_flat_map.
  rewrite <- (pattern_counts_sum patterns A patterns_nonempty) at 2.
  apply zsum_ext. eapply Forall_impl; [apply pattern_counts_nonneg, Hpos|].
  intros [p c] Hc. simpl in *.
  unfold len. rewrite length_map. fold (len (range c)). rewrite len_range. lia.
Qed.
End QuotaTotals.

(** C4.  For every total [T >= 0] the three nested loops of
    [generate_dataset] attempt exactly [T] cases; the plan lists the 8
    sectors in order, sector [i] being allotted [T // 8], plus one exactly
    when [i < T mod 8]; within an allotment [A] the 5 pattern types are
    listed in order, type [j] getting [A // 5], plus one exactly when
    [j < A mod 5]; the allotments of a sector sum to [A] and the sector
    allotments to [T]; and neither two sector allotments nor two
    (sector, pattern type) allotments anywhere in the grid differ by more
    than one. *)
Theorem generate_dataset_quota (T : Z) :
  0 <= T ->
  let plan := generate_dataset_plan T in
  len (generate_dataset_attempts T) = T
  /\ map (fun sp : text * Z * list (text * Z) => fst (fst sp)) plan = SECTORS
  /\ zsum (map (fun sp : text * Z * list (text * Z) => snd (fst sp)) plan) = T
  /\ (forall i s A cs, plan !! i = Some (s, A, cs) ->
        A = T / 8 + (if Z.of_nat i <? T mod 8 then 1 else 0)
        /\ map fst cs = PATTERN_TYPES
        /\ zsum (map snd cs) = A
        /\ forall j p c, cs !! j = Some (p, c) ->
             c = A / 5 + (if Z.of_nat j <? A mod 5 then 1 else 0))
  /\ (forall i i' s s' A A' cs cs',
        plan !! i = Some (s, A, cs) -> plan !! i' = Some (s', A', cs') ->
        Z.abs (A - A') <= 1
        /\ forall j j' p p' c c',
             cs !! j = Some (p, c) -> cs' !! j' = Some (p', c') ->
             Z.abs (c - c') <= 1).
Proof.
  intros HT plan. unfold plan, generate_dataset_plan, generate_dataset_attempts.
  assert (HS : len SECTORS = 8) by reflexivity.
  assert (HC : len PATTERN_TYPES = 5) by reflexivity.
  split; [apply attempts_length; [rewrite HS|rewrite HC|]; lia|].
  split; [apply quota_plan_names|].
  split; [apply quota_plan_sum; rewrite HS; lia|].
  split.
  - intros i s A cs Hi. apply quota_plan_lookup in Hi as (_ & HA & ->).
    rewrite HS in HA. split; [exact HA|].
    split; [apply pattern_counts_names|].
    split; [apply pattern_counts_sum; rewrite HC; lia|].
    intros j p c Hj. apply pattern_counts_lookup in Hj as [_ Hc].
    rewrite HC in Hc. exact Hc.
  - intros i i' s s' A A' cs cs' Hi Hi'.
    apply quota_plan_lookup in Hi as (_ & HA & ->).
    apply quota_plan_lookup in Hi' as (_ & HA' & ->).
    rewrite HS in HA, HA'.
    pose proof (share_range T 8 i ltac:(lia)) as R. rewrite <- HA in R.
    pose proof (share_range T 8 i' ltac:(lia)) as R'. rewrite <- HA' in R'.
    split; [lia|].
    intros j j' p p' c c' Hj Hj'.
    apply pattern_counts_lookup in Hj as [_ Hc].
    apply pattern_counts_lookup in Hj' as [_ Hc'].
    rewrite HC in Hc, Hc'.
    pose proof (pair_count_range (T / 8) 5 A j ltac:(lia) ltac:(lia)) as Q.
    pose proof (pair_count_range (T / 8) 5 A' j' ltac:(lia) ltac:(lia)) as Q'.
    rewrite <- Hc in Q. rewrite <- Hc' in Q'. lia.
Qed.

(** Witness of C4: the default total of 300 cases. *)
Lemma generate_dataset_quota_witness :
  0 <= 300
  /\ len (generate_dataset_attempts 300) = 300
  /\ zsum (map (fun sp : text * Z * list (text * Z) => snd (fst sp))
               (generate_dataset_plan 300)) = 300.
Proof.
  split; [lia|].
  destruct (generate_dataset_quota 300 ltac:(lia)) as (H1 & _ & H3 & _).
  split; [exact H1|exact H3].
Defined.

(** ** The annotator *)

(** C1.  With two spans the annotator does not put the second marker after
    its span: for the prompt [the cat the dog] and the spans [(0, 7)] and
    [(8, 15)] the span with the higher start is handled first, at offset
    15; the marker of the span [(0, 7)] is then inserted at [7 + 19], the
    length of the first marker having been added to [offset] although that
    marker lies behind the span, and lands inside the first marker.  The
    contract asks for one marker immediately after each span. *)
Theorem annotate_prompt_second_marker_misplaced :
  let P := txt "the cat the dog" in
  let spans := [span P 0 7; span P 8 15] in
  annotate_prompt P spans
    = txt "the cat the dog[MISSING_RE[MISSING_REFERENCE]FERENCE]"
  /\ annotate_spec P spans
    = txt "the cat[MISSING_REFERENCE] the dog[MISSING_REFERENCE]"
  /\ annotate_prompt P spans <> annotate_spec P spans.
Proof. vm_compute. repeat split; congruence. Qed.

(** With a single span inside the prompt the marker is placed as the
    contract words it. *)
Lemma annotate_prompt_single (P : text) (r : ref) :
  0 <= get_start r -> 0 <= get_end r <= len P ->
  annotate_prompt P [r]
  = slice_to P (get_end r) ++ MARKER ++ slice_from P (get_end r).
Proof.
  intros Hs [He1 He2]. unfold annotate_prompt. simpl.
  destruct (0 <=? get_start r) eqn:E1; [|apply Z.leb_gt in E1; lia].
  destruct (get_end r <=? len P) eqn:E2; [|apply Z.leb_gt in E2; lia].
  simpl. rewrite Z.add_0_r. reflexivity.
Qed.

(** C6.  For the text [the cat the dog] the detector returns two spans, but
    the annotated text holds a single occurrence of the marker, the marker
    of the second insertion having been placed inside the first one, and
    deleting the marker from it does not give the text back. *)
Theorem annotate_detected_markers_nested :
  let T := txt "the cat the dog" in
  let S := detect_references_in_prompt T in
  map erase S = [ (0, 7, Some (txt "definite_noun"));
                  (8, 15, Some (txt "definite_noun")) ]
  /\ annotate_prompt T S
     = txt "the cat the dog[MISSING_RE[MISSING_REFERENCE]FERENCE]"
  /\ count MARKER (annotate_prompt T S) = 1%nat
  /\ length S = 2%nat
  /\ remove_all MARKER (annotate_prompt T S)
     = txt "the cat the dog[MISSING_REFERENCE]"
  /\ remove_all MARKER (annotate_prompt T S) <> T.
Proof. vm_compute. repeat split; congruence. Qed.

(** ** Length enforcement *)

Lemma len_lower (t : text) : len (lower t) = len t.
Proof. unfold len, lower. rewrite length_map. reflexivity. Qed.

Lemma len_fallback_extension (sector : text) :
  len (fallback_extension sector) = 523 + 2 * len sector.
Proof.
  unfold fallback_extension, len, lower.
  rewrite !length_app, !length_map.
  repeat match goal with
         | |- context [length (txt ?s)] =>
             let n := eval vm_compute in (length (txt s)) in
             change (length (txt s)) with n
         end.
  simpl length. lia.
Qed.

(** Counterexample to C3 as stated.  A 500-character prompt comes out of
    the length enforcer below 2000
    characters, both when the filler is appended (1033 characters) and when
    the service supplied a text just longer than the input (501
    characters); and after the two extension steps of the synthesis the
    prompt of the finished case has 1566 characters. *)
Lemma extend_prompt_below_minimum :
  let prompt := repeat "a"%char 500 in
  let sector := txt "Legal" in
  let pattern_type := txt "mixed" in
  len prompt = 500
  /\ len (extend_prompt_if_needed None prompt sector pattern_type) = 1033
  /\ len (extend_prompt_if_needed (Some (repeat "b"%char 501)) prompt sector
            pattern_type) = 501
  /\ len (tc_prompt (complete_test_case
                       (mk_raw (JArr []) prompt None None None)
                       None None sector pattern_type)) = 1566
  /\ 1566 < MIN_PROMPT_LENGTH.
Proof. vm_compute. repeat split; reflexivity. Qed.

(** C3 (amended).  A prompt of at least [MIN_PROMPT_LENGTH] characters is
    returned unchanged.  A shorter prompt becomes either the cleaned reply
    of the service, when that reply is strictly longer than the prompt, or
    the prompt followed by the filler paragraph, which adds
    [523 + 2 * len(sector)] characters; nothing makes the result reach
    [MIN_PROMPT_LENGTH]. *)
Theorem extend_prompt_if_needed_result (reply : option text)
    (prompt sector pattern_type : text) :
  let result := extend_prompt_if_needed reply prompt sector pattern_type in
  (MIN_PROMPT_LENGTH <= len prompt -> result = prompt)
  /\ (len prompt < MIN_PROMPT_LENGTH ->
        (exists extended,
            reply = Some extended /\ len prompt < len extended
            /\ result = clean_extension extended)
        \/ ((reply = None
             \/ exists extended, reply = Some extended /\ len extended <= len prompt)
            /\ result = prompt ++ fallback_extension sector
            /\ len result = len prompt + 523 + 2 * len sector)).
Proof.
  intros result. unfold result, extend_prompt_if_needed. split.
  - intros H. apply Z.leb_le in H. rewrite H. reflexivity.
  - intros H. destruct (MIN_PROMPT_LENGTH <=? len prompt) eqn:E;
      [apply Z.leb_le in E; lia|].
    assert (Hfill : len (prompt ++ fallback_extension sector)
                    = len prompt + 523 + 2 * len sector).
    { rewrite len_app, len_fallback_extension. lia. }
    destruct reply as [[|a extended]|].
    + right. split; [right; exists []; split; [reflexivity|apply len_nonneg]|].
      split; [reflexivity|exact Hfill].
    + destruct (len prompt <? len (a :: extended)) eqn:L.
      * apply Z.ltb_lt in L. left. exists (a :: extended). auto.
      * apply Z.ltb_ge in L. right.
        split; [right; exists (a :: extended); auto|].
        split; [reflexivity|exact Hfill].
    + right. split; [left; reflexivity|]. split; [reflexivity|exact Hfill].
Qed.

(** Witness of C3 (amended): a prompt of 500 characters, the service call
    having raised. *)
Lemma extend_prompt_if_needed_result_witness :
  len (repeat "a"%char 500) < MIN_PROMPT_LENGTH
  /\ len (extend_prompt_if_needed None (repeat "a"%char 500) (txt "Legal") (txt "mixed"))
     = 1033.
Proof.
  assert (H : len (repeat "a"%char 500) < MIN_PROMPT_LENGTH) by (vm_compute; reflexivity).
  split; [exact H|].
  destruct (extend_prompt_if_needed_result None (repeat "a"%char 500)
              (txt "Legal") (txt "mixed")) as [_ Hshort].
  destruct (Hshort H) as [(extended & Hr & _) | (_ & _ & Hlen)].
  - discriminate Hr.
  - rewrite Hlen. vm_compute. reflexivity.
Defined.

(** ** Synthesis of one test case *)

Lemma generate_done (response : text) (ext1 ext2 : option text)
    (sector pattern_type : text) (tc : test_case) :
  generate_test_case_with_llm response ext1 ext2 sector pattern_type = Done tc ->
  exists v raw,
    loads (slice response (find (txt "{") response) (rfind (txt "}") response + 1))
      = Some v
    /\ decode_case v = Done raw
    /\ tc = complete_test_case raw ext1 ext2 sector pattern_type.
Proof.
  unfold generate_test_case_with_llm. destruct response as [|a response]; [discriminate|].
  destruct (_ || _); [discriminate|].
  destruct (loads _) as [v|]; [|discriminate].
  destruct (decode_case v) as [raw| |] eqn:E; try discriminate.
  intros [= <-]. exists v, raw. auto.
Qed.

Lemma norm_index_nonneg (n i : Z) :
  0 <= i -> norm_index n i = Z.to_nat (Z.min i n).
Proof.
  intros Hi. unfold norm_index.
  destruct (i <? 0) eqn:E; [apply Z.ltb_lt in E; lia|reflexivity].
Qed.

Lemma slice_app_l {A} (P suffix : list A) (s e : Z) :
  0 <= s -> 0 <= e <= len P -> slice (P ++ suffix) s e = slice P s e.
Proof.
  intros Hs He. unfold slice. rewrite len_app.
  pose proof (len_nonneg suffix) as Hsuf.
  rewrite !norm_index_nonneg by lia.
  replace (Z.min e (len P + len suffix)) with e by lia.
  replace (Z.min e (len P)) with e by lia.
  assert (Hb : (Z.to_nat e <= length P)%nat) by (unfold len in He; lia).
  destruct (Z_le_gt_dec s (len P)) as [Hle|Hgt].
  - replace (Z.min s (len P + len suffix)) with s by lia.
    replace (Z.min s (len P)) with s by lia.
    assert (Ha : (Z.to_nat s <= length P)%nat) by (unfold len in Hle; lia).
    rewrite drop_app_le by exact Ha. rewrite take_app_le; [reflexivity|].
    rewrite length_drop. lia.
  - assert (H1 : (Z.to_nat e - Z.to_nat (Z.min s (len P + len suffix)) = 0)%nat)
      by (unfold len in *; lia).
    assert (H2 : (Z.to_nat e - Z.to_nat (Z.min s (len P)) = 0)%nat)
      by (unfold len in *; lia).
    rewrite H1, H2. reflexivity.
Qed.

Lemma fix_position_found (P : text) (r : ref) :
  contains (get_text r) P = true ->
  let s := find (get_text r) P in
  fix_position P r = mk_ref (r_text r) (Some s) (Some (s + len (get_text r))) (r_type r)
  /\ 0 <= s /\ s + len (get_text r) <= len P
  /\ slice P s (s + len (get_text r)) = get_text r.
Proof.
  intros Hc s. unfold fix_position. rewrite Hc. fold s.
  pose proof Hc as Hs. unfold contains in Hs. apply Z.leb_le in Hs. fold s in Hs.
  destruct (s =? -1) eqn:E; [apply Z.eqb_eq in E; lia|]. simpl.
  split; [reflexivity|]. split; [exact Hs|].
  destruct (find_occurrence (get_text r) P) as (pre & post & HP & Hf); [fold s; lia|].
  fold s in Hf. rewrite Hf. split.
  - apply (f_equal len) in HP. rewrite !len_app in HP.
    pose proof (len_nonneg post). lia.
  - rewrite HP. apply slice_middle.
Qed.

Lemma fix_position_absent (P : text) (r : ref) :
  contains (get_text r) P = false -> fix_position P r = r.
Proof. intros Hc. unfold fix_position. rewrite Hc. reflexivity. Qed.

Lemma fix_position_text (P : text) (r : ref) :
  r_text (fix_position P r) = r_text r /\ r_type (fix_position P r) = r_type r.
Proof.
  unfold fix_position. destruct (contains _ _); [|auto].
  destruct (negb _); auto.
Qed.

Lemma complete_test_case_refs (raw : raw_case) (ext1 ext2 : option text)
    (sector pattern_type : text) :
  tc_missing_references (complete_test_case raw ext1 ext2 sector pattern_type)
  = map (fix_position (fixing_prompt raw ext1 sector pattern_type))
        (refs_to_fix raw ext1 sector pattern_type).
Proof.
  unfold complete_test_case, fixing_prompt, refs_to_fix.
  destruct (extended_stage raw ext1 sector pattern_type) as [refs p]. reflexivity.
Qed.

Lemma complete_test_case_prompt (raw : raw_case) (ext1 ext2 : option text)
    (sector pattern_type : text) :
  let p := fixing_prompt raw ext1 sector pattern_type in
  tc_prompt (complete_test_case raw ext1 ext2 sector pattern_type)
  = if len p <? MIN_PROMPT_LENGTH
    then extend_prompt_if_needed ext2 p sector pattern_type
    else p.
Proof.
  unfold complete_test_case, fixing_prompt.
  destruct (extended_stage raw ext1 sector pattern_type) as [refs p]. reflexivity.
Qed.

(** Counterexample to C2 as stated.  A span that does not occur in the
    prompt is kept, with its stale positions: the response supplies the span [the zebra] at [(4, 13)] for
    the prompt [Summarize it.]; the finished case still carries it, its
    text occurs nowhere in the final prompt, and the characters at
    [(4, 13)] are [arize it.]. *)
Lemma stale_span_is_kept :
  let response :=
    json_text "{'messages': [], 'prompt': 'Summarize it.', 'missing_references': [{'text': 'the zebra', 'start': 4, 'end': 13, 'type': 'definite_noun'}]}" in
  exists tc,
    generate_test_case_with_llm response None None (txt "Legal") (txt "resolved")
      = Done tc
    /\ tc_missing_references tc
       = [mk_ref (Some (txt "the zebra")) (Some 4) (Some 13) (Some (txt "definite_noun"))]
    /\ contains (txt "the zebra") (tc_prompt tc) = false
    /\ slice (tc_prompt tc) 4 13 = txt "arize it.".
Proof. eexists. vm_compute. repeat split; reflexivity. Qed.

(** C2 (amended).  In every synthesized test case the position-fixing loop
    keeps every span it runs over.  A span whose text occurs in the prompt
    searched (the prompt after the first length check) gets the offset of
    the first occurrence as start and start + len(text) as end, so that
    the slice of that prompt at its positions is its text; this also holds
    in the final prompt whenever the final prompt begins with the prompt
    searched, as it does when the final extension request gets no reply.
    A span whose text does not occur is kept unchanged. *)
Theorem finalized_span_positions (response : text) (ext1 ext2 : option text)
    (sector pattern_type : text) (tc : test_case) :
  generate_test_case_with_llm response ext1 ext2 sector pattern_type = Done tc ->
  exists v raw,
    let refs := refs_to_fix raw ext1 sector pattern_type in
    let prompt_text := fixing_prompt raw ext1 sector pattern_type in
    loads (slice response (find (txt "{") response) (rfind (txt "}") response + 1))
      = Some v
    /\ decode_case v = Done raw
    /\ tc = complete_test_case raw ext1 ext2 sector pattern_type
    /\ Forall2 (fun r0 r =>
                  if contains (get_text r0) prompt_text then
                    let s := find (get_text r0) prompt_text in
                    r = mk_ref (r_text r0) (Some s) (Some (s + len (get_text r0)))
                               (r_type r0)
                    /\ slice prompt_text (get_start r) (get_end r) = get_text r
                  else r = r0)
               refs (tc_missing_references tc)
    /\ (MIN_PROMPT_LENGTH <= len prompt_text /\ tc_prompt tc = prompt_text
        \/ len prompt_text < MIN_PROMPT_LENGTH
           /\ tc_prompt tc
              = extend_prompt_if_needed ext2 prompt_text sector pattern_type)
    /\ (forall suffix, tc_prompt tc = prompt_text ++ suffix ->
          Forall (fun r => contains (get_text r) prompt_text = true ->
                           slice (tc_prompt tc) (get_start r) (get_end r) = get_text r)
                 (tc_missing_references tc))
    /\ (ext2 = None -> exists suffix, tc_prompt tc = prompt_text ++ suffix).
Proof.
  intros H. apply generate_done in H as (v & raw & Hv & Hraw & ->).
  exists v, raw. intros refs prompt_text.
  assert (Hfix : Forall2 (fun r0 r =>
                  if contains (get_text r0) prompt_text then
                    let s := find (get_text r0) prompt_text in
                    r = mk_ref (r_text r0) (Some s) (Some (s + len (get_text r0)))
                               (r_type r0)
                    /\ slice prompt_text (get_start r) (get_end r) = get_text r
                  else r = r0)
               refs (map (fix_position prompt_text) refs)).
  { apply Forall2_fmap_r, Forall_Forall2_diag, Forall_forall. intros r _.
    cbv beta. destruct (contains (get_text r) prompt_text) eqn:Hc.
    - pose proof (fix_position_found prompt_text r Hc) as Hf. cbv zeta in *.
      destruct Hf as (Hfx & _ & _ & Hs). unfold compose. rewrite Hfx.
      split; [reflexivity|]. exact Hs.
    - unfold compose. apply fix_position_absent, Hc. }
  split; [exact Hv|]. split; [exact Hraw|]. split; [reflexivity|].
  rewrite complete_test_case_refs, complete_test_case_prompt.
  fold refs prompt_text. split; [exact Hfix|]. split; [|split].
  - destruct (len prompt_text <? MIN_PROMPT_LENGTH) eqn:E.
    + apply Z.ltb_lt in E. right. auto.
    + apply Z.ltb_ge in E. left. auto.
  - intros suffix ->. apply Forall_forall. intros r Hr Hc.
    apply list_elem_of_fmap in Hr as (r0 & -> & _).
    destruct (fix_position_text prompt_text r0) as [Ht _].
    assert (Hc0 : contains (get_text r0) prompt_text = true).
    { unfold get_text in *. rewrite Ht in Hc. exact Hc. }
    pose proof (fix_position_found prompt_text r0 Hc0) as Hf. cbv zeta in Hf.
    destruct Hf as (-> & Hs & He & Hsl).
    unfold get_start, get_end, get_text in *. simpl in *.
    rewrite slice_app_l; [exact Hsl|lia|].
    pose proof (len_nonneg (default [] (r_text r0))). lia.
  - intros ->. destruct (len prompt_text <? MIN_PROMPT_LENGTH) eqn:E.
    + exists (fallback_extension sector). unfold extend_prompt_if_needed.
      apply Z.ltb_lt in E.
      destruct (MIN_PROMPT_LENGTH <=? len prompt_text) eqn:E';
        [apply Z.leb_le in E'; lia|reflexivity].
    + exists []. rewrite app_nil_r. reflexivity.
Qed.

(** Witness of C2 (amended): the theorem at a response without references and with a prompt of 20
    characters, both extension requests failing: every span of the finished
    case lies in the final prompt at its positions. *)
Lemma finalized_span_positions_witness :
  let response := json_text "{'messages': [], 'prompt': 'Summarize the zebra.'}" in
  let raw := mk_raw (JArr []) (txt "Summarize the zebra.") None None None in
  let tc := complete_test_case raw None None (txt "Legal") (txt "missing_definite") in
  generate_test_case_with_llm response None None (txt "Legal") (txt "missing_definite")
    = Done tc
  /\ Forall (fun r => slice (tc_prompt tc) (get_start r) (get_end r) = get_text r)
            (tc_missing_references tc).
Proof.
  intros response raw tc.
  assert (Hgen : generate_test_case_with_llm response None None (txt "Legal")
                   (txt "missing_definite") = Done tc) by (vm_compute; reflexivity).
  split; [exact Hgen|].
  destruct (finalized_span_positions _ _ _ _ _ _ Hgen)
    as (v & raw' & Hv & Hraw & _ & _ & _ & Hsuffix & _).
  assert (Ev : v = JObj [(txt "messages", JArr []);
                         (txt "prompt", JStr (txt "Summarize the zebra."))]).
  { vm_compute in Hv. injection Hv as <-. reflexivity. }
  subst v. assert (Eraw : raw' = raw).
  { vm_compute in Hraw. injection Hraw as <-. reflexivity. }
  subst raw'.
  specialize (Hsuffix (fallback_extension (txt "Legal")) ltac:(vm_compute; reflexivity)).
  assert (Hall : forallb (fun r => contains (get_text r)
                    (fixing_prompt raw None (txt "Legal") (txt "missing_definite")))
                  (tc_missing_references tc) = true) by (vm_compute; reflexivity).
  rewrite Forall_forall in *. intros r Hr. apply Hsuffix; [exact Hr|].
  rewrite forallb_forall in Hall. apply Hall.
  exact (proj1 (list_elem_of_In _ _) Hr).
Defined.

(** Counterexample to C7 as stated.  The synthesis keeps what the response
    supplied: a case of class
    [resolved] whose response carries a span and the code
    [MISSING_REFERENCE] comes out with both; and a case of class
    [missing_definite] whose prompt of 2000 characters holds no reference
    pattern comes out without any span. *)
Lemma supplied_fields_are_kept :
  (exists tc,
      generate_test_case_with_llm
        (json_text "{'messages': [], 'prompt': 'Summarize it.', 'missing_references': [{'text': 'the zebra', 'start': 4, 'end': 13}], 'expected_issue_codes': ['MISSING_REFERENCE']}")
        None None (txt "Legal") (txt "resolved") = Done tc
      /\ tc_missing_references tc
         = [mk_ref (Some (txt "the zebra")) (Some 4) (Some 13) None]
      /\ tc_expected_issue_codes tc = JArr [JStr (txt "MISSING_REFERENCE")])
  /\ (exists tc,
        generate_test_case_with_llm
          (json_text "{'messages': [], 'prompt': '" ++ repeat "x"%char 2000
             ++ json_text "'}")
          None None (txt "Legal") (txt "missing_definite") = Done tc
        /\ tc_missing_references tc = []
        /\ tc_expected_issue_codes tc = JArr [JStr (txt "MISSING_REFERENCE")]).
Proof.
  split; eexists; vm_compute; repeat split; reflexivity.
Qed.

Lemma extended_stage_refs (raw : raw_case) (ext1 : option text)
    (sector pattern_type : text) :
  refs_to_fix raw ext1 sector pattern_type =
  let supplied :=
    match raw_missing_references raw with
    | Some (r :: l) => r :: l
    | _ => if is_resolved pattern_type then []
           else detect_references_in_prompt (raw_prompt raw)
    end in
  if is_resolved pattern_type then supplied
  else if len (raw_prompt raw) <? len (fixing_prompt raw ext1 sector pattern_type)
       then detect_references_in_prompt (fixing_prompt raw ext1 sector pattern_type)
       else supplied.
Proof.
  unfold refs_to_fix, fixing_prompt, extended_stage.
  destruct (len (raw_prompt raw) <? MIN_PROMPT_LENGTH) eqn:E; simpl.
  - destruct (is_resolved pattern_type); simpl.
    + rewrite andb_false_r. destruct (raw_missing_references raw) as [[|]|]; reflexivity.
    + rewrite andb_true_r.
      destruct (_ <? len (extend_prompt_if_needed _ _ _ _));
        destruct (raw_missing_references raw) as [[|]|]; reflexivity.
  - rewrite Z.ltb_irrefl.
    destruct (is_resolved pattern_type);
      destruct (raw_missing_references raw) as [[|]|]; reflexivity.
Qed.

(** C7 (amended).  In every synthesized test case the expected issue codes
    are those of the response when it supplied the field, and otherwise the
    default of the class: the empty list for [resolved], the list of
    [MISSING_REFERENCE] alone for every other class.  When the response
    supplied no reference, or an empty list, a [resolved] case carries no
    span, and a case of another class carries one span for each span the
    detector finds in the prompt it last ran on, with its text and pattern
    type; that can be none.  A non-empty list of references supplied for a
    [resolved] case is kept, span by span. *)
Theorem synthesized_case_labels (response : text) (ext1 ext2 : option text)
    (sector pattern_type : text) (tc : test_case) :
  generate_test_case_with_llm response ext1 ext2 sector pattern_type = Done tc ->
  exists v raw,
    let same_span (r0 r : ref) := r_text r = r_text r0 /\ r_type r = r_type r0 in
    let no_references :=
      raw_missing_references raw = None \/ raw_missing_references raw = Some [] in
    loads (slice response (find (txt "{") response) (rfind (txt "}") response + 1))
      = Some v
    /\ decode_case v = Done raw
    /\ (forall codes, raw_expected_issue_codes raw = Some codes ->
          tc_expected_issue_codes tc = codes)
    /\ (raw_expected_issue_codes raw = None ->
          tc_expected_issue_codes tc
          = if is_resolved pattern_type then JArr []
            else JArr [JStr (txt "MISSING_REFERENCE")])
    /\ (no_references -> is_resolved pattern_type = true ->
          tc_missing_references tc = [])
    /\ (no_references -> is_resolved pattern_type = false ->
          Forall2 same_span
            (detect_references_in_prompt
               (detection_prompt raw ext1 sector pattern_type))
            (tc_missing_references tc))
    /\ (forall supplied, raw_missing_references raw = Some supplied ->
          is_resolved pattern_type = true ->
          Forall2 same_span supplied (tc_missing_references tc)).
Proof.
  intros H. apply generate_done in H as (v & raw & Hv & Hraw & ->).
  exists v, raw. intros same_span no_references.
  assert (Hsame : forall P l, Forall2 same_span l (map (fix_position P) l)).
  { intros P l. apply Forall2_fmap_r, Forall_Forall2_diag, Forall_forall.
    intros r _. apply fix_position_text. }
  split; [exact Hv|]. split; [exact Hraw|].
  rewrite complete_test_case_refs, extended_stage_refs.
  unfold detection_prompt.
  assert (Hcodes : tc_expected_issue_codes
                     (complete_test_case raw ext1 ext2 sector pattern_type)
                   = default (default_issue_codes pattern_type)
                             (raw_expected_issue_codes raw)).
  { unfold complete_test_case. destruct (extended_stage _ _ _ _). reflexivity. }
  rewrite Hcodes. repeat split.
  - intros codes ->. reflexivity.
  - intros ->. unfold default_issue_codes. simpl.
    destruct (is_resolved pattern_type); reflexivity.
  - intros Hno ->. destruct Hno as [-> | ->]; reflexivity.
  - intros Hno ->. cbv zeta.
    destruct (_ <? _); [apply Hsame|].
    destruct Hno as [-> | ->]; apply Hsame.
  - intros supplied -> ->. destruct supplied; [constructor|apply Hsame].
Qed.

(** Witness of C7 (amended): a response that supplies neither codes nor
    references, for the class [missing_definite]. *)
Lemma synthesized_case_labels_witness :
  let response := json_text "{'messages': [], 'prompt': 'Summarize the zebra.'}" in
  let raw := mk_raw (JArr []) (txt "Summarize the zebra.") None None None in
  let tc := complete_test_case raw None None (txt "Legal") (txt "missing_definite") in
  generate_test_case_with_llm response None None (txt "Legal") (txt "missing_definite")
    = Done tc
  /\ tc_expected_issue_codes tc = JArr [JStr (txt "MISSING_REFERENCE")].
Proof.
  intros response raw tc.
  assert (Hgen : generate_test_case_with_llm response None None (txt "Legal")
                   (txt "missing_definite") = Done tc) by (vm_compute; reflexivity).
  split; [exact Hgen|].
  destruct (synthesized_case_labels _ _ _ _ _ _ Hgen)
    as (v & raw' & Hv & Hraw & _ & Hdefault & _).
  assert (Ev : v = JObj [(txt "messages", JArr []);
                         (txt "prompt", JStr (txt "Summarize the zebra."))]).
  { vm_compute in Hv. injection Hv as <-. reflexivity. }
  subst v. assert (Eraw : raw' = raw).
  { vm_compute in Hraw. injection Hraw as <-. reflexivity. }
  subst raw'. apply Hdefault. reflexivity.
Defined.

(** ** Dictionaries *)

Lemma dict_get_set_eq {V} (k : text) (v : V) (d : list (text * V)) :
  dict_get k (dict_set k v d) = Some v.
Proof.
  induction d as [|[k' v'] d IH]; simpl.
  - rewrite text_eqb_refl. reflexivity.
  - destruct (text_eqb k k') eqn:E; simpl.
    + rewrite text_eqb_refl. reflexivity.
    + rewrite E. exact IH.
Qed.

Lemma dict_get_set_ne {V} (k k' : text) (v : V) (d : list (text * V)) :
  k <> k' -> dict_get k' (dict_set k v d) = dict_get k' d.
Proof.
  intros Hne. induction d as [|[k0 v0] d IH]; simpl.
  - destruct (text_eqb k' k) eqn:E; [|reflexivity].
    apply text_eqb_eq in E. congruence.
  - destruct (text_eqb k k0) eqn:E; simpl.
    + apply text_eqb_eq in E as <-.
      destruct (text_eqb k' k) eqn:E'; [|reflexivity].
      apply text_eqb_eq in E'. congruence.
    + destruct (text_eqb k' k0); [reflexivity|exact IH].
Qed.

Lemma dict_set_set {V} (k : text) (v v' : V) (d : list (text * V)) :
  dict_set k v (dict_set k v' d) = dict_set k v d.
Proof.
  induction d as [|[k0 v0] d IH]; simpl.
  - rewrite text_eqb_refl. reflexivity.
  - destruct (text_eqb k k0) eqn:E; simpl.
    + rewrite text_eqb_refl. reflexivity.
    + rewrite E, IH. reflexivity.
Qed.

(** ** The store *)

Import Dataset.

Lemma keys_differ : txt "testCases" <> txt "metadata".
Proof. discriminate. Qed.

Lemma member_appended (id : text) (l : list json) :
  member id (JArr (l ++ [JStr id])) = Some true.
Proof.
  simpl. f_equal. rewrite existsb_app. simpl.
  rewrite text_eqb_refl. apply orb_true_iff. right. reflexivity.
Qed.

(** Updating an index that was just updated for the same case changes
    nothing. *)
Lemma update_index_fixpoint (tc : Dataset.test_case) (index_data updated : json) :
  update_index tc index_data = Some updated ->
  update_index tc updated = Some updated.
Proof.
  unfold update_index. destruct index_data as [| | | | | |d]; try discriminate.
  destruct (dict_get (txt "testCases") d) as [x|] eqn:Hx; [|discriminate].
  destruct (member (tc_id tc) x) as [[|]|] eqn:Hm; [| |discriminate].
  - intros [= <-].
    rewrite (dict_get_set_ne (txt "metadata") (txt "testCases"))
      by (intros E; symmetry in E; exact (keys_differ E)).
    rewrite Hx, Hm, dict_set_set. reflexivity.
  - destruct x as [| | | | |l|]; try discriminate. simpl append.
    intros [= <-].
    rewrite (dict_get_set_ne (txt "metadata") (txt "testCases"))
      by (intros E; symmetry in E; exact (keys_differ E)).
    rewrite dict_get_set_eq, member_appended, dict_set_set. reflexivity.
Qed.

(** What a returned update holds: the list of ids and the metadata that
    counts it. *)
Lemma update_index_shape (tc : Dataset.test_case) (index_data updated : json) :
  update_index tc index_data = Some updated ->
  exists d x,
    updated = JObj d
    /\ dict_get (txt "testCases") d = Some x
    /\ dict_get (txt "metadata") d = Some (metadata x tc)
    /\ member (tc_id tc) x = Some true.
Proof.
  unfold update_index. destruct index_data as [| | | | | |d]; try discriminate.
  destruct (dict_get (txt "testCases") d) as [x|] eqn:Hx; [|discriminate].
  destruct (member (tc_id tc) x) as [[|]|] eqn:Hm; [| |discriminate].
  - intros [= <-]. eexists _, x. split; [reflexivity|].
    rewrite (dict_get_set_ne (txt "metadata") (txt "testCases"))
      by (intros E; symmetry in E; exact (keys_differ E)).
    rewrite dict_get_set_eq. auto.
  - destruct x as [| | | | |l|]; try discriminate. simpl append.
    intros [= <-]. eexists _, _. split; [reflexivity|].
    rewrite (dict_get_set_ne (txt "metadata") (txt "testCases"))
      by (intros E; symmetry in E; exact (keys_differ E)).
    rewrite !dict_get_set_eq. split; [reflexivity|]. split; [reflexivity|].
    apply member_appended.
Qed.

Lemma load_index_insert_other (d : gmap text file) (path : text) (f : file) :
  path <> index_path -> load_index (<[path := f]> d) = load_index d.
Proof. intros H. unfold load_index. rewrite lookup_insert_ne by exact H. reflexivity. Qed.

Lemma load_index_insert_index (d : gmap text file) (v : json) :
  load_index (<[index_path := FJson v]> d) = v.
Proof. unfold load_index. rewrite lookup_insert_eq. reflexivity. Qed.

Lemma case_path_index (id : text) : case_path id = index_path <-> id = txt "index".
Proof.
  unfold case_path, index_path. split.
  - intros H. change (txt "index.json") with (txt "index" ++ txt ".json") in H.
    apply app_inj_2 in H; [tauto|reflexivity].
  - intros ->. reflexivity.
Qed.

Lemma save_test_case_unfold (tc : Dataset.test_case) (w : world) :
  let cp := case_path (tc_id tc) in
  let f := FJson (JObj (tc_dict tc)) in
  let w' := write_file cp f (mkdir w) in
  save_test_case tc w =
  match update_index tc (load_index (<[cp := f]> (disk w))) with
  | Some index_data => (Returned, write_file index_path (FJson index_data) w')
  | None => (Raised, w')
  end.
Proof. reflexivity. Qed.

Lemma save_test_case_twice_disk (tc : Dataset.test_case) (w : world) :
  let o1 := save_test_case tc w in
  let o2 := save_test_case tc (snd o1) in
  disk (snd o2) = disk (snd o1) /\ fst o2 = fst o1.
Proof.
  cbv zeta. rewrite (save_test_case_unfold tc w). cbv zeta.
  set (cp := case_path (tc_id tc)). set (f := FJson (JObj (tc_dict tc))).
  destruct (update_index tc (load_index (<[cp := f]> (disk w)))) as [idx|] eqn:Hu.
  - rewrite save_test_case_unfold. cbv zeta. fold cp f. simpl snd. simpl fst.
    cbn [disk write_file mkdir].
    assert (Hload : update_index tc
                      (load_index (<[cp := f]> (<[index_path := FJson idx]>
                                                 (<[cp := f]> (disk w)))))
                    = Some idx).
    { destruct (decide (cp = index_path)) as [E|E].
      - rewrite E in *. rewrite !insert_insert_eq. exact Hu.
      - rewrite load_index_insert_other by exact E.
        rewrite load_index_insert_index.
        eapply update_index_fixpoint. exact Hu. }
    rewrite Hload. simpl. split; [|reflexivity].
    apply map_eq. intros k.
    destruct (decide (k = index_path)) as [->|Hk].
    + rewrite !lookup_insert_eq. reflexivity.
    + rewrite !(lookup_insert_ne _ index_path) by congruence.
      destruct (decide (k = cp)) as [->|Hk'].
      * rewrite !lookup_insert_eq. reflexivity.
      * rewrite !(lookup_insert_ne _ cp) by congruence.
        rewrite !(lookup_insert_ne _ index_path) by congruence.
        rewrite !(lookup_insert_ne _ cp) by congruence. reflexivity.
  - rewrite save_test_case_unfold. cbv zeta. fold cp f. simpl snd. simpl fst.
    cbn [disk write_file mkdir]. rewrite insert_insert_eq, Hu. simpl.
    split; [|reflexivity]. rewrite insert_insert_eq. reflexivity.
Qed.

(** C8.  Saving the same test case a second time leaves the dataset
    directory as the first call left it, with the same outcome: the list of
    ids of the index is unchanged in length and contents (the id is not
    listed once more), the case file holds what the first call left in it
    (the dictionary of the case, unless the case file is the index file
    itself), and after a call that returned the index holds the list of
    ids together with a metadata record whose [totalTestCases] is its
    length.  Each call writes the case file first and the index after. *)
Theorem save_test_case_idempotent (tc : Dataset.test_case) (w : world) :
  let o1 := save_test_case tc w in
  let o2 := save_test_case tc (snd o1) in
  let id := tc_id tc in
  let case_file := FJson (JObj (tc_dict tc)) in
  disk (snd o2) = disk (snd o1)
  /\ fst o2 = fst o1
  /\ index_ids (disk (snd o2)) = index_ids (disk (snd o1))
  /\ len (filter (fun v => is_id id v = true) (index_ids (disk (snd o2))))
     = len (filter (fun v => is_id id v = true) (index_ids (disk (snd o1))))
  /\ disk (snd o2) !! case_path id = disk (snd o1) !! case_path id
  /\ (id <> txt "index" -> disk (snd o1) !! case_path id = Some case_file)
  /\ (fst o1 = Returned ->
        exists d x,
          disk (snd o1) !! index_path = Some (FJson (JObj d))
          /\ dict_get (txt "testCases") d = Some x
          /\ member id x = Some true
          /\ dict_get (txt "metadata") d
             = Some (JObj [ (txt "totalTestCases", JInt (json_len x));
                            (txt "lastUpdated",
                             default (JStr []) (dict_get (txt "notes") (tc_dict tc)));
                            (txt "format", JStr (txt "json")) ]))
  /\ (exists index_write,
        trace (snd o1)
        = trace w ++ [EMkdir; EWrite (case_path id) case_file] ++ index_write
        /\ trace (snd o2)
           = trace (snd o1) ++ [EMkdir; EWrite (case_path id) case_file] ++ index_write
        /\ (fst o1 = Raised /\ index_write = []
            \/ exists index_data,
                 fst o1 = Returned
                 /\ index_write = [EWrite index_path (FJson index_data)]
                 /\ disk (snd o1) !! index_path = Some (FJson index_data))).
Proof.
  intros o1 o2 id case_file.
  destruct (save_test_case_twice_disk tc w) as [Hdisk Hres].
  fold o1 o2 in Hdisk. fold o1 in Hres. fold o2 in Hres.
  split; [exact Hdisk|]. split; [exact Hres|].
  rewrite Hdisk. split; [reflexivity|]. split; [reflexivity|]. split; [reflexivity|].
  assert (Ho1 : o1 = match update_index tc
                         (load_index (<[case_path id := case_file]> (disk w))) with
                     | Some index_data =>
                         (Returned, write_file index_path (FJson index_data)
                                      (write_file (case_path id) case_file (mkdir w)))
                     | None => (Raised, write_file (case_path id) case_file (mkdir w))
                     end) by reflexivity.
  assert (Ho2 : o2 = match update_index tc
                         (load_index (<[case_path id := case_file]> (disk (snd o1)))) with
                     | Some index_data =>
                         (Returned, write_file index_path (FJson index_data)
                                      (write_file (case_path id) case_file (mkdir (snd o1))))
                     | None => (Raised, write_file (case_path id) case_file (mkdir (snd o1)))
                     end) by reflexivity.
  destruct (update_index tc (load_index (<[case_path id := case_file]> (disk w))))
    as [idx|] eqn:Hu.
  - assert (Hu2 : update_index tc
                    (load_index (<[case_path id := case_file]> (disk (snd o1))))
                  = Some idx).
    { rewrite Ho1. simpl. destruct (decide (case_path id = index_path)) as [E|E].
      - rewrite E in *. rewrite !insert_insert_eq. exact Hu.
      - rewrite load_index_insert_other by exact E.
        rewrite load_index_insert_index.
        eapply update_index_fixpoint. exact Hu. }
    rewrite Hu2 in Ho2. rewrite Ho2. rewrite Ho1. simpl.
    split.
    { intros Hid. rewrite lookup_insert_ne.
      - apply lookup_insert_eq.
      - intros E. symmetry in E. apply case_path_index in E. contradiction. }
    split.
    { intros _. destruct (update_index_shape tc _ _ Hu) as (d & x & -> & Hx & Hm & Hin).
      exists d, x. rewrite lookup_insert_eq. auto. }
    exists [EWrite index_path (FJson idx)]. rewrite <- !app_assoc. simpl.
    split; [reflexivity|]. split; [reflexivity|].
    right. exists idx. rewrite lookup_insert_eq. auto.
  - assert (Hu2 : update_index tc
                    (load_index (<[case_path id := case_file]> (disk (snd o1))))
                  = None).
    { rewrite Ho1. simpl. rewrite insert_insert_eq. exact Hu. }
    rewrite Hu2 in Ho2. rewrite Ho2. rewrite Ho1. simpl.
    split; [intros _; apply lookup_insert_eq|].
    split; [discriminate|].
    exists []. rewrite <- !app_assoc. simpl. auto.
Qed.

(** Witness of C8: a generated case saved twice into an empty directory. *)
Lemma save_test_case_idempotent_witness :
  let tc := generate_test_case (txt "llama3.2") 1 2000 (txt "Summarize the report.") None in
  let o1 := save_test_case tc (mk_world ∅ []) in
  let o2 := save_test_case tc (snd o1) in
  tc_id tc <> txt "index"
  /\ fst o1 = Returned
  /\ disk (snd o1) !! case_path (tc_id tc) = Some (FJson (JObj (tc_dict tc)))
  /\ index_ids (disk (snd o2)) = index_ids (disk (snd o1))
  /\ exists d x,
       disk (snd o1) !! index_path = Some (FJson (JObj d))
       /\ dict_get (txt "testCases") d = Some x
       /\ member (tc_id tc) x = Some true.
Proof.
  intros tc o1 o2.
  assert (Hid : tc_id tc <> txt "index") by discriminate.
  assert (Hret : fst o1 = Returned) by reflexivity.
  destruct (save_test_case_idempotent tc (mk_world ∅ []))
    as (_ & _ & Hids & _ & _ & Hfile & Hindex & _).
  split; [exact Hid|]. split; [exact Hret|].
  split; [exact (Hfile Hid)|]. split; [exact Hids|].
  destruct (Hindex Hret) as (d & x & Hd & Hx & Hm & _).
  exists d, x. auto.
Defined.

(** Counterexample to C9 as stated.  A case whose id is [index] has the
    index file as its case file: saving it replaces the index, and the id
    the index listed is gone.  And an index file that does not parse is
    replaced by a fresh index that lists the new id alone, whatever the
    file held. *)
Lemma save_test_case_index_id_drops_ids :
  let before :=
    JObj [ (txt "testCases", JArr [JStr (txt "ollama-gen-0001")]);
           (txt "metadata", JObj []) ] in
  let w := mk_world {[ index_path := FJson before ]} [] in
  let tc := Dataset.mk_case (txt "index") [(txt "testCases", JArr [])] in
  let o := save_test_case tc w in
  let truncated := json_text "{'testCases': ['ollama-gen-0001'], 'metadata': {" in
  let w' := mk_world {[ index_path := FOther truncated ]} [] in
  let tc' := generate_test_case (txt "llama3.2") 2 2000 (txt "Summarize it.") None in
  let o' := save_test_case tc' w' in
  (index_ids (disk w) = [JStr (txt "ollama-gen-0001")]
   /\ fst o = Returned
   /\ index_ids (disk (snd o)) = [JStr (txt "index")]
   /\ JStr (txt "ollama-gen-0001") ∉ index_ids (disk (snd o)))
  /\ (loads truncated = None
      /\ contains (txt "ollama-gen-0001") truncated = true
      /\ fst o' = Returned
      /\ index_ids (disk (snd o')) = [JStr (txt "ollama-gen-0002")]).
Proof.
  repeat split; try reflexivity.
  intros H. vm_compute in H. apply list_elem_of_singleton in H. discriminate.
Qed.

Lemma index_ids_load (d : gmap text file) : index_ids d = ids_of (load_index d).
Proof.
  unfold index_ids, load_index. destruct (d !! index_path) as [[v|raw]|]; reflexivity.
Qed.

Lemma index_is_listing_load (d : gmap text file) :
  index_is_listing d = listing (load_index d).
Proof.
  unfold index_is_listing, load_index.
  destruct (d !! index_path) as [[v|raw]|]; reflexivity.
Qed.

Lemma dict_get_updated (m x : json) (d : list (text * json)) :
  dict_get (txt "testCases")
    (dict_set (txt "metadata") m (dict_set (txt "testCases") x d)) = Some x.
Proof.
  rewrite (dict_get_set_ne (txt "metadata") (txt "testCases"))
    by (intros E; symmetry in E; exact (keys_differ E)).
  apply dict_get_set_eq.
Qed.

Lemma dict_get_metadata_set (m : json) (d : list (text * json)) :
  dict_get (txt "testCases") (dict_set (txt "metadata") m d)
  = dict_get (txt "testCases") d.
Proof.
  apply dict_get_set_ne. intros E; symmetry in E; exact (keys_differ E).
Qed.

(** The update appends at most the id of the case to the list of ids. *)
Lemma update_index_ids (tc : Dataset.test_case) (v : json) :
  match update_index tc v with
  | Some v' =>
      exists added,
        ids_of v' = ids_of v ++ added
        /\ (added = [] \/ added = [JStr (tc_id tc)])
        /\ (listing v = true ->
              added = if existsb (is_id (tc_id tc)) (ids_of v) then []
                      else [JStr (tc_id tc)])
  | None => listing v = false
  end.
Proof.
  unfold update_index. destruct v as [| | | | | |d]; try reflexivity.
  unfold ids_of, listing.
  destruct (dict_get (txt "testCases") d) as [x|] eqn:Hx; [|reflexivity].
  destruct x as [| | | | |l|d']; try reflexivity.
  - simpl member. destruct (contains (tc_id tc) s); [|reflexivity].
    simpl. rewrite dict_get_metadata_set, Hx.
    exists []. split; [reflexivity|]. split; [auto|discriminate].
  - simpl member. destruct (existsb (is_id (tc_id tc)) l) eqn:Hin.
    + simpl. rewrite dict_get_metadata_set, Hx.
      exists []. rewrite app_nil_r. auto.
    + simpl. rewrite dict_get_updated.
      exists [JStr (tc_id tc)]. auto.
  - simpl member. destruct (dict_get (tc_id tc) d'); [|reflexivity].
    simpl. rewrite dict_get_metadata_set, Hx.
    exists []. split; [reflexivity|]. split; [auto|discriminate].
Qed.

(** C9 (amended).  For a test case whose id is not [index], and for every
    prior content of the dataset directory, saving the case keeps the ids
    the index listed, in their order: the list afterwards is the list
    before, followed by nothing or by the id of the case.  When the index
    file lists its ids (or is missing or unreadable, and then lists none)
    the call returns, an id not yet listed is appended at the end, and an
    id already listed leaves the list as it is. *)
Theorem save_test_case_keeps_ids (tc : Dataset.test_case) (w : world) :
  tc_id tc <> txt "index" ->
  let o := save_test_case tc w in
  let before := index_ids (disk w) in
  let after := index_ids (disk (snd o)) in
  let id := tc_id tc in
  (exists added, after = before ++ added /\ (added = [] \/ added = [JStr id]))
  /\ (index_is_listing (disk w) = true -> existsb (is_id id) before = false ->
        fst o = Returned /\ after = before ++ [JStr id])
  /\ (index_is_listing (disk w) = true -> existsb (is_id id) before = true ->
        fst o = Returned /\ after = before).
Proof.
  intros Hid o before after id. subst o before after id.
  assert (Hcp : case_path (tc_id tc) <> index_path).
  { intros E. apply case_path_index in E. contradiction. }
  rewrite save_test_case_unfold. cbv zeta.
  rewrite load_index_insert_other by exact Hcp.
  rewrite index_is_listing_load, (index_ids_load (disk w)).
  pose proof (update_index_ids tc (load_index (disk w))) as Hu.
  destruct (update_index tc (load_index (disk w))) as [v'|].
  - destruct Hu as (added & Hids & Hadded & Hlisting).
    cbn [fst snd disk write_file mkdir].
    rewrite index_ids_load, load_index_insert_index, Hids.
    split; [exists added; auto|]. split.
    + intros Hl Hnew. rewrite (Hlisting Hl), Hnew. auto.
    + intros Hl Hold. rewrite (Hlisting Hl), Hold, app_nil_r. auto.
  - cbn [fst snd disk write_file mkdir].
    rewrite index_ids_load, load_index_insert_other by exact Hcp.
    split; [exists []; rewrite app_nil_r; auto|].
    rewrite Hu. split; discriminate.
Qed.

(** Witness of C9 (amended): a second generated case saved next to an index
    that lists the first. *)
Lemma save_test_case_keeps_ids_witness :
  let before :=
    JObj [ (txt "testCases", JArr [JStr (txt "ollama-gen-0001")]);
           (txt "metadata", JObj []) ] in
  let w := mk_world {[ index_path := FJson before ]} [] in
  let tc := generate_test_case (txt "llama3.2") 2 2000 (txt "Summarize the report.") None in
  tc_id tc <> txt "index"
  /\ index_ids (disk (snd (save_test_case tc w)))
     = [JStr (txt "ollama-gen-0001"); JStr (txt "ollama-gen-0002")].
Proof.
  intros before w tc.
  assert (Hid : tc_id tc <> txt "index") by discriminate.
  split; [exact Hid|].
  destruct (save_test_case_keeps_ids tc w Hid) as (_ & Hnew & _).
  destruct (Hnew eq_refl eq_refl) as [_ Hafter].
  exact Hafter.
Defined.

(** Every id the generator builds differs from [index]. *)
Lemma generated_id_not_index (model : text) (case_id target_tokens : Z)
    (prompt : text) (messages : option (list message)) :
  tc_id (generate_test_case model case_id target_tokens prompt messages)
  <> txt "index".
Proof. discriminate. Qed.

(** ** Message history *)

(** A text that opens with a bracket decodes, if at all, to a list. *)
Lemma loads_bracket (rest : text) (v : json) :
  loads ("["%char :: rest) = Some v -> exists items, v = JArr items.
Proof.
  unfold loads.
  change (skip_ws ("["%char :: rest)) with ("["%char :: rest).
  replace (2 * length ("["%char :: rest) + 2)%nat
    with (S (2 * length ("["%char :: rest) + 1))%nat by lia.
  set (fuel := (2 * length ("["%char :: rest) + 1)%nat).
  cbn [parse_value].
  change (ascii_eqb "[" Json.quote) with false.
  change (ascii_eqb "[" "[") with true. cbv iota.
  destruct (skip_ws rest) as [|b r]; [discriminate|].
  destruct (ascii_eqb b "]").
  - destruct (skip_ws r); [|discriminate]. intros [= <-]. eauto.
  - destruct (parse_items fuel (b :: r)) as [[l r']|]; [|discriminate].
    destruct (skip_ws r'); [|discriminate]. intros [= <-]. eauto.
Qed.

(** The slice from the first opening bracket opens with that bracket. *)
Lemma slice_from_bracket (response : text) (e : Z) :
  0 <= find (txt "[") response -> find (txt "[") response < e ->
  exists rest, slice response (find (txt "[") response) e = "["%char :: rest.
Proof.
  intros H0 He.
  destruct (find_occurrence (txt "[") response) as (pre & post & Hr & Hf); [lia|].
  rewrite Hf in *. unfold slice.
  assert (Hlen : len response = len pre + 1 + len post).
  { rewrite Hr, !len_app. change (len (txt "[")) with 1. lia. }
  pose proof (len_nonneg post) as Hpost.
  rewrite !norm_index_nonneg by lia.
  assert (Ha : Z.to_nat (Z.min (len pre) (len response)) = length pre)
    by (unfold len in *; lia).
  rewrite Ha.
  replace (drop (length pre) response) with ("["%char :: post)
    by (rewrite Hr, drop_app_length; reflexivity).
  destruct (Z.to_nat (Z.min e (len response)) - length pre)%nat as [|n] eqn:En.
  - unfold len in *. lia.
  - simpl. eauto.
Qed.

Lemma valid_message_role (py_str : json -> text) (msg : json) (m : message) :
  valid_message py_str msg = Some m -> role m ∈ valid_roles.
Proof.
  unfold valid_message. destruct msg as [| | | | | |d]; try discriminate.
  destruct (dict_get (txt "role") d) as [[| | | |r| |]|]; try discriminate.
  destruct (dict_get (txt "content") d) as [c|]; [|discriminate].
  destruct (existsb (text_eqb r) valid_roles) eqn:E; [|discriminate].
  intros [= <-]. simpl. apply existsb_exists in E as (r' & Hin & Heq).
  apply text_eqb_eq in Heq as ->. apply list_elem_of_In. exact Hin.
Qed.

Lemma default_messages_valid :
  _default_messages <> [] /\ Forall (fun m => role m ∈ valid_roles) _default_messages.
Proof.
  split; [discriminate|].
  repeat constructor; apply list_elem_of_In; simpl; auto.
Qed.

(** C10.  For every response of the service the function returns a list
    (no exception leaves it), the list is not empty, every message in it
    has one of the roles [system], [user] and [assistant] and a text as
    content, and the list is either the messages that pass the validation,
    taken from the array decoded out of the response, or, when there is no
    such message, the default history of two messages. *)
Theorem generate_message_history_total (py_str : json -> text) (response : text) :
  exists msgs,
    generate_message_history py_str response = Some msgs
    /\ msgs <> []
    /\ Forall (fun m => role m ∈ valid_roles) msgs
    /\ (msgs = _default_messages
        \/ exists items,
             loads (slice response (find (txt "[") response)
                          (rfind (txt "]") response + 1)) = Some (JArr items)
             /\ msgs = omap (valid_message py_str) items).
Proof.
  destruct default_messages_valid as [Hne Hvalid].
  unfold generate_message_history.
  destruct ((0 <=? find (txt "[") response)
            && (find (txt "[") response <? rfind (txt "]") response + 1)) eqn:Hc.
  2:{ exists _default_messages. auto. }
  apply andb_true_iff in Hc as [H0 H1].
  apply Z.leb_le in H0. apply Z.ltb_lt in H1.
  destruct (slice_from_bracket response _ H0 H1) as [rest Hs]. rewrite Hs.
  destruct (loads ("["%char :: rest)) as [v|] eqn:Hl.
  2:{ exists _default_messages. auto. }
  destruct (loads_bracket rest v Hl) as [items ->]. simpl iterate. cbv iota.
  destruct (omap (valid_message py_str) items) as [|m ms] eqn:Ho.
  - exists _default_messages. auto.
  - exists (m :: ms). split; [reflexivity|]. split; [discriminate|]. split.
    + rewrite <- Ho. apply Forall_forall. intros x Hx.
      apply list_elem_of_omap in Hx as (msg & _ & Hm).
      eapply valid_message_role. exact Hm.
    + right. exists items. auto.
Qed.

(** An empty response, a response without an array, an array that does not
    decode and an array without a valid message all give the default
    history; a valid message is returned with its content. *)
Example generate_message_history_examples :
  let run := generate_message_history (fun _ => []) in
  run [] = Some _default_messages
  /\ run (txt "Sorry, I cannot help with that.") = Some _default_messages
  /\ run (json_text "[{'role': 'user', 'content': 'hi'") = Some _default_messages
  /\ run (json_text "Here: [{'role': 'user', 'content': 'hi'},]") = Some _default_messages
  /\ run (json_text "[{'role': 'tool', 'content': 'x'}, 3, {'role': 'user'}]")
     = Some _default_messages
  /\ run (json_text "Sure! [{'role': 'tool', 'content': 'x'}, {'role': 'user', 'content': 'hi'}] Done.")
     = Some [ {| role := txt "user"; content := txt "hi" |} ].
Proof. vm_compute. repeat split; reflexivity. Qed.

(** * Further properties of the code *)

(** ** The annotator *)

Lemma slice_to_from {A} (a : list A) (k : Z) : slice_to a k ++ slice_from a k = a.
Proof. unfold slice_to, slice_from. apply take_drop. Qed.

Lemma sublist_insert_middle {A} (a m : list A) (k : Z) :
  sublist a (slice_to a k ++ m ++ slice_from a k).
Proof.
  rewrite <- (slice_to_from a k) at 1.
  apply sublist_app; [reflexivity|]. apply sublist_inserts_l. reflexivity.
Qed.

Lemma annotate_step_invariant (prompt : text) (st : text * Z) (r : ref) :
  sublist (fst st) (fst (annotate_step prompt st r))
  /\ len (fst (annotate_step prompt st r))
     = len (fst st) + (if span_in_range prompt r then len MARKER else 0).
Proof.
  destruct st as [annotated offset]. unfold annotate_step, span_in_range.
  destruct (_ && _); cbn [fst].
  - split; [apply sublist_insert_middle|].
    rewrite !len_app.
    pose proof (f_equal len (slice_to_from annotated (get_end r + offset))) as H.
    rewrite len_app in H. lia.
  - split; [reflexivity|lia].
Qed.

Lemma annotate_fold_invariant (prompt : text) (refs : list ref) (st : text * Z) :
  sublist (fst st) (fst (fold_left (annotate_step prompt) refs st))
  /\ len (fst (fold_left (annotate_step prompt) refs st))
     = len (fst st)
       + len MARKER * len (filter (fun r => span_in_range prompt r = true) refs).
Proof.
  revert st; induction refs as [|r refs IH]; intros st; cbn [fold_left].
  - split; [reflexivity|]. rewrite filter_nil. change (len (@nil ref)) with 0. lia.
  - destruct (IH (annotate_step prompt st r)) as [Hs Hl].
    destruct (annotate_step_invariant prompt st r) as [Hs1 Hl1].
    split; [etransitivity; eassumption|].
    rewrite Hl, Hl1, filter_cons.
    destruct (span_in_range prompt r) eqn:E.
    + rewrite decide_True by reflexivity. rewrite len_cons. lia.
    + rewrite decide_False by discriminate. lia.
Qed.

Lemma annotate_prompt_sublist_length (prompt : text) (refs : list ref) :
  sublist prompt (annotate_prompt prompt refs)
  /\ len (annotate_prompt prompt refs)
     = len prompt
       + len MARKER * len (filter (fun r => span_in_range prompt r = true) refs).
Proof.
  unfold annotate_prompt.
  destruct (annotate_fold_invariant prompt (sorted get_start true refs) (prompt, 0))
    as [Hs Hl].
  split; [exact Hs|]. rewrite Hl. simpl fst. do 2 f_equal.
  unfold len. f_equal. apply Permutation_length.
  apply filter_Permutation, sorted_perm.
Qed.

(** X1.  Whatever the spans, the annotated text keeps every character of
    the prompt, in order, and is longer than the prompt by one marker for
    each span that passes the range guard. *)
Theorem annotate_prompt_keeps_text (prompt : text) (refs : list ref) :
  sublist prompt (annotate_prompt prompt refs)
  /\ len (annotate_prompt prompt refs)
     = len prompt
       + len MARKER * len (filter (fun r => span_in_range prompt r = true) refs).
Proof. apply annotate_prompt_sublist_length. Qed.

(** *** Spans outside the prompt *)

Section SortedFilter.
Context {A : Type} (key : A -> Z) (rev : bool).
Context (P : A -> Prop) `{!forall x, Decision (P x)}.

Lemma before_trans (x y z : A) :
  before key rev x y = true -> before key rev y z = true ->
  before key rev x z = true.
Proof. unfold before. destruct rev; rewrite !Z.leb_le; lia. Qed.

Lemma before_total (x y : A) :
  before key rev x y = false -> before key rev y x = true.
Proof. unfold before. destruct rev; rewrite Z.leb_gt, Z.leb_le; lia. Qed.

Lemma insert_sorted_head (x : A) (l : list A) :
  Forall (in_order key rev x) l -> insert_sorted key rev x l = x :: l.
Proof.
  destruct 1 as [|y l Hy _]; simpl; [reflexivity|].
  unfold in_order in Hy. rewrite Hy. reflexivity.
Qed.

Lemma insert_sorted_ordered (x : A) (l : list A) :
  StronglySorted (in_order key rev) l -> StronglySorted (in_order key rev) (insert_sorted key rev x l).
Proof.
  induction 1 as [|y l Hl IH Hy]; simpl.
  - repeat constructor.
  - destruct (before key rev x y) eqn:E.
    + constructor; [constructor; assumption|].
      constructor; [exact E|].
      eapply Forall_impl; [exact Hy|]. intros z Hz. eapply before_trans; eassumption.
    + constructor; [exact IH|].
      rewrite insert_sorted_perm. constructor; [apply before_total, E|exact Hy].
Qed.

Lemma sorted_ordered (l : list A) : StronglySorted (in_order key rev) (sorted key rev l).
Proof.
  induction l as [|x l IH]; simpl; [constructor|].
  apply insert_sorted_ordered, IH.
Qed.

Lemma filter_insert_sorted_ordered (x : A) (l : list A) :
  StronglySorted (in_order key rev) l ->
  filter P (insert_sorted key rev x l)
  = if decide (P x) then insert_sorted key rev x (filter P l) else filter P l.
Proof.
  induction 1 as [|y l Hl IH Hy]; simpl.
  - rewrite filter_cons, filter_nil. destruct (decide (P x)); reflexivity.
  - destruct (before key rev x y) eqn:E.
    + rewrite (filter_cons P x). destruct (decide (P x)) as [Px|Px]; [|reflexivity].
      symmetry. apply insert_sorted_head.
      assert (Hall : Forall (in_order key rev x) (y :: l)).
      { constructor; [exact E|]. eapply Forall_impl; [exact Hy|].
        intros z Hz. eapply before_trans; eassumption. }
      rewrite Forall_forall in Hall. apply Forall_forall. intros z Hz.
      apply Hall. apply list_elem_of_filter in Hz. apply Hz.
    + rewrite !(filter_cons P y), IH.
      destruct (decide (P y)) as [Py|Py], (decide (P x)) as [Px|Px];
        try reflexivity.
      simpl. rewrite E. reflexivity.
Qed.

(** Sorting and then discarding elements is discarding them first. *)
Lemma filter_sorted_commute (l : list A) :
  filter P (sorted key rev l) = sorted key rev (filter P l).
Proof.
  induction l as [|x l IH]; simpl; [reflexivity|].
  rewrite filter_insert_sorted_ordered by apply sorted_ordered.
  rewrite filter_cons, IH. destruct (decide (P x)); reflexivity.
Qed.
End SortedFilter.

Lemma annotate_fold_filter (prompt : text) (refs : list ref) (st : text * Z) :
  fold_left (annotate_step prompt) refs st
  = fold_left (annotate_step prompt)
      (filter (fun r => span_in_range prompt r = true) refs) st.
Proof.
  revert st; induction refs as [|r refs IH]; intros st; [reflexivity|].
  rewrite filter_cons. cbn [fold_left].
  destruct (decide (span_in_range prompt r = true)) as [E|E].
  - cbn [fold_left]. apply IH.
  - rewrite IH. f_equal. destruct st as [annotated offset].
    unfold annotate_step. unfold span_in_range in E.
    destruct (_ && _); [congruence|reflexivity].
Qed.

(** X2.  Spans that fail the range guard (a negative start, or an end
    beyond the prompt) have no effect at all: the annotation is the one
    of the list without them. *)
Theorem annotate_prompt_out_of_range_ignored (prompt : text) (refs : list ref) :
  annotate_prompt prompt refs
  = annotate_prompt prompt (filter (fun r => span_in_range prompt r = true) refs).
Proof.
  unfold annotate_prompt. cbv zeta.
  rewrite annotate_fold_filter, filter_sorted_commute. reflexivity.
Qed.

(** ** The detector *)

(** Every pattern of the table consumes at least seven characters: a
    three-letter word, a blank and a three-character noun. *)
Lemma reference_patterns_minlen :
  Forall (fun pt : regex * text => (7 <= minlen (fst pt))%nat) REFERENCE_PATTERNS.
Proof. repeat constructor; vm_compute; lia. Qed.

Lemma detect_span_shape (T : text) (r : ref) :
  r ∈ detect_references_in_prompt T ->
  0 <= get_start r /\ get_start r + 7 <= get_end r /\ get_end r <= len T.
Proof.
  intros Hr. apply detect_elem_references, references_elem in Hr
    as (p & ty & m & Hp & Hm & ->).
  apply finditer_bounds in Hm.
  pose proof reference_patterns_minlen as Hmin. rewrite Forall_forall in Hmin.
  specialize (Hmin _ Hp). simpl in Hmin.
  unfold get_start, get_end, len. simpl. lia.
Qed.

(** X3.  No detected span is shorter than seven characters, so a text of
    fewer than seven characters has no span at all. *)
Theorem detect_references_min_span (T : text) :
  (forall r, r ∈ detect_references_in_prompt T ->
     get_start r + 7 <= get_end r /\ 7 <= len (get_text r))
  /\ (len T < 7 -> detect_references_in_prompt T = []).
Proof.
  split.
  - intros r Hr. pose proof (detect_span_shape T r Hr) as (H0 & H7 & HT).
    split; [exact H7|].
    apply detect_elem_references, references_elem in Hr
      as (p & ty & m & Hp & Hm & ->).
    unfold get_start, get_end in *. simpl in *.
    unfold get_text. simpl. unfold slice, len in *.
    rewrite length_take, length_drop.
    rewrite !norm_index_in_range by (unfold len; lia). lia.
  - intros Hlen. destruct (detect_references_in_prompt T) as [|r l] eqn:E;
      [reflexivity|].
    assert (Hr : r ∈ detect_references_in_prompt T) by (rewrite E; left).
    apply detect_span_shape in Hr. lia.
Qed.

Lemma filter_all {A} (P : A -> Prop) `{!forall x, Decision (P x)} (l : list A) :
  Forall P l -> filter P l = l.
Proof.
  induction 1 as [|x l Hx _ IH]; [reflexivity|].
  rewrite filter_cons_True, IH by assumption. reflexivity.
Qed.

(** X4.  Annotating a text with the spans detected in it lengthens the
    text by exactly one marker for each span, and keeps every character
    of the text in order. *)
Theorem annotate_detected_length (T : text) :
  let out := annotate_prompt T (detect_references_in_prompt T) in
  len out = len T + len MARKER * len (detect_references_in_prompt T)
  /\ sublist T out.
Proof.
  intros out. destruct (annotate_prompt_sublist_length T (detect_references_in_prompt T))
    as [Hs Hl].
  split; [|exact Hs]. unfold out. rewrite Hl. do 2 f_equal.
  rewrite filter_all; [reflexivity|].
  apply Forall_forall. intros r Hr. apply detect_span_shape in Hr.
  unfold span_in_range. apply andb_true_iff. rewrite !Z.leb_le. lia.
Qed.

(** ** Formatted numbers *)

Lemma unsigned_value_zeros (k : nat) (t : text) :
  unsigned_value (repeat "0"%char k ++ t) = unsigned_value t.
Proof.
  induction k as [|k IH]; [reflexivity|].
  rewrite <- IH. unfold unsigned_value. simpl.
  destruct (NilEmpty.uint_of_string _); reflexivity.
Qed.

Lemma unsigned_value_decimal (n : Z) : 0 <= n -> unsigned_value (decimal n) = n.
Proof.
  intros Hn. unfold unsigned_value, decimal.
  rewrite string_of_list_ascii_of_string.
  destruct n as [|p|p]; [reflexivity| |lia].
  simpl. unfold NilZero.string_of_uint.
  pose proof (DecimalPos.Unsigned.to_uint_nonnil p) as Hnil.
  destruct (Pos.to_uint p) eqn:E; try contradiction;
    rewrite <- E, NilEmpty.usu; unfold Z.of_uint;
    rewrite DecimalPos.Unsigned.of_to; reflexivity.
Qed.

Lemma decimal_head (n : Z) :
  0 <= n -> exists a t, decimal n = a :: t /\ ascii_eqb a "-" = false.
Proof.
  intros Hn. unfold decimal. destruct n as [|p|p]; [simpl; eauto| |lia].
  simpl. unfold NilZero.string_of_uint.
  pose proof (DecimalPos.Unsigned.to_uint_nonnil p) as Hnil.
  destruct (Pos.to_uint p); try contradiction; simpl; eauto.
Qed.

Lemma signed_value_format_04d (n : Z) : signed_value (format_04d n) = n.
Proof.
  unfold format_04d. destruct (n <? 0) eqn:E.
  - apply Z.ltb_lt in E. cbn [app signed_value]. 
    change (ascii_eqb "-" "-") with true. cbv iota.
    rewrite unsigned_value_zeros, unsigned_value_decimal by lia. lia.
  - apply Z.ltb_ge in E. rewrite Z.abs_eq by lia. cbn [app length].
    destruct (decimal_head n E) as (a & t & Hd & Ha).
    destruct (4 - 0 - length (decimal n))%nat as [|k] eqn:Ek.
    + cbn [repeat app]. rewrite Hd. cbn [signed_value]. rewrite Ha, <- Hd.
      apply unsigned_value_decimal, E.
    + change (unsigned_value (repeat "0"%char (S k) ++ decimal n) = n).
      rewrite unsigned_value_zeros. apply unsigned_value_decimal, E.
Qed.

(** X5.  The four-digit format loses nothing: different numbers are
    formatted differently, so the identifiers of different case numbers
    differ, and so do their file names. *)
Theorem generated_ids_distinct (model model' prompt prompt' : text)
    (target target' : Z) (messages messages' : option (list message))
    (case_id case_id' : Z) :
  let tc := generate_test_case model case_id target prompt messages in
  let tc' := generate_test_case model' case_id' target' prompt' messages' in
  (format_04d case_id = format_04d case_id' -> case_id = case_id')
  /\ (tc_id tc = tc_id tc' -> case_id = case_id')
  /\ (case_path (tc_id tc) = case_path (tc_id tc') -> case_id = case_id').
Proof.
  assert (Hinj : forall a b, format_04d a = format_04d b -> a = b).
  { intros a b H. rewrite <- (signed_value_format_04d a), H.
    apply signed_value_format_04d. }
  cbv zeta. split; [apply Hinj|]. split.
  - unfold generate_test_case. cbn [tc_id]. intros H.
    apply app_inv_head in H. apply Hinj, H.
  - unfold generate_test_case, case_path. cbn [tc_id]. intros H.
    apply app_inv_tail, app_inv_head in H. apply Hinj, H.
Qed.

(** ** Loading the dataset *)

Lemma case_path_inj (a b : text) : case_path a = case_path b -> a = b.
Proof. unfold case_path. apply app_inv_tail. Qed.

Lemma load_listing (py_str : json -> text) (d : gmap text file) :
  index_is_listing d = true ->
  load_existing_dataset py_str d = Some (omap (load_case py_str d) (index_ids d)).
Proof.
  unfold index_is_listing, load_existing_dataset, index_ids.
  destruct (d !! index_path) as [[v|raw]|]; try reflexivity.
  destruct v as [| | | | | |o]; try discriminate.
  destruct (dict_get (txt "testCases") o) as [[| | | | |l|]|]; try discriminate.
  reflexivity.
Qed.

Lemma load_case_insert_ne (py_str : json -> text) (d : gmap text file)
    (path : text) (f : file) (v : json) :
  case_path (str_of py_str v) <> path ->
  load_case py_str (<[path := f]> d) v = load_case py_str d v.
Proof.
  intros H. unfold load_case. rewrite lookup_insert_ne by congruence. reflexivity.
Qed.

Lemma omap_ext_Forall {A B} (f g : A -> option B) (l : list A) :
  Forall (fun x => f x = g x) l -> omap f l = omap g l.
Proof.
  induction 1 as [|x l Hx _ IH]; [reflexivity|].
  cbn [omap list_omap]. fold (omap f l) (omap g l). rewrite Hx, IH. reflexivity.
Qed.

Lemma update_index_listing (tc : Dataset.test_case) (v : json) :
  listing v = true ->
  exists v',
    update_index tc v = Some v'
    /\ listing v' = true
    /\ ids_of v' = ids_of v ++ (if existsb (is_id (tc_id tc)) (ids_of v) then []
                                else [JStr (tc_id tc)]).
Proof.
  unfold update_index, listing, ids_of. destruct v as [| | | | | |d]; try discriminate.
  destruct (dict_get (txt "testCases") d) as [x|] eqn:Hx; [|discriminate].
  destruct x as [| | | | |l|d']; try discriminate. intros _.
  simpl member. destruct (existsb (is_id (tc_id tc)) l) eqn:Hin.
  - eexists. split; [reflexivity|]. simpl. rewrite dict_get_metadata_set, Hx.
    rewrite app_nil_r. auto.
  - eexists. split; [reflexivity|]. simpl. rewrite dict_get_updated. auto.
Qed.

Lemma save_listing (tc : Dataset.test_case) (w : world) :
  tc_id tc <> txt "index" -> index_is_listing (disk w) = true ->
  exists index_data,
    save_test_case tc w
    = (Returned,
       write_file index_path (FJson index_data)
         (write_file (case_path (tc_id tc)) (FJson (JObj (tc_dict tc))) (mkdir w)))
    /\ listing index_data = true
    /\ ids_of index_data
       = index_ids (disk w)
         ++ (if existsb (is_id (tc_id tc)) (index_ids (disk w)) then []
             else [JStr (tc_id tc)]).
Proof.
  intros Hid Hl.
  assert (Hcp : case_path (tc_id tc) <> index_path).
  { intros E. apply case_path_index in E. contradiction. }
  rewrite save_test_case_unfold. cbv zeta.
  rewrite load_index_insert_other by exact Hcp.
  rewrite index_is_listing_load in Hl. rewrite index_ids_load.
  destruct (update_index_listing tc _ Hl) as (v' & -> & Hl' & Hids).
  exists v'. auto.
Qed.

Lemma saved_disk_index (tc : Dataset.test_case) (w : world) (index_data : json) :
  let w' := write_file index_path (FJson index_data)
              (write_file (case_path (tc_id tc)) (FJson (JObj (tc_dict tc))) (mkdir w)) in
  index_is_listing (disk w') = listing index_data
  /\ index_ids (disk w') = ids_of index_data.
Proof.
  cbv zeta. rewrite index_is_listing_load, index_ids_load.
  cbn [disk write_file mkdir]. rewrite load_index_insert_index. auto.
Qed.

Lemma saved_disk_load_case (py_str : json -> text) (tc : Dataset.test_case) (w : world)
    (index_data v : json) :
  let w' := write_file index_path (FJson index_data)
              (write_file (case_path (tc_id tc)) (FJson (JObj (tc_dict tc))) (mkdir w)) in
  tc_id tc <> txt "index" ->
  (str_of py_str v = tc_id tc ->
     load_case py_str (disk w') v = Some (JObj (tc_dict tc)))
  /\ (names_other_file py_str (tc_id tc) v ->
       load_case py_str (disk w') v = load_case py_str (disk w) v).
Proof.
  cbv zeta. intros Hid. cbn [disk write_file mkdir]. split.
  - intros E. unfold load_case. rewrite E.
    rewrite lookup_insert_ne, lookup_insert_eq; [reflexivity|].
    intros E'. symmetry in E'. apply case_path_index in E'. contradiction.
  - intros [H1 H2]. rewrite !load_case_insert_ne; [reflexivity| |].
    + intros E. apply case_path_inj in E. contradiction.
    + intros E. apply case_path_index in E. contradiction.
Qed.

Lemma save_then_load (py_str : json -> text) (tc : Dataset.test_case) (w : world) :
  tc_id tc <> txt "index" ->
  index_is_listing (disk w) = true ->
  Forall (names_other_file py_str (tc_id tc)) (index_ids (disk w)) ->
  let o := save_test_case tc w in
  exists l,
    load_existing_dataset py_str (disk w) = Some l
    /\ fst o = Returned
    /\ load_existing_dataset py_str (disk (snd o)) = Some (l ++ [JObj (tc_dict tc)]).
Proof.
  intros Hid Hl Hids o. subst o.
  destruct (save_listing tc w Hid Hl) as (v' & -> & Hl' & Hids').
  destruct (saved_disk_index tc w v') as [Hl2 Hi2]. cbv zeta in Hl2, Hi2.
  eexists. split; [apply load_listing, Hl|]. split; [reflexivity|].
  cbn [snd]. rewrite load_listing by (rewrite Hl2; exact Hl').
  rewrite Hi2, Hids'. f_equal.
  assert (Hnew : existsb (is_id (tc_id tc)) (index_ids (disk w)) = false).
  { apply not_true_is_false. intros E. apply existsb_exists in E as (v & Hv & Hv').
    rewrite Forall_forall in Hids. apply list_elem_of_In, Hids in Hv as [Hv _].
    destruct v; try discriminate. simpl in Hv, Hv'.
    apply text_eqb_eq in Hv'. congruence. }
  rewrite Hnew, omap_app. f_equal.
  - apply omap_ext_Forall. eapply Forall_impl; [exact Hids|].
    intros v Hv. apply (saved_disk_load_case py_str tc w v' v Hid), Hv.
  - cbn [omap list_omap].
    rewrite (proj1 (saved_disk_load_case py_str tc w v' (JStr (tc_id tc)) Hid) eq_refl).
    reflexivity.
Qed.

(** X6.  Saving a case and loading the dataset again gives the cases
    loaded before, followed by the saved case: provided the index file
    lists its ids, none of which names the file of the new case or the
    index file itself.  Neither call raises. *)
Theorem load_after_save (py_str : json -> text) (tc : Dataset.test_case) (w : world) :
  tc_id tc <> txt "index" ->
  index_is_listing (disk w) = true ->
  Forall (names_other_file py_str (tc_id tc)) (index_ids (disk w)) ->
  let o := save_test_case tc w in
  exists l,
    load_existing_dataset py_str (disk w) = Some l
    /\ fst o = Returned
    /\ load_existing_dataset py_str (disk (snd o)) = Some (l ++ [JObj (tc_dict tc)]).
Proof. apply save_then_load. Qed.

(** Witness of X6: a second generated case saved next to the first. *)
Lemma load_after_save_witness :
  let py_str := fun _ : json => txt "?" in
  let tc1 := generate_test_case (txt "llama3.2") 1 2000 (txt "Summarize it.") None in
  let tc2 := generate_test_case (txt "llama3.2") 2 2000 (txt "Continue the list.") None in
  let w := snd (save_test_case tc1 (mk_world ∅ [])) in
  load_existing_dataset py_str (disk w) = Some [JObj (tc_dict tc1)]
  /\ load_existing_dataset py_str (disk (snd (save_test_case tc2 w)))
     = Some [JObj (tc_dict tc1); JObj (tc_dict tc2)].
Proof.
  intros py_str tc1 tc2 w.
  assert (Hid : tc_id tc2 <> txt "index") by discriminate.
  assert (Hl : index_is_listing (disk w) = true) by reflexivity.
  assert (Hids : Forall (names_other_file py_str (tc_id tc2)) (index_ids (disk w))).
  { repeat constructor; discriminate. }
  destruct (load_after_save py_str tc2 w Hid Hl Hids) as (l & Hbefore & _ & Hafter).
  assert (Hl1 : load_existing_dataset py_str (disk w) = Some [JObj (tc_dict tc1)])
    by reflexivity.
  split; [exact Hl1|].
  rewrite Hl1 in Hbefore. injection Hbefore as <-. exact Hafter.
Defined.

(** X7.  Whatever else the index lists, a case saved into a directory
    whose index file lists its ids is among the cases loaded afterwards,
    whether its id was listed before (the case file is replaced) or not. *)
Theorem saved_case_is_loaded (py_str : json -> text) (tc : Dataset.test_case)
    (w : world) :
  tc_id tc <> txt "index" ->
  index_is_listing (disk w) = true ->
  let o := save_test_case tc w in
  fst o = Returned
  /\ exists l, load_existing_dataset py_str (disk (snd o)) = Some l
               /\ JObj (tc_dict tc) ∈ l.
Proof.
  intros Hid Hl o. subst o.
  destruct (save_listing tc w Hid Hl) as (v' & -> & Hl' & Hids').
  destruct (saved_disk_index tc w v') as [Hl2 Hi2]. cbv zeta in Hl2, Hi2.
  split; [reflexivity|]. cbn [snd].
  eexists. split; [apply load_listing; rewrite Hl2; exact Hl'|].
  rewrite Hi2. apply list_elem_of_omap. exists (JStr (tc_id tc)). split.
  - rewrite Hids'. apply elem_of_app.
    destruct (existsb (is_id (tc_id tc)) (index_ids (disk w))) eqn:E.
    + left. apply existsb_exists in E as (v & Hv & Hv').
      destruct v; try discriminate. simpl in Hv'. apply text_eqb_eq in Hv' as ->.
      apply list_elem_of_In, Hv.
    + right. left.
  - apply (saved_disk_load_case py_str tc w v' (JStr (tc_id tc)) Hid). reflexivity.
Qed.

(** Witness of X7: a generated case saved over its earlier version. *)
Lemma saved_case_is_loaded_witness :
  let py_str := fun _ : json => txt "?" in
  let tc1 := generate_test_case (txt "llama3.2") 1 2000 (txt "Summarize it.") None in
  let tc2 := generate_test_case (txt "llama3.2") 1 2000 (txt "Continue the list.") None in
  let w := snd (save_test_case tc1 (mk_world ∅ [])) in
  load_existing_dataset py_str (disk (snd (save_test_case tc2 w)))
  = Some [JObj (tc_dict tc2)].
Proof.
  intros py_str tc1 tc2 w.
  assert (Hid : tc_id tc2 <> txt "index") by discriminate.
  assert (Hl : index_is_listing (disk w) = true) by reflexivity.
  destruct (saved_case_is_loaded py_str tc2 w Hid Hl) as (_ & l & Hload & _).
  rewrite Hload. f_equal.
  assert (Hl2 : load_existing_dataset py_str (disk (snd (save_test_case tc2 w)))
                = Some [JObj (tc_dict tc2)]) by reflexivity.
  rewrite Hl2 in Hload. injection Hload as <-. reflexivity.
Defined.

Lemma load_case_unreadable (py_str : json -> text) (d d' : gmap text file)
    (id : text) (l : list json) :
  (forall path, path <> case_path id -> d' !! path = d !! path) ->
  match d' !! case_path id with Some (FJson _) => False | _ => True end ->
  omap (load_case py_str d') l
  = omap (load_case py_str d) (filter (fun v => str_of py_str v <> id) l).
Proof.
  intros Hframe Hbad. induction l as [|v l IH]; [reflexivity|].
  rewrite filter_cons. cbn [omap list_omap].
  fold (omap (load_case py_str d') l). rewrite IH.
  destruct (decide (str_of py_str v <> id)) as [E|E].
  - cbn [omap list_omap]. unfold load_case at 1 3.
    rewrite Hframe; [reflexivity|]. intros E'. apply case_path_inj in E'. contradiction.
  - apply dec_stable in E. unfold load_case at 1. rewrite E.
    destruct (d' !! case_path id) as [[v'|raw]|]; [contradiction|reflexivity..].
Qed.

(** X8.  The loader survives damaged case files: when the file of a listed
    case is deleted or replaced by text that does not parse, no exception
    is raised and the result is what was loaded from the other listed ids.
    With no index file, or one that does not parse, nothing is loaded. *)
Theorem load_skips_unreadable_cases (py_str : json -> text) (d : gmap text file)
    (id raw : text) :
  id <> txt "index" ->
  index_is_listing d = true ->
  let others :=
    omap (load_case py_str d)
         (filter (fun v => str_of py_str v <> id) (index_ids d)) in
  load_existing_dataset py_str (<[case_path id := FOther raw]> d) = Some others
  /\ load_existing_dataset py_str (delete (case_path id) d) = Some others
  /\ (forall d', match d' !! index_path with Some (FJson _) => False | _ => True end ->
        load_existing_dataset py_str d' = Some []).
Proof.
  intros Hid Hl others.
  assert (Hcp : case_path id <> index_path).
  { intros E. apply case_path_index in E. contradiction. }
  assert (H1 : forall d', d' !! index_path = d !! index_path ->
                 index_is_listing d' = true /\ index_ids d' = index_ids d).
  { intros d' E. unfold index_is_listing, index_ids in *. rewrite E. auto. }
  split; [|split].
  - destruct (H1 (<[case_path id := FOther raw]> d)) as [Hl' Hi'].
    { apply lookup_insert_ne, Hcp. }
    rewrite load_listing by exact Hl'. rewrite Hi'. f_equal.
    apply load_case_unreadable.
    + intros path Hp. apply lookup_insert_ne. congruence.
    + rewrite lookup_insert_eq. exact I.
  - destruct (H1 (delete (case_path id) d)) as [Hl' Hi'].
    { apply lookup_delete_ne, Hcp. }
    rewrite load_listing by exact Hl'. rewrite Hi'. f_equal.
    apply load_case_unreadable.
    + intros path Hp. apply lookup_delete_ne. congruence.
    + rewrite lookup_delete_eq. exact I.
  - intros d' Hd'. unfold load_existing_dataset.
    destruct (d' !! index_path) as [[v|raw']|]; [contradiction|reflexivity..].
Qed.

(** Witness of X8: the first of two saved cases is damaged. *)
Lemma load_skips_unreadable_cases_witness :
  let py_str := fun _ : json => txt "?" in
  let tc1 := generate_test_case (txt "llama3.2") 1 2000 (txt "Summarize it.") None in
  let tc2 := generate_test_case (txt "llama3.2") 2 2000 (txt "Continue the list.") None in
  let w := snd (save_test_case tc2 (snd (save_test_case tc1 (mk_world ∅ [])))) in
  load_existing_dataset py_str (disk w) = Some [JObj (tc_dict tc1); JObj (tc_dict tc2)]
  /\ load_existing_dataset py_str
       (<[case_path (tc_id tc1) := FOther (txt "{")]> (disk w))
     = Some [JObj (tc_dict tc2)].
Proof.
  intros py_str tc1 tc2 w.
  assert (Hid : tc_id tc1 <> txt "index") by discriminate.
  assert (Hl : index_is_listing (disk w) = true) by reflexivity.
  split; [reflexivity|].
  destruct (load_skips_unreadable_cases py_str (disk w) (tc_id tc1) (txt "{") Hid Hl)
    as (Hload & _ & _).
  rewrite Hload. f_equal.
Defined.

(** ** The store invariant *)

Lemma stored_case_saved (tc : Dataset.test_case) (w : world) (index_data v : json) :
  let w' := write_file index_path (FJson index_data)
              (write_file (case_path (tc_id tc)) (FJson (JObj (tc_dict tc))) (mkdir w)) in
  tc_id tc <> txt "index" ->
  stored_case (disk w) v \/ v = JStr (tc_id tc) ->
  stored_case (disk w') v.
Proof.
  cbv zeta. intros Hid Hv. cbn [disk write_file mkdir].
  assert (Hnew : stored_case
                   (<[index_path := FJson index_data]>
                      (<[case_path (tc_id tc) := FJson (JObj (tc_dict tc))]> (disk w)))
                   (JStr (tc_id tc))).
  { exists (tc_id tc), (tc_dict tc). split; [reflexivity|]. split; [exact Hid|]. split.
    - rewrite lookup_insert_ne, lookup_insert_eq; [reflexivity|].
      intros E. symmetry in E. apply case_path_index in E. contradiction.
    - unfold tc_dict. cbn [dict_get]. rewrite text_eqb_refl. reflexivity. }
  destruct Hv as [(id & fields & -> & Hid' & Hfile & Hget)| ->]; [|exact Hnew].
  destruct (decide (id = tc_id tc)) as [->|Hne]; [exact Hnew|].
  exists id, fields. split; [reflexivity|]. split; [exact Hid'|]. split; [|exact Hget].
  rewrite !lookup_insert_ne; [exact Hfile| |].
  - intros E. apply case_path_inj in E. congruence.
  - intros E. symmetry in E. apply case_path_index in E. contradiction.
Qed.

Lemma save_consistent (tc : Dataset.test_case) (w : world) :
  tc_id tc <> txt "index" ->
  consistent (disk w) ->
  let o := save_test_case tc w in
  fst o = Returned
  /\ consistent (disk (snd o))
  /\ stored_case (disk (snd o)) (JStr (tc_id tc))
  /\ JStr (tc_id tc) ∈ index_ids (disk (snd o)).
Proof.
  intros Hid [Hl Hstored] o. subst o.
  destruct (save_listing tc w Hid Hl) as (v' & -> & Hl' & Hids').
  destruct (saved_disk_index tc w v') as [Hl2 Hi2]. cbv zeta in Hl2, Hi2.
  cbn [fst snd]. split; [reflexivity|].
  assert (Hin : JStr (tc_id tc) ∈ ids_of v').
  { rewrite Hids'. apply elem_of_app.
    destruct (existsb (is_id (tc_id tc)) (index_ids (disk w))) eqn:E.
    - left. apply existsb_exists in E as (v & Hv & Hv').
      destruct v; try discriminate. simpl in Hv'. apply text_eqb_eq in Hv' as ->.
      apply list_elem_of_In, Hv.
    - right. left. }
  split; [|split].
  - split; [rewrite Hl2; exact Hl'|]. rewrite Hi2, Hids'.
    apply Forall_app. split.
    + eapply Forall_impl; [exact Hstored|]. intros v Hv.
      apply (stored_case_saved tc w v' v Hid). left. exact Hv.
    + destruct (existsb _ _); constructor; [|constructor].
      apply (stored_case_saved tc w v' _ Hid). right. reflexivity.
  - apply (stored_case_saved tc w v' _ Hid). right. reflexivity.
  - rewrite Hi2. exact Hin.
Qed.

(** X9.  Saving keeps the directory in order: if the index lists its ids
    and every listed id has a case file holding a dictionary with that id,
    the same is true after a case has been saved, and the call returns. *)
Theorem save_test_case_consistent (tc : Dataset.test_case) (w : world) :
  tc_id tc <> txt "index" ->
  consistent (disk w) ->
  let o := save_test_case tc w in
  fst o = Returned
  /\ consistent (disk (snd o))
  /\ stored_case (disk (snd o)) (JStr (tc_id tc))
  /\ JStr (tc_id tc) ∈ index_ids (disk (snd o)).
Proof. apply save_consistent. Qed.

(** Witness of X9: a generated case saved into an empty directory. *)
Lemma save_test_case_consistent_witness :
  let tc := generate_test_case (txt "llama3.2") 1 2000 (txt "Summarize it.") None in
  consistent (disk (snd (save_test_case tc (mk_world ∅ [])))).
Proof.
  intros tc.
  assert (Hid : tc_id tc <> txt "index") by discriminate.
  assert (Hc : consistent (disk (mk_world ∅ []))).
  { split; [reflexivity|constructor]. }
  exact (proj1 (proj2 (save_test_case_consistent tc (mk_world ∅ []) Hid Hc))).
Defined.

(** ** The generation loop *)

Lemma consistent_load (py_str : json -> text) (d : gmap text file) :
  consistent d ->
  exists cases,
    load_existing_dataset py_str d = Some cases
    /\ mapM loaded_id cases = Some (index_ids d)
    /\ len cases = len (index_ids d).
Proof.
  intros [Hl Hs]. rewrite (load_listing py_str d Hl).
  eexists. split; [reflexivity|].
  assert (H : Forall2 (fun c v => loaded_id c = Some v)
                (omap (load_case py_str d) (index_ids d)) (index_ids d)).
  { induction Hs as [|v l (id & fields & -> & Hid & Hfile & Hget) _ IH];
      [constructor|].
    cbn [omap list_omap]. unfold load_case at 1. cbn [str_of]. rewrite Hfile.
    constructor; [|exact IH]. unfold loaded_id. rewrite Hget. reflexivity. }
  split.
  - apply mapM_Some. exact H.
  - unfold len. f_equal. eapply Forall2_length, H.
Qed.

Lemma generated_case_id (gen : Z -> generated) (model : text) (tokens i : Z)
    (tc : Dataset.test_case) :
  generated_case gen model tokens i = Some tc -> tc_id tc = generated_id i.
Proof.
  unfold generated_case. destruct (gen i); try discriminate.
  intros [= <-]. reflexivity.
Qed.

Lemma generated_id_inj (i j : Z) : generated_id i = generated_id j -> i = j.
Proof.
  unfold generated_id. intros H. apply app_inv_head in H.
  rewrite <- (signed_value_format_04d i), H. apply signed_value_format_04d.
Qed.

Lemma not_listed (id : text) (l : list json) :
  existsb (is_id id) l = false <-> JStr id ∉ l.
Proof.
  split.
  - intros H Hin. apply not_true_iff_false in H. apply H.
    apply existsb_exists. exists (JStr id). split; [apply list_elem_of_In, Hin|].
    simpl. apply text_eqb_refl.
  - intros H. apply not_true_is_false. intros E.
    apply existsb_exists in E as (v & Hv & Hv').
    destruct v; try discriminate. simpl in Hv'. apply text_eqb_eq in Hv' as ->.
    apply H, list_elem_of_In, Hv.
Qed.

Section Loop.
Variable py_str : json -> text.
Variable gen : Z -> generated.
Variables (model : text) (tokens : Z).
Variables (w0 : world) (cases0 : list json).

Lemma main_step_invariant (i : Z) (st : run) :
  loop_invariant py_str w0 cases0 st ->
  let st' := snd (main_step gen model tokens i st) in
  loop_invariant py_str w0 cases0 st'
  /\ new_test_cases st'
     = new_test_cases st
       ++ (if existsb (is_id (generated_id i)) (existing_ids st) then []
           else option_list (generated_case gen model tokens i)).
Proof.
  intros Hinv. cbv zeta. unfold main_step, generated_case.
  destruct (gen i) as [prompt messages| |];
    try (cbn [snd option_list]; destruct (existsb _ _); rewrite app_nil_r; auto).
  set (tc := generate_test_case model i tokens prompt messages).
  change (tc_id tc) with (generated_id i).
  destruct (existsb (is_id (generated_id i)) (existing_ids st)) eqn:E;
    [cbn [snd]; rewrite app_nil_r; auto|].
  destruct Hinv as (Hc & Hex & Hids & Hload).
  assert (Hid : tc_id tc <> txt "index") by discriminate.
  destruct (save_consistent tc (run_world st) Hid Hc) as (Hret & Hc' & _ & _).
  assert (Hnew : existsb (is_id (tc_id tc)) (index_ids (disk (run_world st))) = false).
  { rewrite <- Hex. exact E. }
  assert (Hids' : index_ids (disk (snd (save_test_case tc (run_world st))))
                  = index_ids (disk (run_world st)) ++ [JStr (tc_id tc)]).
  { destruct (save_listing tc (run_world st) Hid (proj1 Hc)) as (v' & -> & _ & Hv').
    cbn [snd]. rewrite (proj2 (saved_disk_index tc (run_world st) v')), Hv', Hnew.
    reflexivity. }
  assert (Hother : Forall (names_other_file py_str (tc_id tc))
                     (index_ids (disk (run_world st)))).
  { destruct Hc as [_ Hs]. rewrite Forall_forall in Hs. apply Forall_forall.
    intros v Hv. destruct (Hs v Hv) as (id & fields & -> & Hid' & _).
    split; [|exact Hid']. cbn [str_of]. intros ->.
    apply not_listed in Hnew. contradiction. }
  destruct (save_then_load py_str tc (run_world st) Hid (proj1 Hc) Hother)
    as (l & Hl & _ & Hl').
  destruct (save_test_case tc (run_world st)) as [[|] w'];
    cbn [fst snd] in *; [|discriminate].
  cbn [option_list]. split; [|reflexivity].
  unfold loop_invariant. cbn [run_world new_test_cases existing_ids].
  split; [exact Hc'|]. rewrite !map_app, !app_assoc. cbn [map].
  split; [rewrite Hids', Hex; reflexivity|].
  split; [rewrite Hids', Hids; reflexivity|].
  rewrite Hl'. rewrite Hload in Hl. injection Hl as <-. reflexivity.
Qed.
Lemma main_step_flag (i : Z) (st : run) :
  fst (main_step gen model tokens i st) = true \/ main_step gen model tokens i st = (false, st).
Proof.
  unfold main_step. destruct (gen i); auto.
  destruct (existsb _ _); auto.
  destruct (save_test_case _ _) as [[|] w']; auto.
Qed.

Lemma omap_cons_option_list {A B} (f : A -> option B) (x : A) (l : list A) :
  omap f (x :: l) = option_list (f x) ++ omap f l.
Proof. cbn [omap list_omap]. destruct (f x); reflexivity. Qed.

Lemma main_loop_invariant (ids : list Z) (st : run) :
  loop_invariant py_str w0 cases0 st ->
  loop_invariant py_str w0 cases0 (main_loop gen model tokens ids st)
  /\ exists added,
       new_test_cases (main_loop gen model tokens ids st) = new_test_cases st ++ added
       /\ sublist added (omap (generated_case gen model tokens) ids).
Proof.
  revert st; induction ids as [|i ids IH]; intros st Hinv; cbn [main_loop].
  - split; [exact Hinv|]. exists []. rewrite app_nil_r. split; [reflexivity|constructor].
  - destruct (main_step_invariant i st Hinv) as [Hinv' Hnew]. cbv zeta in Hinv', Hnew.
    rewrite omap_cons_option_list.
    destruct (main_step_flag i st) as [Hgo|Hstop].
    + destruct (main_step gen model tokens i st) as [go st']. cbn [fst snd] in *.
      subst go. destruct (IH st' Hinv') as (Hfinal & added & Hadded & Hsub).
      split; [exact Hfinal|]. eexists. rewrite Hadded, Hnew, <- app_assoc.
      split; [reflexivity|]. apply sublist_app; [|exact Hsub].
      destruct (existsb _ _); [apply sublist_nil_l|reflexivity].
    + rewrite Hstop. split; [exact Hinv|]. exists []. rewrite app_nil_r.
      split; [reflexivity|apply sublist_nil_l].
Qed.

Lemma main_loop_complete (ids : list Z) (st : run) :
  loop_invariant py_str w0 cases0 st ->
  NoDup ids ->
  (forall i, i ∈ ids -> gen i <> Interrupted) ->
  (forall i, i ∈ ids -> JStr (generated_id i) ∉ existing_ids st) ->
  new_test_cases (main_loop gen model tokens ids st)
  = new_test_cases st ++ omap (generated_case gen model tokens) ids.
Proof.
  revert st; induction ids as [|i ids IH]; intros st Hinv Hnd Hgen Hfresh;
    cbn [main_loop].
  - rewrite app_nil_r. reflexivity.
  - destruct (main_step_invariant i st Hinv) as [Hinv' Hnew]. cbv zeta in Hinv', Hnew.
    rewrite omap_cons_option_list.
    assert (Hi : existsb (is_id (generated_id i)) (existing_ids st) = false).
    { apply not_listed, Hfresh. left. }
    rewrite Hi in Hnew.
    destruct (main_step_flag i st) as [Hgo|Hstop].
    + destruct (main_step gen model tokens i st) as [go st'] eqn:Hstep.
      cbn [fst snd] in *. subst go.
      apply NoDup_cons in Hnd as [Hni Hnd].
      rewrite (IH st' Hinv' Hnd), Hnew, <- app_assoc; [reflexivity| |].
      * intros j Hj. apply Hgen. right. exact Hj.
      * intros j Hj.
        destruct Hinv as (_ & Hex & Hids & _). destruct Hinv' as (_ & Hex' & Hids' & _).
        rewrite Hex', Hids', Hnew, map_app, app_assoc, <- Hids, <- Hex.
        intros Hin. apply elem_of_app in Hin as [Hin|Hin].
        -- revert Hin. apply Hfresh. right. exact Hj.
        -- destruct (generated_case gen model tokens i) as [tc|] eqn:Hc;
             cbn [option_list map] in Hin; [|inversion Hin].
           apply list_elem_of_singleton in Hin. injection Hin as Hin.
           rewrite (generated_case_id _ _ _ _ _ Hc) in Hin.
           apply generated_id_inj in Hin. subst j. contradiction.
    + exfalso. apply (Hgen i); [left|].
      unfold main_step in Hstop. destruct (gen i); [|discriminate|reflexivity].
      destruct (existsb _ _); [discriminate|].
      destruct (save_test_case _ _) as [[|] w']; discriminate.
Qed.
End Loop.

Lemma case_numbers_spec (start_id count i : Z) :
  i ∈ case_numbers start_id count <-> start_id <= i < start_id + count.
Proof.
  unfold case_numbers, range. rewrite list_elem_of_fmap. split.
  - intros (k & -> & Hk). apply list_elem_of_fmap in Hk as (n & -> & Hn).
    apply elem_of_seq in Hn. lia.
  - intros H. exists (i - start_id). split; [lia|].
    apply list_elem_of_fmap. exists (Z.to_nat (i - start_id)). split; [lia|].
    apply elem_of_seq. lia.
Qed.

Lemma case_numbers_NoDup (start_id count : Z) : NoDup (case_numbers start_id count).
Proof.
  unfold case_numbers, range. apply NoDup_fmap; [intros a b; lia|].
  apply NoDup_fmap; [intros a b; lia|]. apply NoDup_seq.
Qed.

Lemma len_case_numbers (start_id count : Z) :
  len (case_numbers start_id count) = Z.max 0 count.
Proof.
  unfold case_numbers, len. rewrite length_map. apply len_range.
Qed.

Lemma len_omap_le {A B} (f : A -> option B) (l : list A) : len (omap f l) <= len l.
Proof.
  unfold len. induction l as [|x l IH]; [reflexivity|].
  cbn [omap list_omap]. fold (omap f l). destruct (f x); simpl length; lia.
Qed.

Lemma omap_all {A B C} (f : A -> option B) (g : B -> C) (h : A -> C) (l : list A) :
  Forall (fun x => exists y, f x = Some y /\ g y = h x) l ->
  map g (omap f l) = map h l /\ len (omap f l) = len l.
Proof.
  induction 1 as [|x l (y & Hy & Hg) _ [IH1 IH2]]; [split; reflexivity|].
  cbn [omap list_omap map]. rewrite Hy. fold (omap f l).
  cbn [map]. rewrite IH1, Hg, !len_cons, IH2. auto.
Qed.

Lemma main_start (py_str : json -> text) (gen : Z -> generated) (model : text)
    (tokens : Z) (connected : bool) (count : Z) (w : world) :
  consistent (disk w) ->
  exists cases,
    load_existing_dataset py_str (disk w) = Some cases
    /\ len cases = len (index_ids (disk w))
    /\ loop_invariant py_str w cases (mk_run w [] (index_ids (disk w)))
    /\ main py_str gen model tokens connected count w
       = Some (if connected
               then main_loop gen model tokens (case_numbers (len cases + 1) count)
                      (mk_run w [] (index_ids (disk w)))
               else mk_run w [] (index_ids (disk w))).
Proof.
  intros Hc. destruct (consistent_load py_str (disk w) Hc) as (cases & Hload & Hids & Hlen).
  exists cases. split; [exact Hload|]. split; [exact Hlen|]. split.
  - unfold loop_invariant. cbn [run_world new_test_cases existing_ids map].
    rewrite !app_nil_r. auto.
  - unfold main. rewrite Hload, Hids. destruct connected; reflexivity.
Qed.

(** X10.  Run in a directory that is in order, [main] does not fail
    before or in its loop and leaves the directory in order: the index
    lists the ids it listed followed by the ids of the new cases, loading
    the dataset gives the cases loaded at the start followed by the new
    ones, the new cases are generated cases of this run in the order of
    their numbers, at most [count] of them, and nothing is written when
    the connection test fails. *)
Theorem main_extends_dataset (py_str : json -> text) (gen : Z -> generated)
    (model : text) (tokens : Z) (connected : bool) (count : Z) (w : world) :
  consistent (disk w) ->
  exists cases st,
    load_existing_dataset py_str (disk w) = Some cases
    /\ main py_str gen model tokens connected count w = Some st
    /\ consistent (disk (run_world st))
    /\ index_ids (disk (run_world st))
       = index_ids (disk w) ++ map (fun tc => JStr (tc_id tc)) (new_test_cases st)
    /\ load_existing_dataset py_str (disk (run_world st))
       = Some (cases ++ map (fun tc => JObj (tc_dict tc)) (new_test_cases st))
    /\ sublist (new_test_cases st)
         (omap (generated_case gen model tokens) (case_numbers (len cases + 1) count))
    /\ len (new_test_cases st) <= Z.max 0 count
    /\ (connected = false -> run_world st = w /\ new_test_cases st = []).
Proof.
  intros Hc.
  destruct (main_start py_str gen model tokens connected count w Hc)
    as (cases & Hload & Hlen & Hinv & Hmain).
  exists cases. eexists. split; [exact Hload|]. split; [exact Hmain|].
  destruct connected.
  - destruct (main_loop_invariant py_str gen model tokens w cases
                (case_numbers (len cases + 1) count) _ Hinv)
      as ((Hc' & _ & Hids & Hload') & added & Hadded & Hsub).
    cbn [new_test_cases app] in Hadded. rewrite <- Hadded in Hsub.
    split; [exact Hc'|]. split; [exact Hids|]. split; [exact Hload'|].
    split; [exact Hsub|]. split; [|discriminate].
    apply sublist_length in Hsub.
    pose proof (len_omap_le (generated_case gen model tokens)
                  (case_numbers (len cases + 1) count)) as Hle.
    rewrite len_case_numbers in Hle. unfold len in *. lia.
  - destruct Hinv as (Hc' & _ & Hids & Hload').
    cbn [run_world new_test_cases] in *.
    split; [exact Hc'|]. split; [exact Hids|]. split; [exact Hload'|].
    split; [apply sublist_nil_l|]. split; [|auto].
    change (len (@nil Dataset.test_case)) with 0. lia.
Qed.

(** Witness of X10: two cases generated into an empty directory. *)
Lemma main_extends_dataset_witness :
  let py_str := fun _ : json => txt "?" in
  let gen := fun _ : Z => Generated (txt "Summarize it.") None in
  let model := txt "llama3.2" in
  exists st,
    main py_str gen model 2000 true 2 (mk_world ∅ []) = Some st
    /\ index_ids (disk (run_world st))
       = [JStr (txt "ollama-gen-0001"); JStr (txt "ollama-gen-0002")].
Proof.
  intros py_str gen model.
  assert (Hc : consistent (disk (mk_world ∅ []))).
  { split; [reflexivity|constructor]. }
  destruct (main_extends_dataset py_str gen model 2000 true 2 (mk_world ∅ []) Hc)
    as (cases & st & _ & Hmain & _).
  exists st. split; [exact Hmain|].
  assert (Hrun : main py_str gen model 2000 true 2 (mk_world ∅ [])
                 = Some (main_loop gen model 2000 [1; 2] (mk_run (mk_world ∅ []) [] [])))
    by reflexivity.
  rewrite Hrun in Hmain. injection Hmain as <-. reflexivity.
Defined.

(** X11.  In a directory that is in order, when no keyboard interrupt
    arrives and none of the ids of the case numbers of the run is listed
    yet, the run adds one case for every case number whose generation
    succeeds: [count] cases, numbered from the number of existing cases
    plus one, when every generation succeeds. *)
Theorem main_generates_every_case (py_str : json -> text) (gen : Z -> generated)
    (model : text) (tokens : Z) (count : Z) (w : world) :
  consistent (disk w) ->
  let start_id := len (index_ids (disk w)) + 1 in
  (forall i, start_id <= i < start_id + count ->
     gen i <> Interrupted /\ JStr (generated_id i) ∉ index_ids (disk w)) ->
  exists st,
    main py_str gen model tokens true count w = Some st
    /\ new_test_cases st
       = omap (generated_case gen model tokens) (case_numbers start_id count)
    /\ ((forall i, start_id <= i < start_id + count -> gen i <> Failed) ->
          map tc_id (new_test_cases st)
          = map generated_id (case_numbers start_id count)
          /\ len (new_test_cases st) = Z.max 0 count).
Proof.
  intros Hc start_id Hgen.
  destruct (main_start py_str gen model tokens true count w Hc)
    as (cases & Hload & Hlen & Hinv & Hmain).
  eexists. split; [exact Hmain|]. rewrite Hlen. fold start_id.
  assert (Hnew : new_test_cases
                   (main_loop gen model tokens (case_numbers start_id count)
                      (mk_run w [] (index_ids (disk w))))
                 = omap (generated_case gen model tokens) (case_numbers start_id count)).
  { rewrite (main_loop_complete py_str gen model tokens w cases); [reflexivity| | | |].
    - exact Hinv.
    - apply case_numbers_NoDup.
    - intros i Hi. apply case_numbers_spec in Hi. apply Hgen, Hi.
    - intros i Hi. apply case_numbers_spec in Hi. apply Hgen, Hi. }
  split; [exact Hnew|]. intros Hok. rewrite Hnew.
  assert (Hall : Forall (fun i => exists tc, generated_case gen model tokens i = Some tc
                                             /\ tc_id tc = generated_id i)
                   (case_numbers start_id count)).
  { apply Forall_forall. intros i Hi. apply case_numbers_spec in Hi.
    destruct (Hgen i Hi) as [Hint _]. specialize (Hok i Hi).
    unfold generated_case. destruct (gen i); [|contradiction..].
    eexists. split; reflexivity. }
  rewrite <- len_case_numbers with (start_id := start_id).
  apply omap_all, Hall.
Qed.

(** Witness of X11: a run of three cases resumed after a first case. *)
Lemma main_generates_every_case_witness :
  let py_str := fun _ : json => txt "?" in
  let gen := fun _ : Z => Generated (txt "Summarize it.") None in
  let model := txt "llama3.2" in
  let w := snd (save_test_case (generate_test_case model 1 2000 (txt "Hello.") None)
                  (mk_world ∅ [])) in
  exists st,
    main py_str gen model 2000 true 3 w = Some st
    /\ map tc_id (new_test_cases st)
       = [txt "ollama-gen-0002"; txt "ollama-gen-0003"; txt "ollama-gen-0004"].
Proof.
  intros py_str gen model w.
  assert (Hc : consistent (disk w)).
  { split; [reflexivity|]. repeat constructor.
    eexists _, _. split; [reflexivity|]. split; [discriminate|].
    split; reflexivity. }
  assert (Hgen : forall i, len (index_ids (disk w)) + 1 <= i
                           < len (index_ids (disk w)) + 1 + 3 ->
                   gen i <> Interrupted /\ JStr (generated_id i) ∉ index_ids (disk w)).
  { intros i Hi. split; [discriminate|].
    change (index_ids (disk w)) with [JStr (generated_id 1)].
    intros Hin. apply list_elem_of_singleton in Hin.
    apply (f_equal (fun v => match v with JStr s => s | _ => [] end)) in Hin.
    cbv beta iota in Hin. apply generated_id_inj in Hin. subst i.
    change (len (index_ids (disk w))) with 1 in Hi. lia. }
  destruct (main_generates_every_case py_str gen model 2000 3 w Hc Hgen)
    as (st & Hmain & _ & Hids).
  exists st. split; [exact Hmain|].
  destruct Hids as [Hids _]; [discriminate|]. exact Hids.
Defined.

Section Frame.
Variable gen : Z -> generated.
Variables (model : text) (tokens : Z).
Variables (ids0 : list json) (w : world).

Lemma main_step_frame (i : Z) (st : run) :
  loop_frame gen model tokens ids0 w st ->
  loop_frame gen model tokens ids0 w (snd (main_step gen model tokens i st)).
Proof.
  intros Hf. unfold main_step.
  destruct (gen i) as [prompt messages| |] eqn:Hgen; try exact Hf.
  set (tc := generate_test_case model i tokens prompt messages).
  destruct (existsb (is_id (tc_id tc)) (existing_ids st)) eqn:E; [exact Hf|].
  destruct Hf as ((added & Hadded) & (events & Htrace & Hevents) & Hframe).
  assert (Hfresh : existsb (is_id (tc_id tc)) ids0 = false).
  { rewrite Hadded, existsb_app in E. apply orb_false_iff in E. apply E. }
  assert (Hcase : loop_event gen model tokens ids0
                    (EWrite (case_path (tc_id tc)) (FJson (JObj (tc_dict tc))))).
  { right. exists i, prompt, messages. auto. }
  assert (Hdisk : forall id, JStr id ∈ ids0 -> id <> txt "index" ->
            forall v, <[index_path := v]>
                        (<[case_path (tc_id tc) := FJson (JObj (tc_dict tc))]>
                           (disk (run_world st))) !! case_path id
                      = disk w !! case_path id
                      /\ <[case_path (tc_id tc) := FJson (JObj (tc_dict tc))]>
                           (disk (run_world st)) !! case_path id
                         = disk w !! case_path id).
  { intros id Hin Hid v.
    assert (Hne : case_path (tc_id tc) <> case_path id).
    { intros Heq. apply case_path_inj in Heq. apply not_listed in Hfresh.
      rewrite Heq in Hfresh. contradiction. }
    rewrite lookup_insert_ne, !lookup_insert_ne by
      (try exact Hne; intros Heq; symmetry in Heq; apply case_path_index in Heq;
       contradiction).
    split; apply Hframe; assumption. }
  rewrite save_test_case_unfold. cbv zeta. fold tc.
  destruct (update_index tc _) as [index_data|];
    cbn [snd]; unfold loop_frame; cbn [run_world existing_ids disk trace write_file mkdir].
  - split; [exists (added ++ [JStr (tc_id tc)]); rewrite Hadded, app_assoc; reflexivity|].
    split.
    + eexists. rewrite Htrace, <- !app_assoc. split; [reflexivity|].
      apply Forall_app. split; [exact Hevents|].
      constructor; [exact I|]. constructor; [exact Hcase|].
      constructor; [left; reflexivity|constructor].
    + intros id Hin Hid. apply (Hdisk id Hin Hid).
  - split; [exists added; exact Hadded|]. split.
    + eexists. rewrite Htrace, <- !app_assoc. split; [reflexivity|].
      apply Forall_app. split; [exact Hevents|].
      constructor; [exact I|]. constructor; [exact Hcase|constructor].
    + intros id Hin Hid. apply (Hdisk id Hin Hid (FOther [])).
Qed.

Lemma main_loop_frame (ids : list Z) (st : run) :
  loop_frame gen model tokens ids0 w st ->
  loop_frame gen model tokens ids0 w (main_loop gen model tokens ids st).
Proof.
  revert st; induction ids as [|i ids IH]; intros st Hf; cbn [main_loop];
    [exact Hf|].
  pose proof (main_step_frame i st Hf) as Hf'.
  destruct (main_step gen model tokens i st) as [[|] st']; cbn [snd] in Hf'.
  - apply IH, Hf'.
  - exact Hf'.
Qed.
End Frame.

(** X12.  Whatever the directory holds, a run of [main] that reaches its
    loop only creates the directory, writes the index, and writes files
    of cases it generated whose id no loaded case has; the file of every
    loaded case (with an id other than [index]) is left as it was. *)
Theorem main_keeps_loaded_cases (py_str : json -> text) (gen : Z -> generated)
    (model : text) (tokens : Z) (connected : bool) (count : Z) (w : world)
    (st : run) :
  main py_str gen model tokens connected count w = Some st ->
  exists cases ids events,
    load_existing_dataset py_str (disk w) = Some cases
    /\ mapM loaded_id cases = Some ids
    /\ trace (run_world st) = trace w ++ events
    /\ Forall (loop_event gen model tokens ids) events
    /\ (forall id, JStr id ∈ ids -> id <> txt "index" ->
          disk (run_world st) !! case_path id = disk w !! case_path id).
Proof.
  unfold main.
  destruct (load_existing_dataset py_str (disk w)) as [cases|] eqn:Hload;
    [|discriminate].
  destruct (mapM loaded_id cases) as [ids|] eqn:Hids; [|discriminate].
  intros Hst. exists cases, ids.
  assert (Hf0 : loop_frame gen model tokens ids w (mk_run w [] ids)).
  { split; [exists []; cbn [existing_ids]; rewrite app_nil_r; reflexivity|].
    split; [exists []; cbn [run_world]; rewrite app_nil_r; split; [reflexivity|constructor]|].
    reflexivity. }
  assert (Hf : loop_frame gen model tokens ids w st).
  { destruct connected; injection Hst as <-; [|exact Hf0].
    apply main_loop_frame, Hf0. }
  destruct Hf as (_ & (events & Htrace & Hevents) & Hframe).
  exists events. split; [reflexivity|]. split; [exact Hids|].
  split; [exact Htrace|]. split; [exact Hevents|exact Hframe].
Qed.

(** Witness of X12: the loaded case keeps its file when its number comes
    up again. *)
Lemma main_keeps_loaded_cases_witness :
  let py_str := fun _ : json => txt "?" in
  let gen := fun _ : Z => Generated (txt "Summarize it.") None in
  let model := txt "llama3.2" in
  let tc2 := generate_test_case model 2 2000 (txt "Hello.") None in
  let w := snd (save_test_case tc2 (mk_world ∅ [])) in
  exists st,
    main py_str gen model 2000 true 2 w = Some st
    /\ disk (run_world st) !! case_path (tc_id tc2) = Some (FJson (JObj (tc_dict tc2)))
    /\ map tc_id (new_test_cases st) = [txt "ollama-gen-0003"].
Proof.
  intros py_str gen model tc2 w.
  assert (Hmain : main py_str gen model 2000 true 2 w
                  = Some (main_loop gen model 2000 [2; 3] (mk_run w [] [JStr (tc_id tc2)])))
    by reflexivity.
  eexists. split; [exact Hmain|].
  destruct (main_keeps_loaded_cases py_str gen model 2000 true 2 w _ Hmain)
    as (cases & ids & events & Hload & Hids & _ & _ & Hframe).
  assert (Hids' : ids = [JStr (tc_id tc2)]).
  { assert (Hl : load_existing_dataset py_str (disk w) = Some [JObj (tc_dict tc2)])
      by reflexivity.
    rewrite Hl in Hload. injection Hload as <-.
    assert (Hm : mapM loaded_id [JObj (tc_dict tc2)] = Some [JStr (tc_id tc2)])
      by reflexivity.
    rewrite Hm in Hids. injection Hids as <-. reflexivity. }
  split; [|reflexivity].
  rewrite (Hframe (tc_id tc2)); [reflexivity| |discriminate].
  rewrite Hids'. left.
Defined.

(** ** The files of a case *)

Section BatchFacts.
Import Batch.

Lemma path_join_relative (a b : text) :
  startswith (txt "/") b = false -> path_join a b = a ++ separator a ++ b.
Proof.
  intros H. unfold path_join, separator. rewrite H.
  destruct (_ || _); reflexivity.
Qed.

Lemma entry_files_paths (e : entry) :
  map fst (entry_files e)
  = map (fun name => e_test_dir e ++ separator (e_test_dir e) ++ txt name)
        ["prompt.txt"; "history.json"; "expected_output.json";
         "prompt_annotated.txt"]%string.
Proof.
  unfold entry_files. cbn [map fst].
  rewrite !path_join_relative by reflexivity. reflexivity.
Qed.

Lemma entry_files_NoDup (e : entry) : NoDup (map fst (entry_files e)).
Proof.
  rewrite entry_files_paths. apply NoDup_fmap_2.
  - intros x y H. do 2 apply app_inv_head in H.
    unfold txt in H. rewrite <- (string_of_list_ascii_of_string x),
      <- (string_of_list_ascii_of_string y), H. reflexivity.
  - repeat constructor; rewrite ?elem_of_cons, ?elem_of_nil; intuition discriminate.
Qed.

Lemma write_log (tc : MissingRef.test_case) (sector : text) (test_number : Z)
    (outdir : text) (s : fs) :
  let e := mk_entry tc sector test_number (test_dir_of outdir sector test_number) in
  write_test_case_files tc sector test_number outdir s
  = (e_test_dir e,
     {| files := foldl (fun m pc => <[fst pc := snd pc]> m) (files s) (entry_files e);
        log := log s ++ entry_events e |}).
Proof.
  cbv zeta. unfold write_test_case_files, write, makedirs. cbn [files log].
  rewrite <- !app_assoc. reflexivity.
Qed.

Lemma foldl_insert_lookup {V} (l : list (text * V)) (m : gmap text V) :
  NoDup (map fst l) ->
  (forall p c, (p, c) ∈ l ->
     foldl (fun m pc => <[fst pc := snd pc]> m) m l !! p = Some c)
  /\ (forall p, p ∉ map fst l ->
        foldl (fun m pc => <[fst pc := snd pc]> m) m l !! p = m !! p).
Proof.
  revert m; induction l as [|[q v] l IH]; intros m Hnd; cbn [foldl map fst snd] in *.
  - split; [intros p c H; inversion H|reflexivity].
  - apply NoDup_cons in Hnd as [Hq Hnd].
    destruct (IH (<[q := v]> m) Hnd) as [IH1 IH2]. split.
    + intros p c Hin. apply elem_of_cons in Hin as [[= -> ->]|Hin].
      * rewrite IH2 by exact Hq. apply lookup_insert_eq.
      * apply IH1, Hin.
    + intros p Hp. apply not_elem_of_cons in Hp as [Hpq Hp].
      rewrite IH2 by exact Hp. apply lookup_insert_ne. congruence.
Qed.

(** X13.  Writing a case creates its directory and then writes four
    different files in it: afterwards they hold the prompt, the messages,
    the expected output and the prompt annotated with the references of
    the case, and every other file is as it was. *)
Theorem write_test_case_files_layout (tc : MissingRef.test_case) (sector : text)
    (test_number : Z) (outdir : text) (s : fs) :
  let test_dir := test_dir_of outdir sector test_number in
  let e := mk_entry tc sector test_number test_dir in
  let s' := snd (write_test_case_files tc sector test_number outdir s) in
  fst (write_test_case_files tc sector test_number outdir s) = test_dir
  /\ log s' = log s ++ entry_events e
  /\ NoDup (map fst (entry_files e))
  /\ (forall p c, (p, c) ∈ entry_files e -> files s' !! p = Some c)
  /\ (forall p, p ∉ map fst (entry_files e) -> files s' !! p = files s !! p).
Proof.
  cbv zeta. rewrite write_log. cbv zeta. cbn [fst snd files log e_test_dir].
  split; [reflexivity|]. split; [reflexivity|].
  split; [apply entry_files_NoDup|].
  apply foldl_insert_lookup, entry_files_NoDup.
Qed.

(** *** Paths *)

Lemma replace_slash_no_slash (s : text) :
  Forall (fun c => c <> "/"%char) (replace_slash s).
Proof.
  induction s as [|c s IH]; [constructor|]. cbn [replace_slash map].
  constructor; [|exact IH].
  destruct (ascii_eqb c "/") eqn:E; [discriminate|].
  intros ->. discriminate.
Qed.

Lemma string_of_uint_no_slash (d : Decimal.uint) :
  Forall (fun c => c <> "/"%char)
    (list_ascii_of_string (NilEmpty.string_of_uint d)).
Proof.
  induction d; cbn [NilEmpty.string_of_uint list_ascii_of_string];
    constructor; try discriminate; assumption.
Qed.

Lemma format_04d_no_slash (n : Z) :
  Forall (fun c => c <> "/"%char) (Dataset.format_04d n).
Proof.
  unfold Dataset.format_04d. rewrite !Forall_app. split; [|split].
  - destruct (n <? 0); repeat constructor; discriminate.
  - apply Forall_forall. intros c Hc. apply list_elem_of_In, repeat_spec in Hc.
    subst c. discriminate.
  - unfold decimal. destruct (Z.to_int (Z.abs n)) as [d|d];
      cbn [NilZero.string_of_int].
    + unfold NilZero.string_of_uint. destruct d;
        try apply string_of_uint_no_slash. repeat constructor; discriminate.
    + cbn [list_ascii_of_string]. constructor; [discriminate|].
      unfold NilZero.string_of_uint. destruct d;
        try apply string_of_uint_no_slash. repeat constructor; discriminate.
Qed.

Lemma split_first_slash (x1 x2 y1 y2 : text) :
  Forall (fun c => c <> "/"%char) x1 -> Forall (fun c => c <> "/"%char) x2 ->
  x1 ++ "/"%char :: y1 = x2 ++ "/"%char :: y2 -> x1 = x2 /\ y1 = y2.
Proof.
  intros H1. revert x2. induction H1 as [|c x1 Hc _ IH]; intros x2 H2 E.
  - destruct H2 as [|d x2 Hd _]; cbn [app] in E.
    + injection E as ->. auto.
    + injection E as <- _. contradiction.
  - destruct H2 as [|d x2 Hd H2]; cbn [app] in E.
    + injection E as -> _. contradiction.
    + injection E as -> E. destruct (IH x2 H2 E) as [-> ->]. auto.
Qed.

Lemma split_last_slash (x1 x2 y1 y2 : text) :
  Forall (fun c => c <> "/"%char) y1 -> Forall (fun c => c <> "/"%char) y2 ->
  x1 ++ "/"%char :: y1 = x2 ++ "/"%char :: y2 -> x1 = x2 /\ y1 = y2.
Proof.
  intros H1 H2 E. apply (f_equal (@rev ascii)) in E.
  rewrite !rev_app_distr in E. cbn [rev] in E. rewrite <- !app_assoc in E.
  cbn [app] in E.
  apply split_first_slash in E as [Ey Ex].
  - split; [apply rev_inj, Ex|apply rev_inj, Ey].
  - apply Forall_forall. intros c Hc. rewrite Forall_forall in H1. apply H1.
    apply list_elem_of_In. apply in_rev. apply list_elem_of_In, Hc.
  - apply Forall_forall. intros c Hc. rewrite Forall_forall in H2. apply H2.
    apply list_elem_of_In. apply in_rev. apply list_elem_of_In, Hc.
Qed.

Lemma endswith_slash (a x : text) :
  x <> [] -> Forall (fun c => c <> "/"%char) x ->
  endswith (txt "/") (a ++ x) = false.
Proof.
  intros Hne Hx. unfold endswith. rewrite rev_app_distr.
  destruct (rev x) as [|d r] eqn:E.
  - apply (f_equal (@rev ascii)) in E. rewrite rev_involutive in E. contradiction.
  - cbn [rev txt list_ascii_of_string app startswith].
    assert (Hd : d <> "/"%char).
    { rewrite Forall_forall in Hx. apply Hx. apply list_elem_of_In, in_rev.
      rewrite E. left. reflexivity. }
    destruct (ascii_eqb "/" d) eqn:Ed; [|reflexivity].
    apply ascii_eqb_eq in Ed. congruence.
Qed.

Lemma separator_slash (a x : text) :
  x <> [] -> Forall (fun c => c <> "/"%char) x -> separator (a ++ x) = txt "/".
Proof.
  intros Hne Hx. unfold separator. rewrite endswith_slash by assumption.
  destruct (a ++ x) eqn:E; [|reflexivity].
  apply app_eq_nil in E as [_ E]. contradiction.
Qed.

Lemma test_dir_of_eq (outdir sector : text) (n : Z) :
  sector <> [] ->
  test_dir_of outdir sector n
  = (outdir ++ separator outdir) ++ replace_slash sector
      ++ "/"%char :: txt "test_" ++ Dataset.format_04d n.
Proof.
  intros Hne. unfold test_dir_of.
  assert (Hrs : replace_slash sector <> []) by (destruct sector; [contradiction|discriminate]).
  pose proof (replace_slash_no_slash sector) as Hns.
  assert (Hrel : startswith (txt "/") (replace_slash sector) = false).
  { destruct (replace_slash sector) as [|c r]; [contradiction|].
    cbn [txt list_ascii_of_string startswith].
    apply Forall_cons in Hns as [Hc _].
    destruct (ascii_eqb "/" c) eqn:E; [|reflexivity].
    apply ascii_eqb_eq in E. congruence. }
  rewrite (path_join_relative outdir) by exact Hrel.
  rewrite path_join_relative by reflexivity.
  rewrite (app_assoc outdir), separator_slash by assumption.
  rewrite <- !app_assoc. reflexivity.
Qed.

Lemma test_dir_of_inj (outdir s1 s2 : text) (n1 n2 : Z) :
  s1 <> [] -> s2 <> [] ->
  test_dir_of outdir s1 n1 = test_dir_of outdir s2 n2 ->
  replace_slash s1 = replace_slash s2 /\ n1 = n2.
Proof.
  intros H1 H2 E. rewrite !test_dir_of_eq in E by assumption.
  apply app_inv_head in E.
  apply split_first_slash in E as [Es En]; try apply replace_slash_no_slash.
  split; [exact Es|]. apply app_inv_head in En.
  rewrite <- (signed_value_format_04d n1), En. apply signed_value_format_04d.
Qed.

Lemma test_dir_of_plain (outdir sector : text) (n : Z) :
  sector <> [] -> separator (test_dir_of outdir sector n) = txt "/".
Proof.
  intros Hne. rewrite test_dir_of_eq by exact Hne.
  rewrite app_assoc.
  change ("/"%char :: txt "test_" ++ Dataset.format_04d n)
    with (txt "/" ++ txt "test_" ++ Dataset.format_04d n).
  rewrite (app_assoc _ (txt "/")). apply separator_slash.
  - discriminate.
  - apply Forall_app. split; [repeat constructor; discriminate|].
    apply format_04d_no_slash.
Qed.

Lemma sectors_nonempty (s : text) : s ∈ SECTORS -> s <> [].
Proof.
  intros H ->. unfold SECTORS in H. cbn [map] in H.
  repeat (apply elem_of_cons in H as [H|H]; [discriminate|]). inversion H.
Qed.

Lemma sectors_distinct (s1 s2 : text) :
  s1 ∈ SECTORS -> s2 ∈ SECTORS -> replace_slash s1 = replace_slash s2 -> s1 = s2.
Proof.
  assert (H : forallb (fun a => forallb (fun b =>
                implb (text_eqb (replace_slash a) (replace_slash b)) (text_eqb a b))
                SECTORS) SECTORS = true) by (vm_compute; reflexivity).
  intros H1 H2 E. rewrite forallb_forall in H.
  specialize (H s1 (proj1 (list_elem_of_In _ _) H1)). rewrite forallb_forall in H.
  specialize (H s2 (proj1 (list_elem_of_In _ _) H2)).
  rewrite E, text_eqb_refl in H. cbn [implb] in H. apply text_eqb_eq, H.
Qed.

(** *** The batch *)

Lemma attempts_sector (T : Z) (s p : text) (n : Z) :
  (s, p, n) ∈ generate_dataset_attempts T -> s ∈ SECTORS.
Proof.
  unfold generate_dataset_attempts, attempts. intros H.
  apply list_elem_of_In, in_flat_map in H as ([[s' A] cs] & Hplan & H).
  apply in_flat_map in H as ([p' c] & _ & H).
  apply in_map_iff in H as (k & [= <- <- <-] & _).
  apply list_elem_of_In, list_elem_of_lookup in Hplan as [i Hi].
  apply quota_plan_lookup in Hi as (Hs & _).
  eapply list_elem_of_lookup_2, Hs.
Qed.

Lemma initial_numbers_sectors (s : text) :
  s ∈ SECTORS -> dict_get s (initial_numbers SECTORS) = Some 1.
Proof.
  assert (H : forallb (fun a => match dict_get a (initial_numbers SECTORS) with
                                | Some 1 => true
                                | _ => false
                                end) SECTORS = true) by (vm_compute; reflexivity).
  intros Hs. rewrite forallb_forall in H.
  specialize (H s (proj1 (list_elem_of_In _ _) Hs)).
  destruct (dict_get s (initial_numbers SECTORS)) as [[|[| |]|]|]; try discriminate.
  reflexivity.
Qed.

Lemma of_sector_snoc (s : text) (l : list entry) (e : entry) :
  of_sector s (l ++ [e])
  = of_sector s l ++ (if decide (e_sector e = s) then [e] else []).
Proof.
  unfold of_sector. rewrite filter_app. reflexivity.
Qed.

Section Run.
Variable replies : nat -> text * option text * option text.
Variables (outdir : text) (s0 : fs).

Lemma record_case_invariant (n : nat) (tc : MissingRef.test_case) (sector : text)
    (done : Z) (st : batch) :
  batch_invariant outdir s0 done st -> sector ∈ SECTORS ->
  (n = 1 \/ n = 2)%nat ->
  exists st',
    record_case outdir n tc sector st = Done st'
    /\ batch_invariant outdir s0 (done + 1) st'
    /\ calls st' = (n + calls st)%nat.
Proof.
  intros (Hnum & Hcases & Hlog & Hfiles & Hcount & Hcalls) Hs Hn.
  unfold record_case. rewrite (Hnum sector Hs).
  set (k := 1 + len (of_sector sector (test_cases st))).
  rewrite write_log. cbv zeta. cbn [e_test_dir].
  set (e := mk_entry tc sector k (test_dir_of outdir sector k)).
  eexists. split; [reflexivity|]. split; [|reflexivity].
  unfold batch_invariant. cbn [calls sector_test_numbers test_cases store files log].
  split; [|split; [|split; [|split; [|split]]]].
  - intros s Hs'. rewrite of_sector_snoc. cbn [e_sector e].
    destruct (decide (sector = s)) as [->|Hne].
    + rewrite dict_get_set_eq, len_app. fold k. change (len [e]) with 1.
      f_equal. lia.
    + rewrite dict_get_set_ne by congruence. rewrite app_nil_r. apply Hnum, Hs'.
  - intros i x Hi. apply lookup_app_Some in Hi as [Hi|[Hlen Hi]].
    + rewrite take_app_le by (apply lookup_lt_Some in Hi; lia).
      apply Hcases, Hi.
    + apply list_lookup_singleton_Some in Hi as [Hi <-].
      assert (i = length (test_cases st)) as -> by lia.
      rewrite take_app_length. cbn [e e_sector e_test_number e_test_dir]. auto.
  - rewrite Hlog, flat_map_app, <- app_assoc. cbn [flat_map]. rewrite app_nil_r.
    reflexivity.
  - rewrite Hfiles, flat_map_app, foldl_app. cbn [flat_map]. rewrite app_nil_r.
    reflexivity.
  - rewrite len_app. change (len [e]) with 1. lia.
  - lia.
Qed.

Lemma attempt_invariant (done : Z) (st : batch) (a : text * text * Z) :
  batch_invariant outdir s0 done st -> fst (fst a) ∈ SECTORS ->
  match attempt replies outdir st a with
  | Done st' =>
      batch_invariant outdir s0 (done + 1) st'
      /\ (exists added, test_cases st' = test_cases st ++ added)
      /\ ((forall k s p, call replies k s p <> Nothing) ->
            len (test_cases st') = len (test_cases st) + 1
            /\ calls st' = S (calls st))
  | Nothing => False
  | Untyped => exists k s p, call replies k s p = Untyped
  end.
Proof.
  intros Hinv Hs. destruct a as [[sector pattern_type] case_num]. cbn [fst] in Hs.
  unfold attempt.
  destruct (call replies (calls st) sector pattern_type) as [tc| |] eqn:E1.
  - destruct (record_case_invariant 1 tc sector done st Hinv Hs)
      as (st' & Hrec & Hinv' & Hcalls); [auto|].
    rewrite Hrec. split; [exact Hinv'|].
    unfold record_case in Hrec. destruct (dict_get _ _); [|discriminate].
    destruct (write_test_case_files _ _ _ _ _). injection Hrec as <-.
    cbn [test_cases calls]. split; [eauto|]. intros _.
    rewrite len_app. split; reflexivity.
  - destruct (call replies (S (calls st)) sector pattern_type) as [tc| |] eqn:E2.
    + destruct (record_case_invariant 2 tc sector done st Hinv Hs)
        as (st' & Hrec & Hinv' & Hcalls); [auto|].
      rewrite Hrec. split; [exact Hinv'|].
      unfold record_case in Hrec. destruct (dict_get _ _); [|discriminate].
      destruct (write_test_case_files _ _ _ _ _). injection Hrec as <-.
      cbn [test_cases]. split; [eauto|]. intros Hno. exfalso. eapply Hno, E1.
    + destruct Hinv as (Hnum & Hcases & Hlog & Hfiles & Hcount & Hcalls).
      split; [|split].
      * unfold batch_invariant. cbn [calls sector_test_numbers test_cases store].
        split; [exact Hnum|]. split; [exact Hcases|]. split; [exact Hlog|].
        split; [exact Hfiles|]. lia.
      * exists []. cbn [test_cases]. rewrite app_nil_r. reflexivity.
      * intros Hno. exfalso. eapply Hno, E1.
    + eauto.
  - eauto.
Qed.

Lemma run_attempts_invariant (l : list (text * text * Z)) (done : Z) (st : batch) :
  batch_invariant outdir s0 done st ->
  Forall (fun a => fst (fst a) ∈ SECTORS) l ->
  match run_attempts replies outdir l st with
  | Done st' =>
      batch_invariant outdir s0 (done + len l) st'
      /\ (exists added, test_cases st' = test_cases st ++ added)
      /\ ((forall k s p, call replies k s p <> Nothing) ->
            len (test_cases st') = len (test_cases st) + len l
            /\ Z.of_nat (calls st') = Z.of_nat (calls st) + len l)
  | Nothing => False
  | Untyped => exists k s p, call replies k s p = Untyped
  end.
Proof.
  intros Hinv Hl. revert done st Hinv.
  induction Hl as [|a l Ha _ IH]; intros done st Hinv; cbn [run_attempts].
  - change (len (@nil (text * text * Z))) with 0. rewrite !Z.add_0_r.
    split; [exact Hinv|]. split; [exists []; rewrite app_nil_r; reflexivity|auto].
  - pose proof (attempt_invariant done st a Hinv Ha) as Hstep.
    destruct (attempt replies outdir st a) as [st1| |]; [|contradiction|exact Hstep].
    destruct Hstep as (Hinv1 & (added1 & Hadd1) & Hall1).
    specialize (IH (done + 1) st1 Hinv1).
    destruct (run_attempts replies outdir l st1) as [st2| |]; [|contradiction|exact IH].
    destruct IH as (Hinv2 & (added2 & Hadd2) & Hall2).
    rewrite len_cons. replace (done + (1 + len l)) with (done + 1 + len l) by lia.
    split; [exact Hinv2|]. split.
    + exists (added1 ++ added2). rewrite Hadd2, Hadd1, app_assoc. reflexivity.
    + intros Hno. destruct (Hall1 Hno) as [H1 H1']. destruct (Hall2 Hno) as [H2 H2'].
      lia.
Qed.

Lemma generate_dataset_invariant (total_cases : Z) :
  let attempts := generate_dataset_attempts total_cases in
  match generate_dataset replies outdir total_cases s0 with
  | Done st =>
      batch_invariant outdir s0 (len attempts) st
      /\ ((forall k s p, call replies k s p <> Nothing) ->
            len (test_cases st) = len attempts /\ Z.of_nat (calls st) = len attempts)
  | Nothing => False
  | Untyped => exists k s p, call replies k s p = Untyped
  end.
Proof.
  cbv zeta. unfold generate_dataset.
  set (st0 := {| calls := 0; sector_test_numbers := initial_numbers SECTORS;
                 test_cases := []; store := s0 |}).
  assert (Hinv0 : batch_invariant outdir s0 0 st0).
  { unfold batch_invariant, st0. cbn [calls sector_test_numbers test_cases store].
    split; [intros s Hs; rewrite initial_numbers_sectors by exact Hs; reflexivity|].
    split; [intros i e Hi; inversion Hi|].
    cbn [flat_map foldl]. rewrite app_nil_r.
    change (len (@nil entry)) with 0.
    split; [reflexivity|]. split; [reflexivity|]. lia. }
  assert (Hl : Forall (fun a => fst (fst a) ∈ SECTORS) (generate_dataset_attempts total_cases)).
  { apply Forall_forall. intros [[s p] n] Ha. eapply attempts_sector, Ha. }
  pose proof (run_attempts_invariant _ 0 st0 Hinv0 Hl) as H.
  destruct (run_attempts replies outdir _ st0) as [st| |]; [|exact H|exact H].
  destruct H as (Hinv & _ & Hall). rewrite Z.add_0_l in Hinv.
  split; [exact Hinv|]. intros Hno. destruct (Hall Hno) as [H1 H2].
  unfold st0 in H1, H2. cbn [test_cases calls] in H1, H2.
  change (len (@nil entry)) with 0 in H1. lia.
Qed.
End Run.

Lemma numbered_prefix (outdir : text) (l : list entry) (e : entry) :
  numbered outdir (l ++ [e]) ->
  numbered outdir l
  /\ e_test_number e = 1 + len (of_sector (e_sector e) l).
Proof.
  intros H. split.
  - intros i x Hi. pose proof (lookup_lt_Some _ _ _ Hi) as Hlt.
    destruct (H i x) as (H1 & H2 & H3).
    { rewrite lookup_app_l by exact Hlt. exact Hi. }
    rewrite take_app_le in H2 by lia. auto.
  - destruct (H (length l) e) as (_ & H2 & _).
    { rewrite lookup_app_r by lia. rewrite Nat.sub_diag. reflexivity. }
    rewrite take_app_length in H2. exact H2.
Qed.

Lemma numbered_consecutive (outdir sector : text) (l : list entry) :
  numbered outdir l ->
  map e_test_number (of_sector sector l)
  = map Z.of_nat (seq 1 (length (of_sector sector l))).
Proof.
  induction l as [|e l IH] using rev_ind; intros H; [reflexivity|].
  apply numbered_prefix in H as [Hl He]. rewrite of_sector_snoc.
  destruct (decide (e_sector e = sector)) as [<-|Hne].
  - rewrite map_app, length_app, (IH Hl). cbn [map length].
    rewrite Nat.add_1_r, seq_S, map_app. cbn [map]. f_equal. f_equal.
    rewrite He. unfold len. lia.
  - rewrite app_nil_r. apply IH, Hl.
Qed.

Lemma of_sector_take_lt (sector : text) (l : list entry) (i j : nat) (e : entry) :
  (i < j)%nat -> l !! i = Some e -> e_sector e = sector ->
  len (of_sector sector (take i l)) < len (of_sector sector (take j l)).
Proof.
  intros Hij Hi He.
  assert (Hi' : take j l !! i = Some e) by (rewrite lookup_take_lt by exact Hij; exact Hi).
  apply take_drop_middle in Hi'. rewrite take_take in Hi'.
  replace (i `min` j)%nat with i in Hi' by lia.
  rewrite <- Hi'. unfold of_sector. rewrite filter_app, filter_cons_True by exact He.
  rewrite len_app, len_cons. pose proof (len_nonneg (filter (fun e0 => e_sector e0 = sector)
    (drop (S i) (take j l)))). lia.
Qed.

Lemma numbered_dirs_differ (outdir : text) (l : list entry) (i j : nat) (a b : entry) :
  numbered outdir l -> (i < j)%nat -> l !! i = Some a -> l !! j = Some b ->
  e_test_dir a <> e_test_dir b.
Proof.
  intros H Hij Ha Hb E.
  destruct (H i a Ha) as (Hsa & Hna & Hda). destruct (H j b Hb) as (Hsb & Hnb & Hdb).
  rewrite Hda, Hdb in E.
  apply test_dir_of_inj in E as [Es En]; try (apply sectors_nonempty; assumption).
  apply sectors_distinct in Es; try assumption.
  pose proof (of_sector_take_lt (e_sector a) l i j a Hij Ha eq_refl) as Hlt.
  rewrite Hna, Hnb, <- Es in En. lia.
Qed.

Lemma numbered_dirs_NoDup (outdir : text) (l : list entry) :
  numbered outdir l -> NoDup (map e_test_dir l).
Proof.
  intros H. apply NoDup_alt. intros i j d Hi Hj.
  rewrite list_lookup_fmap in Hi, Hj.
  destruct (l !! i) as [a|] eqn:Ha; [|discriminate].
  destruct (l !! j) as [b|] eqn:Hb; [|discriminate].
  injection Hi as Hi. injection Hj as Hj.
  destruct (lt_eq_lt_dec i j) as [[Hlt| ->]|Hlt]; [|reflexivity|].
  - exfalso. apply (numbered_dirs_differ outdir l i j a b H Hlt Ha Hb). congruence.
  - exfalso. apply (numbered_dirs_differ outdir l j i b a H Hlt Hb Ha). congruence.
Qed.

Lemma NoDup_flat_map {A B} (f : A -> list B) (l : list A) :
  NoDup l -> (forall x, x ∈ l -> NoDup (f x)) ->
  (forall x y z, x ∈ l -> y ∈ l -> z ∈ f x -> z ∈ f y -> x = y) ->
  NoDup (flat_map f l).
Proof.
  induction 1 as [|x l Hx Hnd IH]; intros Hf Hdisj; cbn [flat_map]; [constructor|].
  apply NoDup_app. split; [apply Hf; left|]. split.
  - intros z Hz Hz'. apply list_elem_of_In, in_flat_map in Hz' as (y & Hy & Hzy).
    apply list_elem_of_In in Hy, Hzy.
    assert (x = y) by (eapply Hdisj; [left|right; exact Hy|exact Hz|exact Hzy]).
    subst y. contradiction.
  - apply IH.
    + intros y Hy. apply Hf. right. exact Hy.
    + intros y1 y2 z H1 H2. apply Hdisj; right; assumption.
Qed.

Lemma entry_path_dir (e : entry) (p : text) :
  separator (e_test_dir e) = txt "/" -> p ∈ map fst (entry_files e) ->
  exists name, p = e_test_dir e ++ "/"%char :: name
               /\ Forall (fun c => c <> "/"%char) name.
Proof.
  intros Hsep Hp. rewrite entry_files_paths in Hp.
  apply list_elem_of_fmap in Hp as (name & -> & Hname). rewrite Hsep.
  exists (txt name). split; [reflexivity|].
  repeat (apply elem_of_cons in Hname as [->|Hname];
          [repeat constructor; discriminate|]).
  inversion Hname.
Qed.

Lemma numbered_paths_NoDup (outdir : text) (l : list entry) :
  numbered outdir l -> NoDup (map fst (flat_map entry_files l)).
Proof.
  intros H.
  assert (Hsep : forall e, e ∈ l -> separator (e_test_dir e) = txt "/").
  { intros e He. apply list_elem_of_lookup in He as [i Hi].
    destruct (H i e Hi) as (Hs & _ & ->). apply test_dir_of_plain, sectors_nonempty, Hs. }
  replace (map fst (flat_map entry_files l))
    with (flat_map (fun e => map fst (entry_files e)) l).
  2:{ clear. induction l as [|e l IH]; [reflexivity|].
      cbn [flat_map]. rewrite map_app, IH. reflexivity. }
  pose proof (numbered_dirs_NoDup outdir l H) as Hnd.
  assert (Hl : NoDup l).
  { eapply NoDup_fmap_1, Hnd. }
  apply NoDup_flat_map; [exact Hl| |].
  - intros e _. apply entry_files_NoDup.
  - intros a b p Ha Hb Hpa Hpb.
    destruct (entry_path_dir a p (Hsep a Ha) Hpa) as (na & -> & Hna).
    destruct (entry_path_dir b _ (Hsep b Hb) Hpb) as (nb & E & Hnb).
    apply split_last_slash in E as [E _]; try assumption.
    apply list_elem_of_lookup in Ha as [i Hi]. apply list_elem_of_lookup in Hb as [j Hj].
    destruct (lt_eq_lt_dec i j) as [[Hlt|Heq]|Hlt].
    + exfalso. apply (numbered_dirs_differ outdir l i j a b H Hlt Hi Hj E).
    + subst j. congruence.
    + exfalso. apply (numbered_dirs_differ outdir l j i b a H Hlt Hj Hi). congruence.
Qed.

(** X14.  In the list [generate_dataset] returns every case belongs to a
    sector of the table and carries the directory of its sector and test
    number; the test numbers of the cases of a sector are 1, 2, 3, ... in
    the order of the list, the counter of each sector ends one above the
    number of its cases, and no two cases share a directory. *)
Theorem generate_dataset_numbering (replies : nat -> text * option text * option text)
    (outdir : text) (total_cases : Z) (s : fs) (st : batch) :
  generate_dataset replies outdir total_cases s = Done st ->
  (forall e, e ∈ test_cases st ->
     e_sector e ∈ SECTORS
     /\ e_test_dir e = test_dir_of outdir (e_sector e) (e_test_number e))
  /\ (forall sector,
        map e_test_number (of_sector sector (test_cases st))
        = map Z.of_nat (seq 1 (length (of_sector sector (test_cases st)))))
  /\ (forall sector, sector ∈ SECTORS ->
        dict_get sector (sector_test_numbers st)
        = Some (1 + len (of_sector sector (test_cases st))))
  /\ NoDup (map e_test_dir (test_cases st)).
Proof.
  intros Hrun. pose proof (generate_dataset_invariant replies outdir s total_cases) as H.
  cbv zeta in H. rewrite Hrun in H. destruct H as ((Hnum & Hcases & _) & _).
  split; [|split; [|split]].
  - intros e He. apply list_elem_of_lookup in He as [i Hi].
    destruct (Hcases i e Hi) as (H1 & _ & H3). auto.
  - intros sector. eapply numbered_consecutive, Hcases.
  - exact Hnum.
  - eapply numbered_dirs_NoDup, Hcases.
Qed.

(** X15.  The run of [generate_dataset] performs, in the order of the
    returned list, the directory creation and the four writes of each
    returned case and nothing else; no file is written twice, so at the
    end the files of every returned case hold what was written for that
    case, and every other file is as it was. *)
Theorem generate_dataset_files (replies : nat -> text * option text * option text)
    (outdir : text) (total_cases : Z) (s : fs) (st : batch) :
  generate_dataset replies outdir total_cases s = Done st ->
  log (store st) = log s ++ flat_map entry_events (test_cases st)
  /\ NoDup (map fst (flat_map entry_files (test_cases st)))
  /\ (forall e p c, e ∈ test_cases st -> (p, c) ∈ entry_files e ->
        files (store st) !! p = Some c)
  /\ (forall p, p ∉ map fst (flat_map entry_files (test_cases st)) ->
        files (store st) !! p = files s !! p).
Proof.
  intros Hrun. pose proof (generate_dataset_invariant replies outdir s total_cases) as H.
  cbv zeta in H. rewrite Hrun in H.
  destruct H as ((_ & Hcases & Hlog & Hfiles & _) & _).
  pose proof (numbered_paths_NoDup outdir _ Hcases) as Hnd.
  destruct (foldl_insert_lookup (flat_map entry_files (test_cases st)) (files s) Hnd)
    as [Hin Hout].
  split; [exact Hlog|]. split; [exact Hnd|]. rewrite Hfiles. split.
  - intros e p c He Hpc. apply Hin. apply list_elem_of_In, in_flat_map.
    exists e. split; apply list_elem_of_In; assumption.
  - exact Hout.
Qed.

(** X16.  For a total that is not negative, [generate_dataset] ends
    unless a call of the generator leaves the typed view, and no missing
    key stops it; it returns at most [total_cases] cases after at least
    [total_cases] and at most twice as many calls of the generator, and
    exactly [total_cases] cases after as many calls when every call gives
    a case. *)
Theorem generate_dataset_counts (replies : nat -> text * option text * option text)
    (outdir : text) (total_cases : Z) (s : fs) :
  0 <= total_cases ->
  match generate_dataset replies outdir total_cases s with
  | Done st =>
      len (test_cases st) <= total_cases
      /\ total_cases <= Z.of_nat (calls st) <= 2 * total_cases
      /\ ((forall k sector pattern_type,
              call replies k sector pattern_type <> Nothing) ->
            len (test_cases st) = total_cases
            /\ Z.of_nat (calls st) = total_cases)
  | Nothing => False
  | Untyped => exists k sector pattern_type,
                 call replies k sector pattern_type = Untyped
  end.
Proof.
  intros HT. pose proof (generate_dataset_invariant replies outdir s total_cases) as H.
  cbv zeta in H.
  assert (Hlen : len (generate_dataset_attempts total_cases) = total_cases).
  { apply attempts_length; [reflexivity|reflexivity|exact HT]. }
  rewrite Hlen in H.
  destruct (generate_dataset replies outdir total_cases s) as [st| |];
    [|exact H|exact H].
  destruct H as ((_ & _ & _ & _ & Hcount & Hcalls) & Hall).
  split; [lia|]. split; [lia|exact Hall].
Qed.

(** Witness of X14: three cases, each after a call that gave nothing. *)
Lemma generate_dataset_numbering_witness :
  exists st,
    generate_dataset sample_replies (txt "out") 3 (mk_fs ∅ []) = Done st
    /\ NoDup (map e_test_dir (test_cases st)).
Proof.
  assert (Hdone : match generate_dataset sample_replies (txt "out") 3 (mk_fs ∅ []) with
                  | Done _ => true
                  | _ => false
                  end = true) by (vm_compute; reflexivity).
  destruct (generate_dataset sample_replies (txt "out") 3 (mk_fs ∅ [])) as [st| |] eqn:E;
    [|discriminate Hdone..].
  exists st. split; [reflexivity|].
  exact (proj2 (proj2 (proj2
           (generate_dataset_numbering sample_replies (txt "out") 3 (mk_fs ∅ []) st E)))).
Defined.

(** Witness of X15, on the same run. *)
Lemma generate_dataset_files_witness :
  exists st,
    generate_dataset sample_replies (txt "out") 3 (mk_fs ∅ []) = Done st
    /\ NoDup (map fst (flat_map entry_files (test_cases st))).
Proof.
  assert (Hdone : match generate_dataset sample_replies (txt "out") 3 (mk_fs ∅ []) with
                  | Done _ => true
                  | _ => false
                  end = true) by (vm_compute; reflexivity).
  destruct (generate_dataset sample_replies (txt "out") 3 (mk_fs ∅ [])) as [st| |] eqn:E;
    [|discriminate Hdone..].
  exists st. split; [reflexivity|].
  exact (proj1 (proj2
           (generate_dataset_files sample_replies (txt "out") 3 (mk_fs ∅ []) st E))).
Defined.

(** Witness of X16, on the same run. *)
Lemma generate_dataset_counts_witness :
  0 <= 3
  /\ exists st,
       generate_dataset sample_replies (txt "out") 3 (mk_fs ∅ []) = Done st
       /\ len (test_cases st) <= 3.
Proof.
  assert (H3 : 0 <= 3) by lia. split; [exact H3|].
  pose proof (generate_dataset_counts sample_replies (txt "out") 3 (mk_fs ∅ []) H3) as H.
  assert (Hdone : match generate_dataset sample_replies (txt "out") 3 (mk_fs ∅ []) with
                  | Done _ => true
                  | _ => false
                  end = true) by (vm_compute; reflexivity).
  destruct (generate_dataset sample_replies (txt "out") 3 (mk_fs ∅ [])) as [st| |] eqn:E;
    [|discriminate Hdone..].
  exists st. split; [reflexivity|]. exact (proj1 H).
Defined.
End BatchFacts.

(** ** The response of the service *)

Lemma startswith_char (c a : ascii) (t : text) :
  startswith [c] (a :: t) = ascii_eqb c a.
Proof. cbn [startswith]. destruct t; apply andb_true_r. Qed.

Lemma find_char_absent (c : ascii) (t : text) (i : Z) :
  Forall (fun a => a <> c) t -> find_from [c] t i = -1.
Proof.
  intros H. revert i. induction H as [|a t Ha _ IH]; intros i; [reflexivity|].
  cbn [find_from]. rewrite startswith_char.
  destruct (ascii_eqb c a) eqn:E; [apply ascii_eqb_eq in E; congruence|].
  apply IH.
Qed.

Lemma find_char (c : ascii) (pre rest : text) (i : Z) :
  Forall (fun a => a <> c) pre -> find_from [c] (pre ++ c :: rest) i = i + len pre.
Proof.
  intros H. revert i. induction H as [|a t Ha _ IH]; intros i; cbn [app find_from].
  - rewrite startswith_char. unfold ascii_eqb. rewrite Ascii.eqb_refl.
    change (len (@nil ascii)) with 0. lia.
  - rewrite startswith_char.
    destruct (ascii_eqb c a) eqn:E; [apply ascii_eqb_eq in E; congruence|].
    rewrite IH, len_cons. lia.
Qed.

Lemma rfind_char_absent (c : ascii) (t : text) (i : Z) :
  Forall (fun a => a <> c) t -> rfind_from [c] t i = -1.
Proof.
  intros H. revert i. induction H as [|a t Ha _ IH]; intros i; [reflexivity|].
  cbn [rfind_from]. rewrite IH, startswith_char.
  destruct (ascii_eqb c a) eqn:E; [apply ascii_eqb_eq in E; congruence|].
  reflexivity.
Qed.

Lemma rfind_char (c : ascii) (a post : text) (i : Z) :
  0 <= i -> Forall (fun x => x <> c) post ->
  rfind_from [c] (a ++ c :: post) i = i + len a.
Proof.
  intros Hi Hpost. revert i Hi. induction a as [|x a IH]; intros i Hi;
    cbn [app rfind_from].
  - rewrite rfind_char_absent by exact Hpost. rewrite startswith_char.
    unfold ascii_eqb. rewrite Ascii.eqb_refl.
    change (0 <=? -1) with false. cbv iota.
    change (len (@nil ascii)) with 0. lia.
  - rewrite IH by lia. rewrite len_cons.
    pose proof (len_nonneg a) as Ha.
    destruct (0 <=? i + 1 + len a) eqn:E; [lia|]. apply Z.leb_gt in E. lia.
Qed.

(** X17.  Only the text from the first opening brace to the last closing
    brace of the response counts: what the service writes before and after
    it changes nothing, and a response without an opening or without a
    closing brace gives no test case. *)
Theorem generate_test_case_with_llm_extraction (pre mid post : text)
    (ext1 ext2 : option text) (sector pattern_type : text) :
  let body := "{"%char :: mid ++ ["}"%char] in
  (Forall (fun a => a <> "{"%char) pre -> Forall (fun a => a <> "}"%char) post ->
   generate_test_case_with_llm (pre ++ body ++ post) ext1 ext2 sector pattern_type
   = generate_test_case_with_llm body ext1 ext2 sector pattern_type)
  /\ (forall response,
        Forall (fun a => a <> "{"%char) response
        \/ Forall (fun a => a <> "}"%char) response ->
        generate_test_case_with_llm response ext1 ext2 sector pattern_type = Nothing).
Proof.
  intros body. split.
  - intros Hpre Hpost.
    assert (Hslice : forall a b : text,
              Forall (fun x => x <> "{"%char) a -> Forall (fun x => x <> "}"%char) b ->
              let r := a ++ body ++ b in
              find (txt "{") r = len a
              /\ rfind (txt "}") r + 1 = len a + len body
              /\ slice r (len a) (len a + len body) = body).
    { intros a b Ha Hb r. split; [|split].
      - unfold r, body, find. cbn [app]. rewrite (find_char "{" a) by exact Ha. lia.
      - unfold r, body, rfind. cbn [app].
        replace (a ++ "{"%char :: (mid ++ ["}"%char]) ++ b)
          with ((a ++ "{"%char :: mid) ++ "}"%char :: b)
          by (rewrite <- !app_assoc; reflexivity).
        rewrite (rfind_char "}") by (try lia; exact Hb).
        rewrite !len_app, !len_cons, len_app, len_cons.
        change (len (@nil ascii)) with 0. lia.
      - apply slice_middle. }
    destruct (Hslice pre post Hpre Hpost) as (Hf & Hr & Hs). cbv zeta in Hf, Hr, Hs.
    destruct (Hslice [] [] ltac:(constructor) ltac:(constructor)) as (Hf0 & Hr0 & Hs0).
    cbv zeta in Hf0, Hr0, Hs0. cbn [app] in Hf0, Hr0, Hs0.
    rewrite app_nil_r in Hf0, Hr0, Hs0.
    change (len (@nil ascii)) with 0 in Hf0, Hr0, Hs0.
    pose proof (len_nonneg pre) as Hp. pose proof (len_nonneg mid) as Hm.
    assert (Hbody : len body = len mid + 2).
    { unfold body. rewrite len_cons, len_app, len_cons.
      change (len (@nil ascii)) with 0. lia. }
    assert (Hne : forall a b : text, exists x r, a ++ body ++ b = x :: r).
    { intros a b. destruct a; cbn [app]; unfold body; eauto. }
    assert (Hgen : forall response x r, response = x :: r ->
              generate_test_case_with_llm response ext1 ext2 sector pattern_type
              = if (find (txt "{") response =? -1) || (rfind (txt "}") response + 1 =? 0)
                then Nothing
                else match loads (slice response (find (txt "{") response)
                                   (rfind (txt "}") response + 1)) with
                     | None => Nothing
                     | Some v =>
                         match decode_case v with
                         | Done raw =>
                             Done (complete_test_case raw ext1 ext2 sector pattern_type)
                         | Nothing => Nothing
                         | Untyped => Untyped
                         end
                     end).
    { intros response x r ->. reflexivity. }
    destruct (Hne pre post) as (x & r & Er). rewrite (Hgen _ x r Er).
    destruct (Hne [] []) as (x0 & r0 & Er0). cbn [app] in Er0.
    rewrite app_nil_r in Er0. rewrite (Hgen _ x0 r0 Er0).
    rewrite Hf, Hr, Hs, Hf0, Hr0, Hs0.
    destruct (len pre =? -1) eqn:E1; [apply Z.eqb_eq in E1; lia|].
    destruct (len pre + len body =? 0) eqn:E2; [apply Z.eqb_eq in E2; lia|].
    destruct (0 =? -1) eqn:E4; [discriminate|].
    destruct (0 + len body =? 0) eqn:E3; [apply Z.eqb_eq in E3; lia|].
    reflexivity.
  - intros response H. unfold generate_test_case_with_llm.
    destruct response as [|a r]; [reflexivity|].
    destruct H as [H|H].
    + unfold find. rewrite (find_char_absent "{") by exact H. reflexivity.
    + unfold rfind. rewrite (rfind_char_absent "}") by exact H.
      rewrite orb_true_r. reflexivity.
Qed.

(** Witness of X17: a case wrapped in a sentence. *)
Lemma generate_test_case_with_llm_extraction_witness :
  let mid := json_text "'messages': [], 'prompt': 'Fix the report.'" in
  let sector := txt "Legal" in
  let pattern_type := txt "resolved" in
  generate_test_case_with_llm
    (txt "Here it is: " ++ ("{"%char :: mid ++ ["}"%char]) ++ txt " Done.")
    None None sector pattern_type
  = generate_test_case_with_llm ("{"%char :: mid ++ ["}"%char])
      None None sector pattern_type.
Proof.
  intros mid sector pattern_type.
  apply (generate_test_case_with_llm_extraction (txt "Here it is: ") mid (txt " Done.")
           None None sector pattern_type).
  - repeat constructor; discriminate.
  - repeat constructor; discriminate.
Defined.

(** ** The clean-up of an extension *)

Lemma part_of_refl (t : text) : part_of t t.
Proof. exists [], []. rewrite app_nil_r. reflexivity. Qed.

Lemma part_of_trans (s t u : text) : part_of s t -> part_of t u -> part_of s u.
Proof.
  intros (a & b & ->) (c & d & ->). exists (c ++ a), (b ++ d).
  rewrite <- !app_assoc. reflexivity.
Qed.

Lemma part_of_len (s t : text) : part_of s t -> len s <= len t.
Proof.
  intros (a & b & ->). rewrite !len_app.
  pose proof (len_nonneg a). pose proof (len_nonneg b). lia.
Qed.

Lemma lstrip_suffix (t : text) : exists a, t = a ++ lstrip t.
Proof.
  induction t as [|c t [a IH]]; [exists []; reflexivity|].
  cbn [lstrip]. destruct (is_space c).
  - exists (c :: a). cbn [app]. f_equal. exact IH.
  - exists []. reflexivity.
Qed.

Lemma strip_part (t : text) : part_of (strip t) t.
Proof.
  unfold strip. destruct (lstrip_suffix t) as [a Ha].
  destruct (lstrip_suffix (rev (lstrip t))) as [b Hb].
  exists a, (rev b). rewrite Ha at 1. f_equal.
  rewrite <- rev_app_distr, <- Hb, rev_involutive. reflexivity.
Qed.

Lemma slice_part {A} (t : list A) (i j : Z) :
  exists pre post, t = pre ++ slice t i j ++ post.
Proof.
  unfold slice. eexists _, _.
  rewrite (take_drop _ (drop _ t)), take_drop. reflexivity.
Qed.

Lemma split_on_nonempty (sep : ascii) (t : text) : split_on sep t <> [].
Proof.
  destruct t as [|a t]; [discriminate|]. cbn [split_on].
  destruct (ascii_eqb a sep); [discriminate|].
  destruct (split_on sep t); discriminate.
Qed.

Lemma join_cons (sep p : text) (ps : list text) :
  ps <> [] -> join sep (p :: ps) = p ++ sep ++ join sep ps.
Proof. destruct ps; [contradiction|reflexivity]. Qed.

Lemma join_split_on (sep : ascii) (t : text) : join [sep] (split_on sep t) = t.
Proof.
  induction t as [|a t IH]; [reflexivity|]. cbn [split_on].
  pose proof (split_on_nonempty sep t) as Hne.
  destruct (ascii_eqb a sep) eqn:E.
  - apply ascii_eqb_eq in E as ->. rewrite join_cons by exact Hne.
    rewrite IH. reflexivity.
  - destruct (split_on sep t) as [|l ls]; [contradiction|].
    rewrite <- IH. destruct ls; reflexivity.
Qed.

Lemma join_app_part (sep : text) (a m b : list text) :
  part_of (join sep m) (join sep (a ++ m ++ b)).
Proof.
  assert (Hr : forall m b, exists post, join sep (m ++ b) = join sep m ++ post).
  { clear. induction m as [|x m IH]; intros b.
    - exists (join sep b). reflexivity.
    - destruct (IH b) as [post Hpost]. cbn [app].
      destruct m as [|y m].
      + cbn [app] in *. destruct b as [|z b].
        * exists []. rewrite app_nil_r. reflexivity.
        * eexists. rewrite join_cons by discriminate. reflexivity.
      + rewrite (join_cons sep x ((y :: m) ++ b)) by discriminate.
        rewrite (join_cons sep x (y :: m)) by discriminate. rewrite Hpost.
        exists post. rewrite <- !app_assoc. reflexivity. }
  assert (Hl : forall a l, exists pre, join sep (a ++ l) = pre ++ join sep l).
  { clear. induction a as [|x a IH]; intros l.
    - exists []. reflexivity.
    - destruct (IH l) as [pre Hpre]. cbn [app].
      destruct (a ++ l) as [|y r] eqn:E.
      + apply app_eq_nil in E as [-> ->]. exists x. rewrite app_nil_r. reflexivity.
      + rewrite join_cons by discriminate. rewrite Hpre.
        exists (x ++ sep ++ pre). rewrite <- !app_assoc. reflexivity. }
  destruct (Hl a (m ++ b)) as [pre Hpre]. destruct (Hr m b) as [post Hpost].
  exists pre, post. rewrite Hpre, Hpost. reflexivity.
Qed.

(** X18.  The clean-up of a service extension only cuts text away at the
    two ends: its result is a contiguous part of the text it is given, and
    so never longer. *)
Theorem clean_extension_part (extended : text) :
  part_of (clean_extension extended) extended
  /\ len (clean_extension extended) <= len extended.
Proof.
  assert (H : part_of (clean_extension extended) extended).
  { unfold clean_extension. cbv zeta.
    set (e1 := strip extended).
    set (e2 := if startswith [Json.quote] e1 && endswith [Json.quote] e1
               then slice e1 1 (-1) else e1).
    assert (H1 : part_of e1 extended) by apply strip_part.
    assert (H2 : part_of e2 extended).
    { unfold e2. destruct (_ && _); [|exact H1].
      eapply part_of_trans; [|exact H1]. apply slice_part. }
    clearbody e2. clear H1 e1.
    destruct (_ && _); [|exact H2].
    eapply part_of_trans; [|exact H2].
    destruct (slice_part (split_on nl e2) 1 (-1)) as (a & b & Hab).
    rewrite <- (join_split_on nl e2) at 2. rewrite Hab at 2.
    apply join_app_part. }
  split; [exact H|apply part_of_len, H].
Qed.

(** ** The length of the finished prompt *)

Lemma extend_without_reply (reply : option text) (prompt sector pattern_type : text) :
  reply = None \/ reply = Some [] ->
  extend_prompt_if_needed reply prompt sector pattern_type
  = if MIN_PROMPT_LENGTH <=? len prompt then prompt
    else prompt ++ fallback_extension sector.
Proof.
  intros [-> | ->]; unfold extend_prompt_if_needed;
    destruct (MIN_PROMPT_LENGTH <=? len prompt); reflexivity.
Qed.

Lemma fixing_prompt_unfold (raw : raw_case) (ext1 : option text)
    (sector pattern_type : text) :
  fixing_prompt raw ext1 sector pattern_type
  = if len (raw_prompt raw) <? MIN_PROMPT_LENGTH
    then extend_prompt_if_needed ext1 (raw_prompt raw) sector pattern_type
    else raw_prompt raw.
Proof.
  unfold fixing_prompt, extended_stage. cbv zeta.
  destruct (len (raw_prompt raw) <? MIN_PROMPT_LENGTH); reflexivity.
Qed.

(** X19.  When the service gives no extension (the call fails or returns
    nothing), the finished prompt is the prompt of the response followed by
    the filler paragraph at most twice: not at all when the prompt has the
    minimum length, once when one filler reaches it, twice otherwise.  It
    then reaches the minimum length exactly when the prompt has at least
    954 characters less four times the length of the sector name. *)
Theorem finished_prompt_without_service (raw : raw_case) (ext1 ext2 : option text)
    (sector pattern_type : text) :
  ext1 = None \/ ext1 = Some [] ->
  ext2 = None \/ ext2 = Some [] ->
  let p := raw_prompt raw in
  let filler := fallback_extension sector in
  let final := tc_prompt (complete_test_case raw ext1 ext2 sector pattern_type) in
  final = (if MIN_PROMPT_LENGTH <=? len p then p
           else if MIN_PROMPT_LENGTH <=? len p + len filler then p ++ filler
                else p ++ filler ++ filler)
  /\ (MIN_PROMPT_LENGTH <= len final <-> 954 <= len p + 4 * len sector).
Proof.
  intros H1 H2 p filler final.
  assert (HF : len filler = 523 + 2 * len sector) by apply len_fallback_extension.
  assert (Hfinal : final = (if MIN_PROMPT_LENGTH <=? len p then p
           else if MIN_PROMPT_LENGTH <=? len p + len filler then p ++ filler
                else p ++ filler ++ filler)).
  { unfold final. rewrite complete_test_case_prompt. cbv zeta.
    rewrite fixing_prompt_unfold, !(extend_without_reply ext1) by exact H1.
    fold p filler.
    destruct (MIN_PROMPT_LENGTH <=? len p) eqn:E.
    - apply Z.leb_le in E.
      destruct (len p <? MIN_PROMPT_LENGTH) eqn:E'; [apply Z.ltb_lt in E'; lia|].
      rewrite E'. reflexivity.
    - apply Z.leb_gt in E.
      destruct (len p <? MIN_PROMPT_LENGTH) eqn:E'; [|apply Z.ltb_ge in E'; lia].
      rewrite (extend_without_reply ext2) by exact H2. fold filler.
      rewrite len_app.
      destruct (MIN_PROMPT_LENGTH <=? len p + len filler) eqn:E2.
      + apply Z.leb_le in E2.
        destruct (len p + len filler <? MIN_PROMPT_LENGTH) eqn:E3;
          [apply Z.ltb_lt in E3; lia|reflexivity].
      + apply Z.leb_gt in E2.
        destruct (len p + len filler <? MIN_PROMPT_LENGTH) eqn:E3;
          [|apply Z.ltb_ge in E3; lia].
        rewrite <- app_assoc. reflexivity. }
  split; [exact Hfinal|]. rewrite Hfinal.
  pose proof (len_nonneg sector) as Hs.
  change MIN_PROMPT_LENGTH with 2000 in *.
  destruct (2000 <=? len p) eqn:E; [apply Z.leb_le in E; lia|].
  apply Z.leb_gt in E.
  destruct (2000 <=? len p + len filler) eqn:E2.
  - apply Z.leb_le in E2. rewrite len_app. lia.
  - apply Z.leb_gt in E2. rewrite !len_app. lia.
Qed.

(** Witness of X19: a prompt of 500 characters stays below the minimum. *)
Lemma finished_prompt_without_service_witness :
  let raw := mk_raw (JArr []) (repeat "a"%char 500) None None None in
  let final := tc_prompt (complete_test_case raw None (Some []) (txt "Legal")
                            (txt "mixed")) in
  ~ MIN_PROMPT_LENGTH <= len final.
Proof.
  intros raw final.
  destruct (finished_prompt_without_service raw None (Some []) (txt "Legal") (txt "mixed"))
    as [_ Hiff]; [left; reflexivity|right; reflexivity|].
  intros H. destruct Hiff as [Hif _]. specialize (Hif H).
  assert (Hp : len (raw_prompt raw) = 500) by reflexivity.
  assert (Hs : len (txt "Legal") = 5) by reflexivity.
  rewrite Hp, Hs in Hif. lia.
Defined.

(** ** One span *)

Lemma startswith_marker_other (c : ascii) (t : text) :
  c <> "["%char -> startswith MARKER (c :: t) = false.
Proof.
  intros Hc. unfold MARKER. cbn [txt list_ascii_of_string startswith].
  destruct (ascii_eqb "[" c) eqn:E; [|reflexivity].
  apply ascii_eqb_eq in E. congruence.
Qed.

Lemma scan_without_bracket (fuel : nat) (t : text) :
  Forall (fun c => c <> "["%char) t -> (length t < fuel)%nat ->
  remove_fuel fuel MARKER t = t /\ count_fuel fuel MARKER t = 0%nat.
Proof.
  intros H. revert fuel. induction H as [|c t Hc _ IH]; intros fuel Hlt.
  - destruct fuel; [inversion Hlt|]. split; reflexivity.
  - destruct fuel as [|fuel]; [inversion Hlt|]. cbn [remove_fuel count_fuel].
    rewrite startswith_marker_other by exact Hc.
    destruct (IH fuel) as [-> ->]; [simpl in Hlt; lia|]. auto.
Qed.

Lemma scan_one_marker (fuel : nat) (a b : text) :
  Forall (fun c => c <> "["%char) a -> Forall (fun c => c <> "["%char) b ->
  (length (a ++ MARKER ++ b) < fuel)%nat ->
  remove_fuel fuel MARKER (a ++ MARKER ++ b) = a ++ b
  /\ count_fuel fuel MARKER (a ++ MARKER ++ b) = 1%nat.
Proof.
  intros Ha Hb. revert fuel. induction Ha as [|c a Hc _ IH]; intros fuel Hlt.
  - destruct fuel as [|fuel]; [inversion Hlt|]. cbn [app remove_fuel count_fuel].
    rewrite startswith_app. cbn [app] in Hlt. rewrite length_app in Hlt.
    change (length MARKER) with 19%nat in Hlt.
    replace (skipn (length MARKER) (MARKER ++ b)) with b
      by (symmetry; apply drop_app_length).
    assert (Hfuel : (length b < fuel)%nat) by lia.
    destruct (scan_without_bracket fuel b Hb Hfuel) as [-> ->]. auto.
  - destruct fuel as [|fuel]; [inversion Hlt|]. cbn [app remove_fuel count_fuel].
    rewrite startswith_marker_other by exact Hc.
    destruct (IH fuel) as [-> ->]; [cbn [app length] in Hlt; lia|]. auto.
Qed.

(** X20.  With a single span that lies inside a prompt free of opening
    square brackets, the annotation is right: the marker stands directly
    after the end of the span, it is the only marker of the result, and
    deleting it gives the prompt back. *)
Theorem annotate_prompt_one_span (P : text) (r : ref) :
  Forall (fun c => c <> "["%char) P ->
  0 <= get_start r -> 0 <= get_end r <= len P ->
  let out := annotate_prompt P [r] in
  out = slice_to P (get_end r) ++ MARKER ++ slice_from P (get_end r)
  /\ count MARKER out = 1%nat
  /\ remove_all MARKER out = P.
Proof.
  intros HP Hs He out.
  assert (Hout : out = slice_to P (get_end r) ++ MARKER ++ slice_from P (get_end r))
    by (apply annotate_prompt_single; assumption).
  split; [exact Hout|]. rewrite Hout. unfold count, remove_all.
  assert (Ha : Forall (fun c => c <> "["%char) (slice_to P (get_end r)))
    by (apply Forall_take, HP).
  assert (Hb : Forall (fun c => c <> "["%char) (slice_from P (get_end r)))
    by (apply Forall_drop, HP).
  destruct (scan_one_marker (S (length (slice_to P (get_end r) ++ MARKER
                                          ++ slice_from P (get_end r))))
              _ _ Ha Hb) as [Hrem Hcount]; [lia|].
  split; [exact Hcount|]. rewrite Hrem. apply slice_to_from.
Qed.

(** Witness of X20: the span [the report] of a short request. *)
Lemma annotate_prompt_one_span_witness :
  let P := txt "Summarize the report for me." in
  remove_all MARKER (annotate_prompt P [span P 10 20]) = P
  /\ annotate_prompt P [span P 10 20]
     = txt "Summarize the report[MISSING_REFERENCE] for me.".
Proof.
  intros P.
  assert (HP : Forall (fun c => c <> "["%char) P) by (repeat constructor; discriminate).
  assert (Hs : 0 <= get_start (span P 10 20)) by (vm_compute; discriminate).
  assert (He : 0 <= get_end (span P 10 20) <= len P)
    by (split; vm_compute; discriminate).
  destruct (annotate_prompt_one_span P (span P 10 20) HP Hs He) as (Hout & _ & Hrem).
  split; [exact Hrem|]. rewrite Hout. reflexivity.
Defined.

(** ** The position fix *)

(** X21.  Fixing the positions of a span is stable: a second pass over the
    same prompt changes nothing, and a span whose text occurs in the prompt
    ends up on the first occurrence of its text whatever positions it
    came with. *)
Theorem fix_position_stable (P : text) (r : ref) :
  fix_position P (fix_position P r) = fix_position P r
  /\ (forall s e, contains (get_text r) P = true ->
        fix_position P (mk_ref (r_text r) s e (r_type r)) = fix_position P r).
Proof.
  split.
  - destruct (contains (get_text r) P) eqn:Hc.
    + destruct (fix_position_found P r Hc) as (Hfix & _). cbv zeta in Hfix.
      rewrite Hfix.
      assert (Hc' : contains (get_text (mk_ref (r_text r)
                                (Some (find (get_text r) P))
                                (Some (find (get_text r) P + len (get_text r)))
                                (r_type r))) P = true) by exact Hc.
      destruct (fix_position_found P _ Hc') as (Hfix' & _). cbv zeta in Hfix'.
      exact Hfix'.
    + rewrite (fix_position_absent P r Hc). apply fix_position_absent, Hc.
  - intros s e Hc.
    destruct (fix_position_found P r Hc) as (Hfix & _). cbv zeta in Hfix.
    assert (Hc' : contains (get_text (mk_ref (r_text r) s e (r_type r))) P = true)
      by exact Hc.
    destruct (fix_position_found P _ Hc') as (Hfix' & _). cbv zeta in Hfix'.
    rewrite Hfix, Hfix'. reflexivity.
Qed.

(** ** The client *)

Lemma lstrip_char_spec (c : ascii) (t : text) :
  exists k, t = repeat c k ++ lstrip_char c t
            /\ startswith [c] (lstrip_char c t) = false.
Proof.
  induction t as [|a t (k & Hk & Hs)]; [exists 0%nat; auto|].
  cbn [lstrip_char]. destruct (ascii_eqb a c) eqn:E.
  - apply ascii_eqb_eq in E as ->. exists (S k). cbn [repeat app].
    split; [f_equal; exact Hk|exact Hs].
  - exists 0%nat. split; [reflexivity|].
    rewrite startswith_char. destruct (ascii_eqb c a) eqn:E'; [|reflexivity].
    apply ascii_eqb_eq in E' as ->. unfold ascii_eqb in E.
    rewrite Ascii.eqb_refl in E. discriminate.
Qed.

Lemma rev_repeat {A} (x : A) (k : nat) : rev (repeat x k) = repeat x k.
Proof.
  induction k as [|k IH]; [reflexivity|]. cbn [repeat rev]. rewrite IH.
  clear IH. induction k as [|k IH]; [reflexivity|]. cbn [repeat app].
  f_equal. exact IH.
Qed.

(** X22.  The client never keeps a trailing slash on its base address:
    the stored address is the chosen one (the argument if it is given and
    not empty, else the environment variable if it is set, else the local
    default) without the slashes at its end, so the address requests are
    posted to has a single slash before [api].  With no argument and no
    environment variable it is the local default. *)
Theorem client_base_url (base_url_arg model_arg env_base_url env_model : option text) :
  let c := OllamaClient_init base_url_arg model_arg env_base_url env_model in
  let chosen := py_or base_url_arg
                  (default (txt "http://localhost:11434") env_base_url) in
  endswith (txt "/") (base_url c) = false
  /\ (exists k, chosen = base_url c ++ repeat "/"%char k)
  /\ generate_url c = base_url c ++ txt "/api/generate"
  /\ (base_url_arg = None -> env_base_url = None ->
        generate_url c = txt "http://localhost:11434/api/generate").
Proof.
  intros c chosen. unfold c, OllamaClient_init. cbv zeta. fold chosen.
  cbn [base_url]. unfold rstrip_char, endswith.
  destruct (lstrip_char_spec "/" (rev chosen)) as (k & Hk & Hs).
  split; [|split; [|split]].
  - rewrite rev_involutive. exact Hs.
  - exists k. apply (f_equal (@rev ascii)) in Hk.
    rewrite rev_involutive, rev_app_distr, rev_repeat in Hk. exact Hk.
  - reflexivity.
  - intros Ha He. unfold chosen. rewrite Ha, He. reflexivity.
Qed.
